(** * TokenWise backend: the wallet monitoring and classification engine

    A shallow embedding of [BE/src/services/solanaService.ts]: the rate
    limiter, the retry helper, the protocol classifier, the balance-delta
    classification of parsed transactions, the top-holder cache and the
    subscription table, followed by the properties the specification
    states about them.

    Conventions.
    - A JavaScript [number] that holds a token amount, a fee or a delay is
      a binary64 float ([PrimFloat.float]); [===], [>] and [-] on numbers
      are [PrimFloat.eqb], [PrimFloat.ltb] and [PrimFloat.sub].
    - [Date.now()] is an integer number of milliseconds ([Z]).
    - A value that may be [null] or [undefined] is an [option]; where
      the code tells the two apart, it is a [Js.Optional].
    - An [async] function that can reject is a computation in the monad
      [M] below: it threads the outside world and the trace of observable
      events, and ends in [Ok v] (resolved) or [Throw e] (rejected). *)

From Stdlib Require Import List String ZArith Lia Bool Arith.
From Stdlib Require Import PrimFloat.
From Corelib Require FloatOps SpecFloat.
Import ListNotations.

Local Open Scope string_scope.
Local Open Scope list_scope.

(** ** JavaScript values *)

Module Js.

(** [ToNumber] on a [number | null]: [null] coerces to [+0]. *)
Definition toNumber (v : option float) : float :=
  match v with
  | Some x => x
  | None => 0%float
  end.

(** An optional property of type [number | null]: absent, [null] or a
    number. *)
Inductive Optional :=
| Undefined
| Null
| Number (x : float).

(** [ToNumber] on such a property: [undefined] coerces to [NaN], [null]
    to [+0]. *)
Definition numberOf (v : Optional) : float :=
  match v with
  | Undefined => nan
  | Null => 0%float
  | Number x => x
  end.

(** The integral part of a number below [2^53] in magnitude: adding and
    subtracting [2^52] rounds the magnitude to an integer, which is then
    brought back below it. *)
Definition trunc (x : float) : float :=
  let a := abs x in
  let t :=
    if (a <? 4503599627370496)%float then
      let r := (a + 4503599627370496 - 4503599627370496)%float in
      if (a <? r)%float then (r - 1)%float else r
    else a in
  if (x <? 0)%float then (- t)%float else t.

(** [new Date(value)] on a number, as the time value the [Date] holds:
    [NaN] (an invalid date) when the number is not finite or beyond
    [8.64e15] in magnitude, and otherwise the number without its
    fraction, [-0] becoming [+0]. *)
Definition newDate (value : float) : float :=
  if is_nan value || is_infinity value then nan
  else if (8640000000000000 <? abs value)%float then nan
  else (trunc value + 0)%float.

(** [String.prototype.includes]. *)
Definition includes (hay needle : string) : bool :=
  match String.index 0 needle hay with
  | Some _ => true
  | None => false
  end.

(** [Array.prototype.includes] on an array of strings. *)
Definition arrayIncludes (xs : list string) (x : string) : bool :=
  existsb (String.eqb x) xs.

(** [Array.prototype.find]. *)
Definition find {A : Type} (p : A -> bool) (xs : list A) : option A :=
  List.find p xs.

(** [Array.prototype.slice(0, end)] for an integral [end]: a negative
    [end] counts from the back of the array. *)
Definition slice0 {A : Type} (xs : list A) (e : Z) : list A :=
  let len := Z.of_nat (List.length xs) in
  let k := if (e <? 0)%Z then Z.max (len + e) 0 else Z.min e len in
  firstn (Z.to_nat k) xs.

(** [2 ** n] as a float, for [Math.pow(2, attempt)]. *)
Fixpoint pow2 (n : nat) : float :=
  match n with
  | O => 1%float
  | S k => (2 * pow2 k)%float
  end.

End Js.

(** ** Data model ([types/index.ts] and the parsed RPC transaction) *)

Inductive Direction := Buy | Sell.

Inductive Protocol := Jupiter | Raydium | Orca | Unknown.

(** [interface Transaction]. [signature] is [signatures[0]], which is
    [undefined] on an empty array. [timestamp] is the time value of the
    [Date], in milliseconds, [NaN] for an invalid date. *)
Record Transaction := mkTransaction {
  signature : option string;
  timestamp : float;
  walletAddress : string;
  type : Direction;
  amount : float;
  protocol : Protocol;
  priceImpact : float;
  fee : float;
  tokenPrice : option float
}.

(** [interface Wallet]; the two dates are milliseconds. *)
Record Wallet := mkWallet {
  address : string;
  tokenBalance : float;
  solBalance : float;
  firstSeen : Z;
  lastActivity : Z;
  transactionCount : Z;
  totalVolume : float
}.

(** web3.js [TokenBalance]: [owner] is optional, [uiTokenAmount.uiAmount]
    is [number | null]. *)
Record TokenBalance := mkTokenBalance {
  owner : option string;
  mint : string;
  uiAmount : option float
}.

(** web3.js [ParsedTransactionMeta], the fields the service reads. *)
Record ParsedTransactionMeta := mkMeta {
  metaFee : float;
  preTokenBalances : option (list TokenBalance);
  postTokenBalances : option (list TokenBalance)
}.

(** web3.js [ParsedTransactionWithMeta]: [accountKeys] holds
    [key.pubkey.toString()] of each account of the message. *)
Record ParsedTransactionWithMeta := mkParsedTransaction {
  signatures : list string;
  accountKeys : list string;
  meta : option ParsedTransactionMeta;
  blockTime : Js.Optional
}.

(** ** Protocol classifier and balance delta (pure part of the service) *)

(** The object literal [protocols] of [detectProtocol]; [Object.entries]
    yields its string keys in insertion order. *)
Definition protocols : list (Protocol * list string) :=
  [ (Jupiter, [ "JUP4Fb2cqiRUcaTHdrPC8h2gNsA2ETXiPDD33WcGuJB";
                "JUP6LkbZbjS1jKKwapdHNy74zcZ3tLUZoi5QNyVTaV4" ]);
    (Raydium, [ "675kPX9MHTjS2zt1qfr1NYHuzeLXfQM9H24wFSUt1Mp8";
                "5Q544fKrFoe6tsEbD7S8EmxGTJYAKtTVhAW5Q5pge4j1" ]);
    (Orca,    [ "9W959DqEETiGZocYWCQPaJ6sBmUzgfxXfqGeTEdp3aQP";
                "DjVE6JNiYqPL2QXyCUUh8rNjHrbz9hXHNYt99MQ59qw1" ]) ].

(** [accountKeys.some((key) => signatures.includes(key))]. *)
Definition touches (keys sigs : list string) : bool :=
  existsb (fun key => Js.arrayIncludes sigs key) keys.

(** The [for ... of Object.entries(protocols)] loop over a table. *)
Fixpoint detectIn (table : list (Protocol * list string)) (keys : list string)
  : Protocol :=
  match table with
  | [] => Unknown
  | (p, sigs) :: rest => if touches keys sigs then p else detectIn rest keys
  end.

Definition detectProtocol (keys : list string) : Protocol :=
  detectIn protocols keys.

Section Classification.

(** [this.tokenMint.toString()]. *)
Variable tokenMint : string.

(** The predicate of [balances.find] inside [findBalance]. *)
Definition matchesWallet (addr : string) (b : TokenBalance) : bool :=
  match owner b with
  | Some o => String.eqb o addr
  | None => false
  end && String.eqb (mint b) tokenMint.

(** [findBalance]: the [uiAmount] of the first matching entry
    ([number | null]), or [0] when there is none. *)
Definition findBalance (balances : list TokenBalance) (addr : string)
  : option float :=
  match Js.find (matchesWallet addr) balances with
  | Some b => uiAmount b
  | None => Some 0%float
  end.

Definition calculateTokenBalanceChange
  (preBalances postBalances : list TokenBalance) (addr : string) : float :=
  let preBalance := findBalance preBalances addr in
  let postBalance := findBalance postBalances addr in
  (Js.toNumber postBalance - Js.toNumber preBalance)%float.

(** [x || []] on an optional array. *)
Definition orEmpty {A : Type} (xs : option (list A)) : list A :=
  match xs with
  | Some l => l
  | None => []
  end.

(** [analyzeTransaction]. Nothing inside its [try] block throws on a value
    of the declared type, so the [catch] branch is not reachable and the
    function is total: [None] is the [null] result. *)
Definition analyzeTransaction (tx : ParsedTransactionWithMeta) (addr : string)
  : option Transaction :=
  match meta tx with
  | None => None
  | Some m =>
      let preBalances := orEmpty (preTokenBalances m) in
      let postBalances := orEmpty (postTokenBalances m) in
      let protocol := detectProtocol (accountKeys tx) in
      let tokenBalanceChange :=
        calculateTokenBalanceChange preBalances postBalances addr in
      if (tokenBalanceChange =? 0)%float then None
      else
        Some {| signature := hd_error (signatures tx);
                timestamp :=
                  Js.newDate (Js.numberOf (blockTime tx) * 1000)%float;
                walletAddress := addr;
                type := if (0 <? tokenBalanceChange)%float then Buy else Sell;
                amount := abs tokenBalanceChange;
                protocol := protocol;
                priceImpact := 0%float;
                fee := (metaFee m / 1e9)%float;
                tokenPrice := Some 0%float |}
  end.

End Classification.

(** ** The rate limiter ([class RateLimiter]) *)

Module RateLimiter.

(** The three private fields. [requests] is kept oldest first: [push]
    appends. *)
Record t := mk {
  requests : list Z;
  maxRequests : Z;
  timeWindow : Z
}.

Definition create (maxRequests timeWindowMs : Z) : t :=
  {| requests := []; maxRequests := maxRequests; timeWindow := timeWindowMs |}.

(** How one run of the body of [waitForAvailability] ends: it either
    reaches [this.requests.push(now)] and returns, or it reaches the
    [await] on the timer. *)
Inductive Outcome :=
| Granted
| Suspended (waitTime : Z).

(** [(timestamp) => now - timestamp < this.timeWindow]. *)
Definition inWindow (now window timestamp : Z) : bool :=
  (now - timestamp <? window)%Z.

Definition push (now : Z) (rl : t) (kept : list Z) : t :=
  {| requests := kept ++ [now];
     maxRequests := maxRequests rl;
     timeWindow := timeWindow rl |}.

(** One run of the body of [waitForAvailability] at time [now =
    Date.now()], up to its first suspension point. The body contains no
    [await] before the timer, so on the event loop it runs as one
    uninterrupted turn. When the kept list is empty yet not below
    [maxRequests], [requests[0]] is [undefined], [waitTime] is [NaN] and
    the test [waitTime > 0] fails: the call is admitted. *)
Definition attempt (now : Z) (rl : t) : Outcome * t :=
  let kept := filter (inWindow now (timeWindow rl)) (requests rl) in
  if (maxRequests rl <=? Z.of_nat (List.length kept))%Z then
    match kept with
    | oldestRequest :: _ =>
        let waitTime := (timeWindow rl - (now - oldestRequest))%Z in
        if (0 <? waitTime)%Z then
          (Suspended waitTime,
           {| requests := kept;
              maxRequests := maxRequests rl;
              timeWindow := timeWindow rl |})
        else (Granted, push now rl kept)
    | [] => (Granted, push now rl kept)
    end
  else (Granted, push now rl kept).

(** A caller suspended by [attempt] re-enters [waitForAvailability] from
    the top when its timer fires, so every execution of the limiter, with
    any number of concurrent callers, is a sequence of turns, each at the
    time its [Date.now()] returned. [run] plays such a schedule and keeps,
    next to the limiter, the log of every admission ever granted (the
    limiter itself forgets the purged ones). *)
Fixpoint run (rl : t) (log : list Z) (schedule : list Z) : t * list Z :=
  match schedule with
  | [] => (rl, log)
  | now :: rest =>
      match attempt now rl with
      | (Granted, rl') => run rl' (log ++ [now]) rest
      | (Suspended _, rl') => run rl' log rest
      end
  end.

(** One caller alone: [waitForAvailability] as the recursion it is, with
    the wake-up times supplied by the timer. [wake now waitTime] is the
    time at which the continuation of [setTimeout(resolve, waitTime)]
    runs. [None] when the given number of rounds does not suffice. *)
Fixpoint waitForAvailability (wake : Z -> Z -> Z) (rounds : nat) (now : Z)
  (rl : t) : option (Z * t) :=
  match attempt now rl with
  | (Granted, rl') => Some (now, rl')
  | (Suspended waitTime, rl') =>
      match rounds with
      | O => None
      | S k => waitForAvailability wake k (wake now waitTime) rl'
      end
  end.

(** The admissions of [log] that lie within the window ending at [now]. *)
Definition grantedWithin (now window : Z) (log : list Z) : nat :=
  List.length (filter (inWindow now window) log).

(** A schedule in which time does not run backwards. *)
Fixpoint nondecreasing (from : Z) (schedule : list Z) : Prop :=
  match schedule with
  | [] => True
  | now :: rest => (from <= now)%Z /\ nondecreasing now rest
  end.

(** What a schedule of turns preserves: the log holds nothing from the
    future, and seen from now or later the limiter's list and the log
    agree on what is inside the window. *)
Record consistent (rl : t) (log : list Z) (last : Z) : Prop := {
  log_past : Forall (fun ts => (ts <= last)%Z) log;
  same_window :
    forall now, (last <= now)%Z ->
      filter (inWindow now (timeWindow rl)) (requests rl)
      = filter (inWindow now (timeWindow rl)) log
}.

(** The time of the last turn of a schedule that starts after [from]. *)
Definition lastTurn (from : Z) (schedule : list Z) : Z :=
  last schedule from.

End RateLimiter.

(** ** Asynchronous computations: the outside world and the event trace *)

(** A thrown value, as far as the service inspects it: [error.message]. *)
Record JsError := mkError { message : option string }.

Inductive result (A : Type) :=
| Ok (a : A)
| Throw (e : JsError).

Arguments Ok {A} a.
Arguments Throw {A} e.

(** [this.connectionPool[i]] and [this.connection]. *)
Inductive Connection :=
| PoolConn (i : nat)
| MainConn.

(** web3.js [ConfirmedSignatureInfo], the field the service reads. *)
Record ConfirmedSignatureInfo := mkSignatureInfo { infoSignature : string }.

(** One element of [result.data.Solana.BalanceUpdates]. *)
Record BalanceUpdateEntry := mkEntry {
  accountAddress : string;
  holding : option string
}.

(** What the service does to its collaborators, in the order it does it. *)
Inductive Event :=
| EvAcquire
| EvGetSignaturesForAddress (c : Connection) (addr : string) (limit : Z)
| EvGetParsedTransaction (c : Connection) (sig : string)
| EvSleep (ms : float)
| EvInsertTransaction (t : Transaction)
| EvInsertWallet (w : Wallet)
| EvFetchHolders
| EvOnAccountChange (c : Connection) (addr : string) (id : Z)
| EvRemoveListener (c : Connection) (id : Z)
| EvConsoleError.

(** The collaborators the service calls and does not define: the clock,
    the random generator, the timer, the RPC node behind a connection, the
    analytics endpoint and the database. Each answer may depend on, and
    change, the state of the world. *)
Class Environment (World : Type) := {
  dateNow : World -> Z * World;
  mathRandom : World -> float * World;
  setTimeout : float -> World -> World;
  limiterWait : World -> World;
  isPublicKey : string -> bool;
  parseFloat : string -> float;
  getSignaturesForAddress :
    Connection -> string -> Z -> World ->
    result (list ConfirmedSignatureInfo) * World;
  getParsedTransaction :
    Connection -> string -> World ->
    result (option ParsedTransactionWithMeta) * World;
  onAccountChange : Connection -> string -> World -> result Z * World;
  removeAccountChangeListener :
    Connection -> Z -> World -> result unit * World;
  fetchBalanceUpdates : World -> result (list BalanceUpdateEntry) * World;
  insertTransaction : Transaction -> World -> result unit * World
}.

(** The mutable fields of [SolanaService] next to the world.
    [subscriptions] is the [Map] in insertion order. *)
Record State (World : Type) := mkState {
  world : World;
  subscriptions : list (string * (Z * Connection));
  topHoldersCache : list Wallet;
  lastTopHolderFetch : Z
}.

Arguments mkState {World}.
Arguments world {World}.
Arguments subscriptions {World}.
Arguments topHoldersCache {World}.
Arguments lastTopHolderFetch {World}.

(** A computation returns its outcome, the state it leaves and the events
    it emitted, oldest first. *)
Definition M (World A : Type) : Type :=
  State World -> result A * State World * list Event.

Definition ret {World A : Type} (a : A) : M World A :=
  fun s => (Ok a, s, []).

Definition throw {World A : Type} (e : JsError) : M World A :=
  fun s => (Throw e, s, []).

Definition bind {World A B : Type} (m : M World A) (f : A -> M World B)
  : M World B :=
  fun s =>
    match m s with
    | (Ok a, s1, t1) =>
        match f a s1 with
        | (r, s2, t2) => (r, s2, t1 ++ t2)
        end
    | (Throw e, s1, t1) => (Throw e, s1, t1)
    end.

(** [try { m } catch (error) { h error }]. *)
Definition tryCatch {World A : Type} (m : M World A)
  (h : JsError -> M World A) : M World A :=
  fun s =>
    match m s with
    | (Ok a, s1, t1) => (Ok a, s1, t1)
    | (Throw e, s1, t1) =>
        match h e s1 with
        | (r, s2, t2) => (r, s2, t1 ++ t2)
        end
    end.

Declare Scope async_scope.
Delimit Scope async_scope with async.

Notation "x <- m ;; k" := (bind m (fun x => k))
  (at level 61, m at next level, right associativity) : async_scope.
Notation "m ;; k" := (bind m (fun _ => k))
  (at level 61, right associativity) : async_scope.

Local Open Scope async_scope.

Definition emit {World : Type} (ev : Event) : M World unit :=
  fun s => (Ok tt, s, [ev]).

(** Run a function of the world inside a computation. *)
Definition inWorld {World A : Type} (f : World -> A * World) : M World A :=
  fun s =>
    match f (world s) with
    | (a, w) =>
        (Ok a,
         mkState w (subscriptions s) (topHoldersCache s)
           (lastTopHolderFetch s),
         [])
    end.

(** Ask a collaborator that may fail. *)
Definition ask {World A : Type} (f : World -> result A * World)
  : M World A :=
  r <- inWorld f ;;
  match r with
  | Ok a => ret a
  | Throw e => throw e
  end.

(** [for (const x of xs) { await body(x) }]. *)
Fixpoint forEach {World A : Type} (body : A -> M World unit) (xs : list A)
  : M World unit :=
  match xs with
  | [] => ret tt
  | x :: rest => body x ;; forEach body rest
  end.

Definition outcome {A S : Type} (r : result A * S * list Event) : result A :=
  fst (fst r).

Definition final {A S : Type} (r : result A * S * list Event) : S :=
  snd (fst r).

Definition events {A S : Type} (r : result A * S * list Event) : list Event :=
  snd r.

(** ** The retry helper and the service ([RetryHelper], [SolanaService]) *)

(** The test of [withRetry] on the caught value:
    [error.message?.includes("429") ||
     error.message?.includes("Too Many Requests")]. *)
Definition isRateLimitError (error : JsError) : bool :=
  match message error with
  | Some m => Js.includes m "429" || Js.includes m "Too Many Requests"
  | None => false
  end.

(** [this.connectionPool[Math.floor(r * 3)] || this.connection] for the
    pool of three the constructor builds. *)
Definition pickConnection (r : float) : Connection :=
  let x := (r * 3)%float in
  if ((0 <=? x) && (x <? 1))%float then PoolConn 0
  else if ((1 <=? x) && (x <? 2))%float then PoolConn 1
  else if ((2 <=? x) && (x <? 3))%float then PoolConn 2
  else MainConn.

(** [Map.prototype.set]: an existing key keeps its place. *)
Fixpoint mapSet {V : Type} (k : string) (v : V) (m : list (string * V))
  : list (string * V) :=
  match m with
  | [] => [(k, v)]
  | (k', v') :: rest =>
      if String.eqb k' k then (k, v) :: rest else (k', v') :: mapSet k v rest
  end.

(** [Map.prototype.get]. *)
Fixpoint mapGet {V : Type} (k : string) (m : list (string * V)) : option V :=
  match m with
  | [] => None
  | (k', v') :: rest => if String.eqb k' k then Some v' else mapGet k rest
  end.

Section Service.

Context {World : Type} {E : Environment World}.

(** [this.tokenMint.toString()]. *)
Variable tokenMint : string.

Notation "'Async'" := (M World).

(** [await new Promise((resolve) => setTimeout(resolve, ms))]. *)
Definition sleep (ms : float) : Async unit :=
  emit (EvSleep ms) ;;
  inWorld (fun w => (tt, setTimeout ms w)).

(** [await this.rateLimiter.waitForAvailability()] as the service sees
    it: the call has no [throw] and returns once admitted (module
    [RateLimiter] is the limiter itself); meanwhile the world moves on. *)
Definition acquire : Async unit :=
  inWorld (fun w => (tt, limiterWait w)) ;;
  emit EvAcquire.

(** [this.getConnection()]. *)
Definition getConnection : Async Connection :=
  r <- inWorld mathRandom ;;
  ret (pickConnection r).

(** [new PublicKey(address)], which throws on a malformed address. *)
Definition newPublicKey (addr : string) : Async unit :=
  if isPublicKey addr then ret tt
  else throw (mkError (Some "Invalid public key input")).

(** The loop of [withRetry] from iteration [attempt] on, with
    [remaining = maxRetries - attempt] iterations after this one. *)
Fixpoint retryLoop {A : Type} (operation : Async A) (baseDelay : float)
  (remaining attempt : nat) : Async A :=
  tryCatch operation
    (fun error =>
       match remaining with
       | O => throw error
       | S remaining' =>
           if isRateLimitError error then
             r <- inWorld mathRandom ;;
             sleep (baseDelay * Js.pow2 attempt + r * 1000)%float ;;
             retryLoop operation baseDelay remaining' (S attempt)
           else throw error
       end).

(** [RetryHelper.withRetry]. With [maxRetries] a natural number the loop
    leaves through a [return] or a [throw] at the latest in iteration
    [maxRetries], so the [throw lastError] behind it is not reached. *)
Definition withRetry {A : Type} (operation : Async A) (maxRetries : nat)
  (baseDelay : float) : Async A :=
  retryLoop operation baseDelay maxRetries 0.

(** The closure [() => this.getConnection().getSignaturesForAddress(new
    PublicKey(walletAddress), { limit })]. *)
Definition fetchSignatures (addr : string) (limit : Z)
  : Async (list ConfirmedSignatureInfo) :=
  c <- getConnection ;;
  newPublicKey addr ;;
  emit (EvGetSignaturesForAddress c addr limit) ;;
  ask (getSignaturesForAddress c addr limit).

(** The closure [() => this.getConnection().getParsedTransaction(
    signatureInfo.signature, ...)]. *)
Definition fetchTransaction (sig : string)
  : Async (option ParsedTransactionWithMeta) :=
  c <- getConnection ;;
  emit (EvGetParsedTransaction c sig) ;;
  ask (getParsedTransaction c sig).

(** [await dbManager.insertTransaction(analysis)]. *)
Definition storeTransaction (analysis : Transaction) : Async unit :=
  emit (EvInsertTransaction analysis) ;;
  ask (insertTransaction analysis).

(** The part of [processTransaction] after the fetch. *)
Definition classifyAndStore (addr : string)
  (transaction : option ParsedTransactionWithMeta) : Async unit :=
  match transaction with
  | None => ret tt
  | Some tx =>
      match analyzeTransaction tokenMint tx addr with
      | Some analysis => storeTransaction analysis
      | None => ret tt
      end
  end.

Definition processTransaction (signatureInfo : ConfirmedSignatureInfo)
  (addr : string) : Async unit :=
  tryCatch
    (acquire ;;
     transaction <-
       withRetry (fetchTransaction (infoSignature signatureInfo)) 3 1000 ;;
     classifyAndStore addr transaction)
    (fun _ => emit EvConsoleError).

Definition handleAccountChange (addr : string) : Async unit :=
  tryCatch
    (acquire ;;
     signatures <- withRetry (fetchSignatures addr 5) 3 1000 ;;
     forEach (fun signatureInfo => processTransaction signatureInfo addr)
       signatures)
    (fun _ => emit EvConsoleError).

(** The [for] loop of [getWalletTransactionHistory]; [transactions] is
    the array it pushes to. *)
Fixpoint historyLoop (addr : string) (signatures : list ConfirmedSignatureInfo)
  (transactions : list Transaction) : Async (list Transaction) :=
  match signatures with
  | [] => ret transactions
  | signatureInfo :: rest =>
      acquire ;;
      transaction <-
        withRetry (fetchTransaction (infoSignature signatureInfo)) 3 1000 ;;
      historyLoop addr rest
        match transaction with
        | Some tx =>
            match analyzeTransaction tokenMint tx addr with
            | Some analysis => transactions ++ [analysis]
            | None => transactions
            end
        | None => transactions
        end
  end.

(** The [try] block of [getWalletTransactionHistory]. *)
Definition historyBody (addr : string) (limit : Z)
  : Async (list Transaction) :=
  acquire ;;
  signatures <- withRetry (fetchSignatures addr limit) 3 1000 ;;
  historyLoop addr signatures [].

Definition getWalletTransactionHistory (addr : string) (limit : Z)
  : Async (list Transaction) :=
  tryCatch (historyBody addr limit)
    (fun _ => emit EvConsoleError ;; ret []).

(** *** Subscriptions *)

Definition setSubscription (addr : string) (id : Z) (c : Connection)
  : Async unit :=
  fun s =>
    (Ok tt,
     mkState (world s) (mapSet addr (id, c) (subscriptions s))
       (topHoldersCache s) (lastTopHolderFetch s),
     []).

(** The body of the inner [for] loop of [subscribeToWalletTransactions],
    with its [try] and [catch]. *)
Definition subscribeOne (addr : string) : Async unit :=
  tryCatch
    (acquire ;;
     newPublicKey addr ;;
     connection <- getConnection ;;
     subscriptionId <- ask (onAccountChange connection addr) ;;
     emit (EvOnAccountChange connection addr subscriptionId) ;;
     setSubscription addr subscriptionId connection)
    (fun _ => emit EvConsoleError).

Definition batchSize : nat := 5.

(** The outer loop from index [i] on; it runs at most once per address, so
    [fuel = walletAddresses.length] iterations are enough. *)
Fixpoint batchLoop (fuel i : nat) (walletAddresses : list string)
  : Async unit :=
  match fuel with
  | O => ret tt
  | S fuel' =>
      if (i <? List.length walletAddresses)%nat then
        let batch := firstn batchSize (skipn i walletAddresses) in
        forEach subscribeOne batch ;;
        (if (i + batchSize <? List.length walletAddresses)%nat
         then sleep 200 else ret tt) ;;
        batchLoop fuel' (i + batchSize) walletAddresses
      else ret tt
  end.

Definition subscribeToWalletTransactions (walletAddresses : list string)
  : Async unit :=
  batchLoop (List.length walletAddresses) 0 walletAddresses.

(** The body of the loop of [unsubscribeAll]; its [catch] only warns on
    the console. *)
Definition unsubscribeOne (entry : string * (Z * Connection)) : Async unit :=
  let '(_, (id, connection)) := entry in
  tryCatch
    (emit (EvRemoveListener connection id) ;;
     ask (removeAccountChangeListener connection id))
    (fun _ => ret tt).

Definition clearSubscriptions : Async unit :=
  fun s =>
    (Ok tt,
     mkState (world s) [] (topHoldersCache s) (lastTopHolderFetch s),
     []).

(** [unsubscribeAll]: the loop body never touches the map, so iterating
    over the entries seen at the start is what the live iterator does. *)
Definition unsubscribeAll : Async unit :=
  fun s => (forEach unsubscribeOne (subscriptions s) ;; clearSubscriptions) s.

(** *** Top holders *)

(** The callback of [data.map]: two [new Date()] and a [parseFloat]. *)
Definition toWallet (entry : BalanceUpdateEntry) : Async Wallet :=
  let tokenBalance :=
    parseFloat
      match holding entry with
      | Some h => if String.eqb h "" then "0" else h
      | None => "0"
      end in
  firstSeen <- inWorld dateNow ;;
  lastActivity <- inWorld dateNow ;;
  ret {| address := accountAddress entry;
         tokenBalance := tokenBalance;
         solBalance := 0%float;
         firstSeen := firstSeen;
         lastActivity := lastActivity;
         transactionCount := 0%Z;
         totalVolume := 0%float |}.

(** [data.map(...)]. *)
Fixpoint toWallets (data : list BalanceUpdateEntry) : Async (list Wallet) :=
  match data with
  | [] => ret []
  | entry :: rest =>
      w <- toWallet entry ;;
      ws <- toWallets rest ;;
      ret (w :: ws)
  end.

(** [this.topHoldersCache = wallets; this.lastTopHolderFetch = now]. *)
Definition setCache (wallets : list Wallet) (now : Z) : Async unit :=
  fun s => (Ok tt, mkState (world s) (subscriptions s) wallets now, []).

(** [getTopTokenHolders]. [dbManager.insertWallet] is [async] and its
    promise is dropped by [forEach], so a failure of the database does not
    reach this function. *)
Definition getTopTokenHolders (limit : Z) : Async (list Wallet) :=
  now <- inWorld dateNow ;;
  fun s =>
    (if negb (Nat.eqb (List.length (topHoldersCache s)) 0)
        && (now - lastTopHolderFetch s <? 30000)%Z
     then ret (Js.slice0 (topHoldersCache s) limit)
     else
       emit EvFetchHolders ;;
       data <- ask fetchBalanceUpdates ;;
       wallets <- toWallets data ;;
       forEach (fun w => emit (EvInsertWallet w)) wallets ;;
       setCache wallets now ;;
       ret (Js.slice0 wallets 60)) s.

End Service.

(** ** A scripted world for the scenarios

    The collaborators answer from lists prepared in advance, one element
    per call; a list that has run out answers with a default. *)

Module Script.

Record World := mk {
  clock : list Z;
  randoms : list float;
  signatureAnswers : list (result (list ConfirmedSignatureInfo));
  transactionAnswers : list (result (option ParsedTransactionWithMeta));
  holderAnswers : list (result (list BalanceUpdateEntry));
  nextSubscriptionId : Z
}.

Definition tick (w : World) : Z * World :=
  match clock w with
  | [] => (0%Z, w)
  | now :: rest =>
      (now,
       mk rest (randoms w) (signatureAnswers w) (transactionAnswers w)
         (holderAnswers w) (nextSubscriptionId w))
  end.

Definition draw (w : World) : float * World :=
  match randoms w with
  | [] => (0%float, w)
  | r :: rest =>
      (r,
       mk (clock w) rest (signatureAnswers w) (transactionAnswers w)
         (holderAnswers w) (nextSubscriptionId w))
  end.

Definition answerSignatures (w : World)
  : result (list ConfirmedSignatureInfo) * World :=
  match signatureAnswers w with
  | [] => (Ok [], w)
  | a :: rest =>
      (a,
       mk (clock w) (randoms w) rest (transactionAnswers w)
         (holderAnswers w) (nextSubscriptionId w))
  end.

Definition answerTransaction (w : World)
  : result (option ParsedTransactionWithMeta) * World :=
  match transactionAnswers w with
  | [] => (Ok None, w)
  | a :: rest =>
      (a,
       mk (clock w) (randoms w) (signatureAnswers w) rest
         (holderAnswers w) (nextSubscriptionId w))
  end.

Definition answerHolders (w : World)
  : result (list BalanceUpdateEntry) * World :=
  match holderAnswers w with
  | [] => (Ok [], w)
  | a :: rest =>
      (a,
       mk (clock w) (randoms w) (signatureAnswers w) (transactionAnswers w)
         rest (nextSubscriptionId w))
  end.

(** The node hands out subscription ids in increasing order. *)
Definition openSubscription (w : World) : result Z * World :=
  (Ok (nextSubscriptionId w),
   mk (clock w) (randoms w) (signatureAnswers w) (transactionAnswers w)
     (holderAnswers w) (nextSubscriptionId w + 1)).

Definition isChar (ch : string) (c : Ascii.ascii) : bool :=
  String.eqb ch (String c EmptyString).

(** [new PublicKey(address)] of web3.js decodes the string as base 58 and
    accepts it when this gives 32 bytes: every character is in the
    alphabet, and the leading [1]s (one zero byte each) and the bytes of
    the number the string denotes add up to 32. *)
Definition base58Alphabet : string :=
  "123456789ABCDEFGHJKLMNPQRSTUVWXYZabcdefghijkmnopqrstuvwxyz".

Fixpoint base58Value (s : string) (acc : Z) : option Z :=
  match s with
  | EmptyString => Some acc
  | String c rest =>
      match String.index 0 (String c EmptyString) base58Alphabet with
      | Some d => base58Value rest (acc * 58 + Z.of_nat d)
      | None => None
      end
  end.

Fixpoint leadingOnes (s : string) : Z :=
  match s with
  | String c rest =>
      if isChar "1" c then (1 + leadingOnes rest)%Z else 0%Z
  | EmptyString => 0%Z
  end.

Definition byteLength (n : Z) : Z :=
  if (n =? 0)%Z then 0%Z else (Z.log2 n / 8 + 1)%Z.

Definition decodesTo32Bytes (s : string) : bool :=
  match base58Value s 0 with
  | Some n => (leadingOnes s + byteLength n =? 32)%Z
  | None => false
  end.

(** [parseFloat] on the decimal literals an endpoint sends: white space,
    a sign, then [Infinity] or digits with an optional fraction and an
    optional exponent, and [NaN] when no digit is found. The digits are
    read as an integer and scaled by one power of ten, which is the
    correctly rounded value as long as the integer is below [2^53] and
    the power at most [10^22]; the scenarios stay within that. *)
Definition digitOf (c : Ascii.ascii) : option nat :=
  let n := Ascii.nat_of_ascii c in
  if ((48 <=? n) && (n <=? 57))%nat then Some (n - 48) else None.

Fixpoint readDigits (s : string) : list nat * string :=
  match s with
  | EmptyString => ([], s)
  | String c rest =>
      match digitOf c with
      | Some d => let '(ds, r) := readDigits rest in (d :: ds, r)
      | None => ([], s)
      end
  end.

Fixpoint skipWhiteSpace (s : string) : string :=
  match s with
  | String c rest =>
      let n := Ascii.nat_of_ascii c in
      if ((n =? 32) || ((9 <=? n) && (n <=? 13)))%nat
      then skipWhiteSpace rest else s
  | EmptyString => s
  end.

Fixpoint floatOfNat (n : nat) : float :=
  match n with
  | O => 0%float
  | S k => (floatOfNat k + 1)%float
  end.

Definition floatOfDigits (ds : list nat) : float :=
  fold_left (fun acc d => (acc * 10 + floatOfNat d)%float) ds 0%float.

Definition natOfDigits (ds : list nat) : nat :=
  fold_left (fun acc d => acc * 10 + d) ds 0.

Fixpoint pow10 (n : nat) : float :=
  match n with
  | O => 1%float
  | S k => (10 * pow10 k)%float
  end.

Definition readSign (s : string) : bool * string :=
  match s with
  | String c rest =>
      if isChar "-" c then (true, rest)
      else if isChar "+" c then (false, rest)
      else (false, s)
  | EmptyString => (false, s)
  end.

(** The exponent part, if one follows: [e] or [E], a sign, digits. *)
Definition readExponent (s : string) : Z :=
  match s with
  | String c rest =>
      if isChar "e" c || isChar "E" c then
        let '(negative, body) := readSign rest in
        let e := Z.of_nat (natOfDigits (fst (readDigits body))) in
        if negative then (- e)%Z else e
      else 0%Z
  | EmptyString => 0%Z
  end.

Definition parseDecimal (s : string) : float :=
  let '(negative, body) := readSign (skipWhiteSpace s) in
  if String.prefix "Infinity" body then
    if negative then neg_infinity else infinity
  else
  let '(whole, rest) := readDigits body in
  let '(fraction, rest') :=
    match rest with
    | String c behind =>
        if isChar "." c then readDigits behind else ([], rest)
    | EmptyString => ([], rest)
    end in
  match whole ++ fraction with
  | [] => nan
  | digits =>
      let e := (readExponent rest' - Z.of_nat (List.length fraction))%Z in
      let m := floatOfDigits digits in
      let x :=
        if (0 <=? e)%Z then (m * pow10 (Z.to_nat e))%float
        else (m / pow10 (Z.to_nat (- e)))%float in
      if negative then (- x)%float else x
  end.

(** Timers and the limiter leave the scripted world alone. *)
#[global] Instance environment : Environment World := {
  dateNow := tick;
  mathRandom := draw;
  setTimeout := fun _ w => w;
  limiterWait := fun w => w;
  isPublicKey := decodesTo32Bytes;
  parseFloat := parseDecimal;
  getSignaturesForAddress := fun _ _ _ => answerSignatures;
  getParsedTransaction := fun _ _ => answerTransaction;
  onAccountChange := fun _ _ => openSubscription;
  removeAccountChangeListener := fun _ _ w => (Ok tt, w);
  fetchBalanceUpdates := answerHolders;
  insertTransaction := fun _ w => (Ok tt, w)
}.

Definition quiet : World := mk [] [] [] [] [] 1.

Definition start (w : World) : State World := mkState w [] [] 0.

End Script.

(** ** The status probe ([SolanaService.getConnectionStatus]) *)

(** The limiter the constructor builds: [new RateLimiter(8, 1000)]. *)
Definition configuredLimiter : RateLimiter.t := RateLimiter.create 8 1000.

(** What the probe asks of the world besides the collaborators above: the
    current slot of the node, and the length of the limiter's list
    ([this.rateLimiter["requests"].length]). *)
Class Probe (World : Type) := {
  getSlot : Connection -> World -> result float * World;
  limiterRequests : World -> Z
}.

(** The object [getConnectionStatus] resolves with. *)
Record ConnectionStatus := mkStatus {
  rpcConnected : bool;
  activeSubscriptions : nat;
  requestsInWindow : Z;
  reportedMaxRequests : Z
}.

Section Status.

Context {World : Type} {E : Environment World} {P : Probe World}.

Definition getConnectionStatus : M World ConnectionStatus :=
  tryCatch
    (acquire ;;
     connection <- getConnection ;;
     slot <- ask (getSlot connection) ;;
     fun s =>
       ret {| rpcConnected := (0 <? slot)%float;
              activeSubscriptions := List.length (subscriptions s);
              requestsInWindow := limiterRequests (world s);
              reportedMaxRequests :=
                RateLimiter.maxRequests configuredLimiter |} s)
    (fun _ s =>
       ret {| rpcConnected := false;
              activeSubscriptions := List.length (subscriptions s);
              requestsInWindow := 0;
              reportedMaxRequests := 0 |} s).

End Status.

(** ** A node with a running clock, behind the limiter of the service

    The world holds the time, the limiter and the answers of the node to
    [getSlot], one per call. Admission is [waitForAvailability] itself
    for a caller that is alone; a timer fires exactly on time. *)

Module Live.

Record World := mk {
  now : Z;
  limiter : RateLimiter.t;
  slotAnswers : list (result float)
}.

(** [await this.rateLimiter.waitForAvailability()]: the clock moves to
    the time of the admission. One re-entry is enough for a lone caller. *)
Definition admission (w : World) : World :=
  match
    RateLimiter.waitForAvailability (fun now waitTime => (now + waitTime)%Z)
      1 (now w) (limiter w)
  with
  | Some (admitted, rl) => mk admitted rl (slotAnswers w)
  | None => w
  end.

(** The whole milliseconds of a delay. *)
Definition milliseconds (ms : float) : Z :=
  match FloatOps.Prim2SF ms with
  | SpecFloat.S754_finite false m e => Z.shiftl (Z.pos m) e
  | _ => 0%Z
  end.

Definition answerSlot (w : World) : result float * World :=
  match slotAnswers w with
  | [] => (Ok 0%float, w)
  | a :: rest => (a, mk (now w) (limiter w) rest)
  end.

(** The node has nothing to report but its slot. *)
#[global] Instance environment : Environment World := {
  dateNow := fun w => (now w, w);
  mathRandom := fun w => (0%float, w);
  setTimeout :=
    fun ms w => mk (now w + milliseconds ms) (limiter w) (slotAnswers w);
  limiterWait := admission;
  isPublicKey := Script.decodesTo32Bytes;
  parseFloat := Script.parseDecimal;
  getSignaturesForAddress := fun _ _ _ w => (Ok [], w);
  getParsedTransaction := fun _ _ w => (Ok None, w);
  onAccountChange := fun _ _ w => (Ok 0%Z, w);
  removeAccountChangeListener := fun _ _ w => (Ok tt, w);
  fetchBalanceUpdates := fun w => (Ok [], w);
  insertTransaction := fun _ w => (Ok tt, w)
}.

#[global] Instance probe : Probe World := {
  getSlot := fun _ => answerSlot;
  limiterRequests :=
    fun w => Z.of_nat (List.length (RateLimiter.requests (limiter w)))
}.

Definition start (w : World) : State World := mkState w [] [] 0.

End Live.

(** ** The recent-transactions feed ([fetchRecentTransactions]) *)

Module Helius.

(** One element of [tx.tokenTransfers] or [tx.nativeTransfers]. *)
Record Transfer := mkTransfer {
  fromUserAccount : option string;
  amount : option float
}.

(** One element of the array the indexer answers with, as far as the
    function reads it. *)
Record Entry := mkEntry {
  signature : option string;
  timestamp : float;
  source : option string;
  fee : option float;
  tokenTransfers : option (list Transfer);
  nativeTransfers : option (list Transfer)
}.

(** The object the callback of [data.map] returns; [rowTimestamp] is the
    time value of the [Date], and [protocol] is whatever string the
    indexer names, lower-cased. *)
Record Row := mkRow {
  rowSignature : option string;
  rowTimestamp : float;
  rowWalletAddress : string;
  rowType : Direction;
  rowAmount : float;
  rowProtocol : string;
  rowPriceImpact : float;
  rowFee : float
}.

(** The response of [fetch]: [res.ok] and the outcome of [res.json()]. *)
Record Response := mkResponse {
  ok : bool;
  json : result (list Entry)
}.

(** A number is falsy when it is [0], [-0] or [NaN]. *)
Definition truthy (x : float) : bool :=
  negb (x =? 0)%float && (x =? x)%float.

(** [a || b] where [a] is a [number | undefined]. *)
Definition numberOr (a : option float) (b : float) : float :=
  match a with
  | Some x => if truthy x then x else b
  | None => b
  end.

(** [a || b] where [a] is a [string | undefined]. *)
Definition stringOr (a : option string) (b : string) : string :=
  match a with
  | Some x => if String.eqb x "" then b else x
  | None => b
  end.

(** [xs?.[0]?.field] for an optional array of transfers. *)
Definition firstOf {A : Type} (field : Transfer -> option A)
  (xs : option (list Transfer)) : option A :=
  match xs with
  | Some (t :: _) => field t
  | _ => None
  end.

Section Feed.

(** [String.prototype.toLowerCase]. *)
Variable toLowerCase : string -> string.

(** The callback of [data.map]. *)
Definition toRow (tokenAddress : string) (tx : Entry) : Row :=
  let protocol := stringOr (option_map toLowerCase (source tx)) "unknown" in
  let fee := numberOr (fee tx) 0 in
  let tokenFrom := firstOf fromUserAccount (tokenTransfers tx) in
  let nativeFrom := firstOf fromUserAccount (nativeTransfers tx) in
  let walletAddress := stringOr tokenFrom (stringOr nativeFrom "unknown") in
  let amount :=
    numberOr (firstOf amount (tokenTransfers tx))
      (numberOr (firstOf amount (nativeTransfers tx)) 0) in
  let type :=
    match tokenFrom with
    | Some from => if String.eqb from tokenAddress then Sell else Buy
    | None => Buy
    end in
  {| rowSignature := signature tx;
     rowTimestamp := Js.newDate (timestamp tx * 1000)%float;
     rowWalletAddress := walletAddress;
     rowType := type;
     rowAmount := amount;
     rowProtocol := protocol;
     rowPriceImpact := 0%float;
     rowFee := fee |}.

(** [fetchRecentTransactions], given how the [fetch] went. *)
Definition fetchRecentTransactions (tokenAddress : string)
  (fetched : result Response) : result (list Row) :=
  match fetched with
  | Throw e => Throw e
  | Ok res =>
      if negb (ok res) then Ok []
      else
        match json res with
        | Throw e => Throw e
        | Ok data => Ok (map (toRow tokenAddress) data)
        end
  end.

End Feed.

End Helius.

(** ** Vocabulary of the properties *)

(** The run [r], started after the events [t] were emitted. *)
Definition after {A S : Type} (t : list Event) (r : result A * S * list Event)
  : result A * S * list Event :=
  (outcome r, final r, t ++ events r).

(** The transactions handed to [dbManager.insertTransaction] in a trace. *)
Fixpoint stored (t : list Event) : list Transaction :=
  match t with
  | [] => []
  | EvInsertTransaction a :: rest => a :: stored rest
  | _ :: rest => stored rest
  end.

(** The account keys name at least one identifier of the set. *)
Definition intersects (keys ids : list string) : Prop :=
  exists k, In k keys /\ In k ids.

Definition jupiterIds : list string :=
  [ "JUP4Fb2cqiRUcaTHdrPC8h2gNsA2ETXiPDD33WcGuJB";
    "JUP6LkbZbjS1jKKwapdHNy74zcZ3tLUZoi5QNyVTaV4" ].

Definition raydiumIds : list string :=
  [ "675kPX9MHTjS2zt1qfr1NYHuzeLXfQM9H24wFSUt1Mp8";
    "5Q544fKrFoe6tsEbD7S8EmxGTJYAKtTVhAW5Q5pge4j1" ].

Definition orcaIds : list string :=
  [ "9W959DqEETiGZocYWCQPaJ6sBmUzgfxXfqGeTEdp3aQP";
    "DjVE6JNiYqPL2QXyCUUh8rNjHrbz9hXHNYt99MQ59qw1" ].

(** Every event a computation emits, from whatever state, satisfies [P]. *)
Definition emitsOnly {World A : Type} (P : Event -> Prop) (m : M World A)
  : Prop :=
  forall s, Forall P (events (m s)).

Definition isUpstreamCall (ev : Event) : bool :=
  match ev with
  | EvGetSignaturesForAddress _ _ _ | EvGetParsedTransaction _ _ => true
  | _ => false
  end.

Definition isSleep (ev : Event) : bool :=
  match ev with
  | EvSleep _ => true
  | _ => false
  end.

Definition isAcquire (ev : Event) : bool :=
  match ev with
  | EvAcquire => true
  | _ => false
  end.

Definition upstreamCalls (t : list Event) : nat :=
  List.length (filter isUpstreamCall t).

Definition sleeps (t : list Event) : nat :=
  List.length (filter isSleep t).

Definition acquires (t : list Event) : nat :=
  List.length (filter isAcquire t).

(** Each invocation of the operation issues exactly one upstream call and
    emits nothing else. *)
Definition singleCall {World A : Type} (operation : M World A) : Prop :=
  forall s, exists ev,
    events (operation s) = [ev] /\ isUpstreamCall ev = true.

(** Reading a trace with one permit at most: an acquire grants the
    permit, an upstream call needs it and uses it up. *)
Fixpoint gatedFrom (permit : bool) (t : list Event) : bool :=
  match t with
  | [] => true
  | ev :: rest =>
      if isAcquire ev then gatedFrom true rest
      else if isUpstreamCall ev then permit && gatedFrom false rest
      else gatedFrom permit rest
  end.

(** Every upstream call of the trace is preceded by an acquire of its
    own. *)
Definition gated (t : list Event) : bool := gatedFrom false t.

(** The calls of one [withRetry]: a call, then a sleep and a call per
    retry. *)
Inductive retrySequence : list Event -> Prop :=
| retry_last ev :
    isUpstreamCall ev = true -> retrySequence [ev]
| retry_more ev ms rest :
    isUpstreamCall ev = true ->
    retrySequence rest ->
    retrySequence (ev :: EvSleep ms :: rest).

(** Neither an acquire nor an upstream call. *)
Definition bystander (ev : Event) : Prop :=
  isAcquire ev = false /\ isUpstreamCall ev = false.

(** The analyses of the fetched transactions that are present and
    classify to a record, in order. *)
Definition classified (tokenMint addr : string)
  (fetched : list (option ParsedTransactionWithMeta)) : list Transaction :=
  flat_map
    (fun transaction =>
       match transaction with
       | Some tx =>
           match analyzeTransaction tokenMint tx addr with
           | Some analysis => [analysis]
           | None => []
           end
       | None => []
       end)
    fetched.

(** The fetches of the history loop alone: one acquire and one retried
    fetch per signature. *)
Fixpoint fetchAll {World : Type} {E : Environment World}
  (signatures : list ConfirmedSignatureInfo)
  : M World (list (option ParsedTransactionWithMeta)) :=
  match signatures with
  | [] => ret []
  | signatureInfo :: rest =>
      (acquire ;;
       transaction <-
         withRetry (fetchTransaction (infoSignature signatureInfo)) 3 1000 ;;
       others <- fetchAll rest ;;
       ret (transaction :: others))%async
  end.

Definition isFetchHolders (ev : Event) : bool :=
  match ev with
  | EvFetchHolders => true
  | _ => false
  end.

Definition holderFetches (t : list Event) : nat :=
  List.length (filter isFetchHolders t).

(** The next [n] readings of the clock all come before [deadline]. *)
Fixpoint readsBefore {World : Type} {E : Environment World} (deadline : Z)
  (n : nat) (w : World) : Prop :=
  match n with
  | O => True
  | S k =>
      (fst (dateNow w) < deadline)%Z
      /\ readsBefore deadline k (snd (dateNow w))
  end.

(** One call of [getTopTokenHolders] per limit, one after the other. *)
Fixpoint holderCalls {World : Type} {E : Environment World}
  (limits : list Z) : M World (list (list Wallet)) :=
  match limits with
  | [] => ret []
  | limit :: rest =>
      (answer <- getTopTokenHolders limit ;;
       answers <- holderCalls rest ;;
       ret (answer :: answers))%async
  end.

Definition isRemoveListener (ev : Event) : bool :=
  match ev with
  | EvRemoveListener _ _ => true
  | _ => false
  end.

Definition connectionEqb (c1 c2 : Connection) : bool :=
  match c1, c2 with
  | PoolConn i, PoolConn j => Nat.eqb i j
  | MainConn, MainConn => true
  | _, _ => false
  end.

(** The handle most recently opened for [addr] in a trace, or [before]
    when the trace opens none. *)
Fixpoint lastOpenedFrom (addr : string) (t : list Event)
  (before : option (Z * Connection)) : option (Z * Connection) :=
  match t with
  | [] => before
  | EvOnAccountChange c a id :: rest =>
      lastOpenedFrom addr rest
        (if String.eqb a addr then Some (id, c) else before)
  | _ :: rest => lastOpenedFrom addr rest before
  end.

(** The addresses a trace opens a subscription for, in order. *)
Fixpoint opened (t : list Event) : list string :=
  match t with
  | [] => []
  | EvOnAccountChange _ a _ :: rest => a :: opened rest
  | _ :: rest => opened rest
  end.

(** The handles that no removal request names: those of [held] and those
    the trace opens, without the ones the trace asks the node to remove.
    Only a removal closes a handle, so these are open after the trace
    whatever the node answered; a handle the trace asks to remove is
    closed if the node accepted the request. *)
Fixpoint unreleased (t : list Event)
  (held : list (string * (Z * Connection)))
  : list (string * (Z * Connection)) :=
  match t with
  | [] => held
  | EvOnAccountChange c a id :: rest =>
      unreleased rest (held ++ [(a, (id, c))])
  | EvRemoveListener c id :: rest =>
      unreleased rest
        (filter
           (fun h =>
              negb (Z.eqb (fst (snd h)) id && connectionEqb (snd (snd h)) c))
           held)
  | _ :: rest => unreleased rest held
  end.

(** The handles of [addr] among them. *)
Definition unreleasedFor (addr : string) (t : list Event)
  : list (string * (Z * Connection)) :=
  filter (fun h => String.eqb (fst h) addr) (unreleased t []).

(** How a run relates the table it found, the table it leaves and its
    trace: keys stay distinct, each address maps to the handle opened
    last for it (or to what it mapped to before), and no removal is
    asked for. *)
Definition follows {World : Type} (s s' : State World) (t : list Event)
  : Prop :=
  (NoDup (map fst (subscriptions s)) -> NoDup (map fst (subscriptions s')))
  /\ (forall addr,
        mapGet addr (subscriptions s')
        = lastOpenedFrom addr t (mapGet addr (subscriptions s)))
  /\ Forall (fun ev => isRemoveListener ev = false) t.

(** [m] does not look at the fields of the service: from two states
    around the same world it ends the same way, makes the same calls and
    leaves the same world. *)
Definition blind {World A : Type} (m : M World A) : Prop :=
  forall s s',
    world s = world s' ->
    outcome (m s) = outcome (m s')
    /\ events (m s) = events (m s')
    /\ world (final (m s)) = world (final (m s')).

(** Every run of [m] is in the relation. *)
Definition respects {World A : Type}
  (R : State World -> State World -> list Event -> Prop) (m : M World A)
  : Prop :=
  forall s, R s (final (m s)) (events (m s)).

Definition isInsertTransaction (ev : Event) : bool :=
  match ev with
  | EvInsertTransaction _ => true
  | _ => false
  end.

(** The admissions of [log] that fall in the window of length [window]
    that ends at [t]: later than [t - window], not later than [t]. *)
Definition grantedIn (t window : Z) (log : list Z) : nat :=
  List.length
    (filter
       (fun ts => RateLimiter.inWindow t window ts && (ts <=? t)%Z) log).

(** The durations of the sleeps of a trace, in order. *)
Fixpoint sleepDurations (t : list Event) : list float :=
  match t with
  | [] => []
  | EvSleep ms :: rest => ms :: sleepDurations rest
  | _ :: rest => sleepDurations rest
  end.

(** The durations are those of the back-off of [withRetry] from iteration
    [attempt] on: [baseDelay * 2^attempt] plus 1000 times an answer of
    [Math.random()], then the same for the next iteration. *)
Fixpoint backoffFrom {World : Type} {E : Environment World}
  (baseDelay : float) (attempt : nat) (durations : list float) : Prop :=
  match durations with
  | [] => True
  | d :: rest =>
      (exists w : World,
          d = (baseDelay * Js.pow2 attempt + fst (mathRandom w) * 1000)%float)
      /\ backoffFrom baseDelay (S attempt) rest
  end.

(** [a] is what [analyzeTransaction] makes of some transaction for the
    wallet [addr]. *)
Definition fromAnalysis (tokenMint addr : string) (a : Transaction) : Prop :=
  walletAddress a = addr
  /\ exists tx, analyzeTransaction tokenMint tx addr = Some a.

Definition isGetParsedTransaction (ev : Event) : bool :=
  match ev with
  | EvGetParsedTransaction _ _ => true
  | _ => false
  end.

(** [w] is the wallet the refresh makes of [entry]: its address, its
    parsed holding, and zeroes. *)
Definition converted {World : Type} {E : Environment World}
  (entry : BalanceUpdateEntry) (w : Wallet) : Prop :=
  address w = accountAddress entry
  /\ tokenBalance w
     = parseFloat
         match holding entry with
         | Some h => if String.eqb h "" then "0" else h
         | None => "0"
         end
  /\ solBalance w = 0%float
  /\ transactionCount w = 0%Z
  /\ totalVolume w = 0%float.

(** The world after the node was asked to remove each of the entries,
    one after the other, whatever it answered. *)
Definition afterRemovals {World : Type} {E : Environment World}
  (entries : list (string * (Z * Connection))) (w : World) : World :=
  fold_left
    (fun w' entry =>
       snd (removeAccountChangeListener (snd (snd entry)) (fst (snd entry))
              w'))
    entries w.

(** The event [unsubscribeAll] emits for an entry of the table. *)
Definition closing (entry : string * (Z * Connection)) : Event :=
  EvRemoveListener (snd (snd entry)) (fst (snd entry)).

(** The handle [h] is the one the entry tracks: same id on the same
    connection. *)
Definition sameHandle (h entry : string * (Z * Connection)) : bool :=
  Z.eqb (fst (snd h)) (fst (snd entry))
  && connectionEqb (snd (snd h)) (snd (snd entry)).

(** A number that is not [NaN] and, when it is zero, is [+0]: either
    truthy or the literal [0]. *)
Definition settled (x : float) : Prop :=
  Helius.truthy x = true \/ x = 0%float.

(** The sender of the first token transfer of the entry is the token
    address. *)
Definition sentByToken (tokenAddress : string) (tx : Helius.Entry) : Prop :=
  Helius.firstOf Helius.fromUserAccount (Helius.tokenTransfers tx)
  = Some tokenAddress.

(** [needle] occurs somewhere in [msg]. *)
Definition occursIn (needle msg : string) : Prop :=
  exists before behind, msg = (before ++ needle ++ behind)%string.

(** ** Scenarios *)

(** The configured mint ([TOKEN_MINT]) and a monitored wallet. *)
Definition TOKEN_MINT : string :=
  "9BB6NFEcjBCtnNLFko2FqVQBq8HHM13kCyYcdQbgpump".

Definition walletW : string :=
  "2MeVeEJzEeKkHvQFNcDv2AqJaicZ949NAf8YUQBJBbjP".

Definition balanceOfW (amount : float) : TokenBalance :=
  {| owner := Some walletW; mint := TOKEN_MINT; uiAmount := Some amount |}.

(** A transaction that moves the balance of [walletW] from [pre] to
    [post], paying 5000 lamports. *)
Definition transfer (pre post : float) : ParsedTransactionWithMeta :=
  {| signatures := ["sig1"];
     accountKeys := [walletW];
     meta := Some {| metaFee := 5000%float;
                     preTokenBalances := Some [balanceOfW pre];
                     postTokenBalances := Some [balanceOfW post] |};
     blockTime := Js.Number 1700000000%float |}.

(** [walletW] appears after the transaction only. *)
Definition firstReceipt (post : float) : ParsedTransactionWithMeta :=
  {| signatures := ["sig2"];
     accountKeys := [walletW];
     meta := Some {| metaFee := 5000%float;
                     preTokenBalances := None;
                     postTokenBalances := Some [balanceOfW post] |};
     blockTime := Js.Number 1700000000%float |}.

Definition tooManyRequests : JsError :=
  mkError (Some "429 Too Many Requests").

Definition connectionReset : JsError :=
  mkError (Some "read ECONNRESET").

(** A node that throttles the first [n] transaction fetches and then
    reports the transaction as unknown. *)
Definition throttled (n : nat) : Script.World :=
  Script.mk [] [] []
    (repeat (Throw tooManyRequests) n ++ [Ok None]) [] 1.

(** A node whose first transaction fetch fails for another reason. *)
Definition broken : Script.World :=
  Script.mk [] [] [] [Throw connectionReset; Ok None] [] 1.

(** A node that knows three signatures of the wallet: a purchase of 40, a
    transaction that leaves the balance alone, and one it cannot find. *)
Definition threeSignatures : Script.World :=
  Script.mk [] []
    [Ok [mkSignatureInfo "a"; mkSignatureInfo "b"; mkSignatureInfo "c"]]
    [Ok (Some (transfer 100 140)); Ok (Some (transfer 140 140)); Ok None]
    [] 1.

(** The same node, losing the connection on the second fetch. *)
Definition threeSignaturesBroken : Script.World :=
  Script.mk [] []
    [Ok [mkSignatureInfo "a"; mkSignatureInfo "b"; mkSignatureInfo "c"]]
    [Ok (Some (transfer 100 140)); Throw connectionReset]
    [] 1.

Definition holderA : BalanceUpdateEntry := mkEntry "holderA" (Some "12.5").

Definition holderB : BalanceUpdateEntry := mkEntry "holderB" (Some "7").

(** An endpoint that knows two holders; the clock is read at 1000 by the
    first call, twice per wallet while the answer is converted, and then
    at 5000 and at 29000. *)
Definition twoHolders : Script.World :=
  Script.mk [1000; 1001; 1002; 1003; 1004; 5000; 29000]%Z [] [] []
    [Ok [holderA; holderB]] 1.

(** An endpoint with nothing to report, asked at 1000 and at 2000. *)
Definition noHolders : Script.World :=
  Script.mk [1000; 2000]%Z [] [] [] [Ok []; Ok []] 1.

(** A node that knows five signatures of the wallet: a purchase of 40, an
    unchanged balance, a sale of 15, a transaction it cannot find and
    another unchanged balance. *)
Definition fiveSignatures : Script.World :=
  Script.mk [] []
    [Ok [mkSignatureInfo "a"; mkSignatureInfo "b"; mkSignatureInfo "c";
         mkSignatureInfo "d"; mkSignatureInfo "e"]]
    [Ok (Some (transfer 100 140)); Ok (Some (transfer 140 140));
     Ok (Some (transfer 140 125)); Ok None; Ok (Some (transfer 7 7))]
    [] 1.

(** Twenty addresses, the eighth of which is not a public key. *)
Definition twentyAddresses : list string :=
  [
    "7o6V5RZffMN8Ca28EJ5hK9KojfmQ9hNyGtd9RMz2MpXj";
    "389nTpaH6KWYnxmTsjKZvFJgZhMiKL2ro2nxhmxSNUG5";
    "5vv7d3QfUZ8qDDasjJw4WhYMs4hV2bMjLY7KdUkJvUWw";
    "3kq2aPFyecNKYeXuWkA8kEtiCWioP1Xnhskf8wcdmB5p";
    "6u71GyhpdZmauT4op6Wa1563Zh41W8YqnjXZa6LyyHi7";
    "ADK8LQ2ZoNb61A2hrADqVSgY2DmPZ9o5y6Dpftp6uo5e";
    "9tzzkyM8nnkQBBzQRPJx7nX4AnyBdRtAuHqbUmdJyKYE";
    "not-a-wallet";
    "Do6W61nBuf6qLZi3SzsXMkVyQxKsgwVdhk9kdWq2ssNi";
    "cw5RfgZj6eHB2yXDP8W37gKbbGhpJ7BVUXfd3S8KyRd";
    "8hdm95bXotEUczDaDZfGTBJboCXrUUgYcyZy5XXPCtFz";
    "5r7uSXsRNp3chS2MBDLAgMfHcXL52TVzoKwbCAzMjeMm";
    "Gw4NyTRtS8BwA7C86JauQb71mG4Kzz92wYcj3ZjupAxS";
    "G1Q8yYJ7EBX4qcRBdojeUCNLZhGRXdZv2L28RvwF8aUb";
    "ASsL93ceNQqysurYdudD5pYzmmLg9N1ep3mMQMuCgrVi";
    "4dyG8BQouau18RYpwq35fPABdFPewZpRnUnQLD62bj1b";
    "BZBMRM4VM1ha4u34YbcgiuASb2eHu1jwKQ1gK6kg6Y3Y";
    "HML4ftb31ZT2mz3cqsZeK1VW7g9WC8nYYKbjRpz8TxdE";
    "Hae2oAsqq3r734r3WRUFNzSvfknZYQDhEh8q1yf9LvBK";
    "2cabz7FzF6ZtCHAMDWRzz2m7681jpc7MDZgbQ2vrF9zE" ].

(** The node of [fiveSignatures], losing the connection on the second
    transaction. *)
Definition fiveSignaturesOneBroken : Script.World :=
  Script.mk [] []
    [Ok [mkSignatureInfo "a"; mkSignatureInfo "b"; mkSignatureInfo "c";
         mkSignatureInfo "d"; mkSignatureInfo "e"]]
    [Ok (Some (transfer 100 140)); Throw connectionReset;
     Ok (Some (transfer 140 125)); Ok None; Ok (Some (transfer 7 7))]
    [] 1.

(** A node that cannot list the signatures of the wallet. *)
Definition noSignatures : Script.World :=
  Script.mk [] [] [Throw connectionReset] [] [] 1.

(** [walletW] holds two token accounts of the mint: the first keeps its
    100 tokens, the second goes from 0 to 50. *)
Definition twoAccounts : ParsedTransactionWithMeta :=
  {| signatures := ["sig3"];
     accountKeys := [walletW];
     meta := Some {| metaFee := 5000%float;
                     preTokenBalances :=
                       Some [balanceOfW 100; balanceOfW 0];
                     postTokenBalances :=
                       Some [balanceOfW 100; balanceOfW 50] |};
     blockTime := Js.Number 1700000000%float |}.

(** The purchase of 40 in a transaction that carries no block time. *)
Definition undatedPurchase : ParsedTransactionWithMeta :=
  {| signatures := ["sig4"];
     accountKeys := [walletW];
     meta := Some {| metaFee := 5000%float;
                     preTokenBalances := Some [balanceOfW 100];
                     postTokenBalances := Some [balanceOfW 140] |};
     blockTime := Js.Undefined |}.

(** An endpoint that cannot be reached, asked at 1000. *)
Definition holdersUnreachable : Script.World :=
  Script.mk [1000]%Z [] [] [] [Throw connectionReset] 1.

(** Two entries of the indexer: a transfer of 12 tokens out of the
    monitored address through Raydium, and an entry with no token
    transfer, a token amount of 0 aside, that moves 3 lamports. *)
Definition heliusPage : list Helius.Entry :=
  [ Helius.mkEntry (Some "s1") 1700000000%float (Some "RAYDIUM")
      (Some 5000%float)
      (Some [Helius.mkTransfer (Some TOKEN_MINT) (Some 12%float)])
      None;
    Helius.mkEntry (Some "s2") 1700000001%float None None
      (Some [Helius.mkTransfer None (Some 0%float)])
      (Some [Helius.mkTransfer (Some "payer") (Some 3%float)]) ].

(** A node at time 5000 that reports its slot, then loses the connection,
    then reports slot 0. *)
Definition flakyNode : Live.World :=
  Live.mk 5000 configuredLimiter
    [Ok 250000000%float; Throw connectionReset; Ok 0%float].

(** A node at time 5000 that always reports slot 0. *)
Definition steadyNode : Live.World := Live.mk 5000 configuredLimiter [].

(** One call of [getConnectionStatus] after the other, [n] times. *)
Fixpoint statusCalls {World : Type} {E : Environment World}
  {P : Probe World} (n : nat) : M World (list ConnectionStatus) :=
  match n with
  | O => ret []
  | S k =>
      (status <- getConnectionStatus ;;
       statuses <- statusCalls k ;;
       ret (status :: statuses))%async
  end.

(** * Properties *)

(** ** Classification of balance deltas *)

Section ClassificationFacts.

Variable tokenMint : string.

Lemma findBalance_missing (balances : list TokenBalance) (addr : string) :
  Js.find (matchesWallet tokenMint addr) balances = None ->
  findBalance tokenMint balances addr = Some 0%float.
Proof.
  intros Hnone. unfold findBalance. now rewrite Hnone.
Qed.

Lemma findBalance_no_entry (addr : string) :
  findBalance tokenMint [] addr = Some 0%float.
Proof. reflexivity. Qed.

(** C1. Whenever the transaction carries its metadata and the computed
    balance delta (post minus pre) is not zero, [analyzeTransaction]
    yields a record whose direction is [Buy] exactly when the delta is
    greater than zero and [Sell] otherwise, and whose amount is the
    absolute value of the delta. *)
Theorem analyzeTransaction_direction_amount
  (tx : ParsedTransactionWithMeta) (addr : string)
  (m : ParsedTransactionMeta) :
  meta tx = Some m ->
  let delta :=
    calculateTokenBalanceChange tokenMint (orEmpty (preTokenBalances m))
      (orEmpty (postTokenBalances m)) addr in
  (delta =? 0)%float = false ->
  exists r,
    analyzeTransaction tokenMint tx addr = Some r
    /\ (type r = Buy <-> (0 <? delta)%float = true)
    /\ (type r = Sell <-> (0 <? delta)%float = false)
    /\ amount r = abs delta.
Proof.
  intros Hmeta delta Hnonzero.
  unfold analyzeTransaction. rewrite Hmeta. cbv zeta.
  fold delta. rewrite Hnonzero.
  eexists. split; [reflexivity|]. cbn [type amount].
  destruct (0 <? delta)%float; repeat split; intros; congruence.
Qed.

End ClassificationFacts.

(** The scenario of the specification: 100 before, 140 after. *)
Lemma analyzeTransaction_buy_40 :
  exists r,
    analyzeTransaction TOKEN_MINT (transfer 100 140) walletW = Some r
    /\ type r = Buy /\ amount r = 40%float.
Proof.
  destruct (analyzeTransaction_direction_amount TOKEN_MINT
              (transfer 100 140) walletW _ eq_refl eq_refl)
    as [r [Hr [Hbuy [_ Hamount]]]].
  exists r. split; [exact Hr|]. split.
  - apply Hbuy. reflexivity.
  - rewrite Hamount. reflexivity.
Defined.

Example analyzeTransaction_sell_40 :
  option_map (fun r => (type r, amount r, protocol r))
    (analyzeTransaction TOKEN_MINT (transfer 140 100) walletW)
  = Some (Sell, 40%float, Unknown).
Proof. reflexivity. Qed.

(** A wallet absent from both sides has delta [0 - 0]; absent before and
    present after with a positive balance, it bought. *)
Example absent_on_both_sides :
  analyzeTransaction TOKEN_MINT (transfer 100 140) "someone else" = None.
Proof. reflexivity. Qed.

Example absent_before_only :
  option_map (fun r => (type r, amount r))
    (analyzeTransaction TOKEN_MINT (firstReceipt 25) walletW)
  = Some (Buy, 25%float).
Proof. reflexivity. Qed.

(** ** Protocol classifier *)

Lemma arrayIncludes_In (xs : list string) (x : string) :
  Js.arrayIncludes xs x = true <-> In x xs.
Proof.
  unfold Js.arrayIncludes. rewrite existsb_exists. split.
  - intros [y [Hy Heq]]. apply String.eqb_eq in Heq. now subst.
  - intros Hin. exists x. split; [exact Hin | apply String.eqb_refl].
Qed.

Lemma touches_intersects (keys ids : list string) :
  touches keys ids = true <-> intersects keys ids.
Proof.
  unfold touches, intersects. rewrite existsb_exists.
  split; intros [k [Hk Hin]]; exists k; split; try exact Hk;
    now apply arrayIncludes_In.
Qed.

Lemma touches_disjoint (keys ids : list string) :
  touches keys ids = false <-> ~ intersects keys ids.
Proof.
  rewrite <- touches_intersects. destruct (touches keys ids); split;
    congruence.
Qed.

(** [detectIn] answers with the first row of the table that the keys
    touch. *)
Lemma detectIn_first (before after : list (Protocol * list string))
  (p : Protocol) (ids keys : list string) :
  Forall (fun row => ~ intersects keys (snd row)) before ->
  intersects keys ids ->
  detectIn (before ++ (p, ids) :: after) keys = p.
Proof.
  intros Hbefore Hhit. induction Hbefore as [|[q qids] rest Hq _ IH].
  - cbn. apply touches_intersects in Hhit. now rewrite Hhit.
  - cbn. cbn in Hq. apply touches_disjoint in Hq. now rewrite Hq.
Qed.

Lemma detectIn_none (table : list (Protocol * list string))
  (keys : list string) :
  Forall (fun row => ~ intersects keys (snd row)) table ->
  detectIn table keys = Unknown.
Proof.
  induction 1 as [|[q qids] rest Hq _ IH]; cbn; [reflexivity|].
  cbn in Hq. apply touches_disjoint in Hq. now rewrite Hq.
Qed.

(** C3. [detectProtocol] is a total function into the four tags. Keys
    that name a Jupiter identifier give [Jupiter], whatever else they
    name; keys that name no Jupiter identifier but a Raydium one give
    [Raydium]; keys that name neither but an Orca identifier give [Orca];
    keys that name none of the three sets give [Unknown]. *)
Theorem detectProtocol_first_in_table_order (keys : list string) :
  (exists! p, detectProtocol keys = p)
  /\ (intersects keys jupiterIds -> detectProtocol keys = Jupiter)
  /\ (~ intersects keys jupiterIds -> intersects keys raydiumIds ->
      detectProtocol keys = Raydium)
  /\ (~ intersects keys jupiterIds -> ~ intersects keys raydiumIds ->
      intersects keys orcaIds -> detectProtocol keys = Orca)
  /\ (~ intersects keys jupiterIds -> ~ intersects keys raydiumIds ->
      ~ intersects keys orcaIds -> detectProtocol keys = Unknown).
Proof.
  split.
  { exists (detectProtocol keys). split; [reflexivity | now intros]. }
  unfold detectProtocol, protocols. fold jupiterIds raydiumIds orcaIds.
  repeat split.
  - intros Hj. apply (detectIn_first [] _ Jupiter); [constructor | exact Hj].
  - intros Hj Hr.
    apply (detectIn_first [(Jupiter, jupiterIds)] _ Raydium);
      [repeat constructor; exact Hj | exact Hr].
  - intros Hj Hr Ho.
    apply (detectIn_first [(Jupiter, jupiterIds); (Raydium, raydiumIds)] []
             Orca);
      [repeat constructor; assumption | exact Ho].
  - intros Hj Hr Ho. apply detectIn_none. repeat constructor; assumption.
Qed.

(** A transaction that names a Raydium and a Jupiter program resolves to
    Jupiter, in whichever order its keys list them. *)
Lemma detectProtocol_jupiter_before_raydium :
  detectProtocol [ "675kPX9MHTjS2zt1qfr1NYHuzeLXfQM9H24wFSUt1Mp8";
                   "JUP6LkbZbjS1jKKwapdHNy74zcZ3tLUZoi5QNyVTaV4" ]
  = Jupiter.
Proof.
  apply (proj1 (proj2 (detectProtocol_first_in_table_order _))).
  exists "JUP6LkbZbjS1jKKwapdHNy74zcZ3tLUZoi5QNyVTaV4".
  split; cbn; auto.
Defined.

(** ** The rate limiter *)

Module RateLimiterFacts.

Import RateLimiter.

Lemma filter_later (window earlier later : Z) (l : list Z) :
  (earlier <= later)%Z ->
  filter (inWindow later window) (filter (inWindow earlier window) l)
  = filter (inWindow later window) l.
Proof.
  intros Hle. induction l as [|ts l IH]; cbn; [reflexivity|].
  destruct (inWindow earlier window ts) eqn:He; cbn; rewrite IH.
  - reflexivity.
  - destruct (inWindow later window ts) eqn:Hl; [|reflexivity].
    unfold inWindow in He, Hl.
    apply Z.ltb_lt in Hl. apply Z.ltb_ge in He. lia.
Qed.

Lemma attempt_fields (now : Z) (rl rl' : t) (o : Outcome) :
  attempt now rl = (o, rl') ->
  maxRequests rl' = maxRequests rl /\ timeWindow rl' = timeWindow rl.
Proof.
  unfold attempt, push. intros H.
  repeat match type of H with
         | context [if ?c then _ else _] => destruct c
         | context [match ?l with [] => _ | _ :: _ => _ end] => destruct l
         end; inversion H; subst; cbn; auto.
Qed.

(** An admission appends [now] to what the window kept. *)
Lemma attempt_granted (now : Z) (rl rl' : t) :
  attempt now rl = (Granted, rl') ->
  requests rl'
  = filter (inWindow now (timeWindow rl)) (requests rl) ++ [now].
Proof.
  unfold attempt, push. intros H.
  repeat match type of H with
         | context [if ?c then _ else _] => destruct c
         | context [match ?l with [] => _ | _ :: _ => _ end] =>
             destruct l eqn:?
         end; inversion H; subst; cbn; congruence.
Qed.

Lemma attempt_suspended (now w : Z) (rl rl' : t) :
  attempt now rl = (Suspended w, rl') ->
  requests rl' = filter (inWindow now (timeWindow rl)) (requests rl).
Proof.
  unfold attempt, push. intros H.
  repeat match type of H with
         | context [if ?c then _ else _] => destruct c
         | context [match ?l with [] => _ | _ :: _ => _ end] =>
             destruct l eqn:?
         end; inversion H; subst; cbn; congruence.
Qed.

(** With room for at least one request, an admission finds the window
    below capacity. *)
Lemma attempt_granted_room (now : Z) (rl rl' : t) :
  (1 <= maxRequests rl)%Z ->
  attempt now rl = (Granted, rl') ->
  (Z.of_nat (List.length
               (filter (inWindow now (timeWindow rl)) (requests rl)))
   < maxRequests rl)%Z.
Proof.
  unfold attempt. intros Hroom H.
  destruct (maxRequests rl <=? _)%Z eqn:Hfull.
  - destruct (filter (inWindow now (timeWindow rl)) (requests rl))
      as [|oldest kept] eqn:Hkept.
    + cbn in *. lia.
    + destruct (0 <? timeWindow rl - (now - oldest))%Z eqn:Hwait;
        [discriminate|].
      assert (Hin : In oldest (filter (inWindow now (timeWindow rl))
                                 (requests rl)))
        by (rewrite Hkept; now left).
      apply filter_In in Hin. destruct Hin as [_ Hin].
      unfold inWindow in Hin. apply Z.ltb_lt in Hin.
      apply Z.ltb_ge in Hwait. lia.
  - apply Z.leb_gt in Hfull. exact Hfull.
Qed.

Lemma attempt_consistent (now last : Z) (rl rl' : t) (log : list Z)
  (o : Outcome) :
  (last <= now)%Z ->
  consistent rl log last ->
  attempt now rl = (o, rl') ->
  consistent rl'
    (match o with Granted => log ++ [now] | Suspended _ => log end) now.
Proof.
  intros Hle [Hpast Hsame] Hatt.
  destruct (attempt_fields _ _ _ _ Hatt) as [_ Hw].
  assert (Hpast' : Forall (fun ts => (ts <= now)%Z) log).
  { eapply Forall_impl; [|exact Hpast]. cbn. intros. lia. }
  destruct o as [|w].
  - apply attempt_granted in Hatt. split.
    + apply Forall_app. split; [exact Hpast'|]. repeat constructor. lia.
    + intros t Ht. rewrite Hw, Hatt, !filter_app.
      rewrite filter_later by exact Ht.
      rewrite Hsame by lia. reflexivity.
  - apply attempt_suspended in Hatt. split; [exact Hpast'|].
    intros t Ht. rewrite Hw, Hatt.
    rewrite filter_later by exact Ht. apply Hsame. lia.
Qed.

Lemma run_fields (schedule : list Z) (rl : t) (log : list Z) :
  maxRequests (fst (run rl log schedule)) = maxRequests rl
  /\ timeWindow (fst (run rl log schedule)) = timeWindow rl.
Proof.
  revert rl log. induction schedule as [|now rest IH]; intros rl log; cbn;
    [auto|].
  destruct (attempt now rl) as [[|w] rl'] eqn:Hatt;
    destruct (attempt_fields _ _ _ _ Hatt) as [Hm Hw];
    rewrite <- Hm, <- Hw; apply IH.
Qed.

Lemma last_default (l : list Z) (t d d' : Z) :
  last (t :: l) d = last (t :: l) d'.
Proof.
  revert t. induction l as [|u l IH]; intros t; [reflexivity|].
  change (last (u :: l) d = last (u :: l) d'). apply IH.
Qed.

Lemma run_consistent (schedule : list Z) (from : Z) (rl : t)
  (log : list Z) :
  nondecreasing from schedule ->
  consistent rl log from ->
  consistent (fst (run rl log schedule)) (snd (run rl log schedule))
    (lastTurn from schedule).
Proof.
  revert from rl log.
  induction schedule as [|now rest IH]; intros from rl log Hmono Hcons.
  - exact Hcons.
  - destruct Hmono as [Hle Hrest].
    assert (Hlast : lastTurn from (now :: rest) = lastTurn now rest).
    { unfold lastTurn. destruct rest as [|t rest]; [reflexivity|].
      change (last (now :: t :: rest) from) with (last (t :: rest) from).
      apply last_default. }
    rewrite Hlast. cbn [run].
    destruct (attempt now rl) as [o rl'] eqn:Hatt.
    pose proof (attempt_consistent _ _ _ _ _ _ Hle Hcons Hatt) as Hstep.
    destruct o; apply IH; assumption.
Qed.

Lemma nondecreasing_app (from now : Z) (schedule : list Z) :
  nondecreasing from (schedule ++ [now]) ->
  nondecreasing from schedule /\ (lastTurn from schedule <= now)%Z.
Proof.
  revert from. induction schedule as [|t rest IH]; intros from; cbn.
  - intros [Hle _]. unfold lastTurn. cbn. auto.
  - intros [Hle Hrest]. destruct (IH _ Hrest) as [Hmono Hlast].
    split; [split; assumption|].
    unfold lastTurn in *. destruct rest as [|u rest]; [cbn in *; lia|].
    change (last (t :: u :: rest) from) with (last (u :: rest) from).
    now rewrite (last_default rest u from t).
Qed.

Lemma create_consistent (R W from : Z) : consistent (create R W) [] from.
Proof. split; [constructor | reflexivity]. Qed.

Lemma filter_length_snoc (p : Z -> bool) (l : list Z) (x : Z) :
  (List.length (filter p (l ++ [x])) <= S (List.length (filter p l)))%nat.
Proof.
  rewrite filter_app, length_app. cbn. destruct (p x); cbn; lia.
Qed.

(** C5. Take any schedule of turns in which time does not run backwards,
    played on a limiter built with [maxRequests >= 1], whichever callers
    the turns belong to. Whenever a turn at time [now] ends in an
    admission, at most [maxRequests] of all admissions granted so far,
    this one included, lie within the window that ends at [now], and the
    limiter's own list holds at most [maxRequests] timestamps. *)
Theorem limiter_window_bound (R W from now : Z) (schedule : list Z)
  (rl' : t) :
  (1 <= R)%Z ->
  nondecreasing from (schedule ++ [now]) ->
  attempt now (fst (run (create R W) [] schedule)) = (Granted, rl') ->
  (Z.of_nat
     (grantedWithin now W (snd (run (create R W) [] schedule) ++ [now]))
   <= R)%Z
  /\ (Z.of_nat (List.length (requests rl')) <= R)%Z.
Proof.
  intros Hroom Hmono Hgrant.
  apply nondecreasing_app in Hmono. destruct Hmono as [Hmono Hlast].
  pose proof (run_consistent schedule from _ _ Hmono
                (create_consistent R W from)) as [_ Hsame].
  destruct (run_fields schedule (create R W) []) as [Hmax Hwin].
  cbn in Hmax, Hwin.
  set (rl := fst (run (create R W) [] schedule)) in *.
  set (log := snd (run (create R W) [] schedule)) in *.
  pose proof (attempt_granted_room now rl rl') as Hbelow.
  rewrite Hmax, Hwin in Hbelow. specialize (Hbelow Hroom Hgrant).
  split.
  - unfold grantedWithin.
    pose proof (filter_length_snoc (inWindow now W) log now) as Hsnoc.
    specialize (Hsame now Hlast). rewrite Hwin in Hsame.
    rewrite <- Hsame in Hsnoc. lia.
  - rewrite (attempt_granted _ _ _ Hgrant), Hwin, length_app. cbn. lia.
Qed.

(** The configured limiter (8 per 1000 ms): eight admissions at time 0, a
    ninth and a tenth caller turned away at 0 and at 500, and the next
    turn at 1000. *)
Lemma limiter_window_bound_8_per_1000 :
  (Z.of_nat
     (grantedWithin 1000 1000
        (snd (run (create 8 1000) [] [0; 0; 0; 0; 0; 0; 0; 0; 0; 500])
         ++ [1000]))
   <= 8)%Z
  /\ (Z.of_nat
        (List.length
           (requests
              (snd (attempt 1000
                      (fst (run (create 8 1000) []
                              [0; 0; 0; 0; 0; 0; 0; 0; 0; 500]))))))
      <= 8)%Z.
Proof.
  apply (limiter_window_bound 8 1000 0 1000
           [0; 0; 0; 0; 0; 0; 0; 0; 0; 500]
           (snd (attempt 1000
                   (fst (run (create 8 1000) []
                           [0; 0; 0; 0; 0; 0; 0; 0; 0; 500])))))%Z.
  - lia.
  - cbn. lia.
  - reflexivity.
Defined.

(** A limiter built with no capacity admits all the same: with an empty
    list [requests[0]] is [undefined] and the wait is not a number. *)
Example zero_capacity_still_admits :
  fst (attempt 0 (create 0 1000)) = Granted.
Proof. reflexivity. Qed.

Example ninth_caller_waits :
  fst (attempt 0 (fst (run (create 8 1000) [] [0; 0; 0; 0; 0; 0; 0; 0])))%Z
  = Suspended 1000.
Proof. reflexivity. Qed.

(** A caller that waits alone is admitted when its timer fires: the wait
    lasts until the oldest kept request leaves the window. *)
Lemma waitForAvailability_alone (wake : Z -> Z -> Z) (now : Z) (rl : t) :
  (Z.of_nat (List.length (requests rl)) <= maxRequests rl)%Z ->
  (forall t w, (t + w <= wake t w)%Z) ->
  exists grantedAt rl',
    waitForAvailability wake 1 now rl = Some (grantedAt, rl').
Proof.
  intros Hlen Hwake. cbn [waitForAvailability].
  destruct (attempt now rl) as [[|w] rl1] eqn:Hfirst; [eauto|].
  destruct (attempt (wake now w) rl1) as [[|w2] rl2] eqn:Hsecond; [eauto|].
  exfalso.
  pose proof (attempt_suspended _ _ _ _ Hfirst) as Hkept.
  destruct (attempt_fields _ _ _ _ Hfirst) as [Hm Hw].
  unfold attempt in Hfirst, Hsecond.
  set (kept := filter (inWindow now (timeWindow rl)) (requests rl)) in *.
  assert (Hkeptlen : (List.length kept <= List.length (requests rl))%nat)
    by apply filter_length_le.
  destruct (maxRequests rl <=? Z.of_nat (List.length kept))%Z;
    [|discriminate].
  destruct kept as [|oldest others] eqn:Hk; [discriminate|].
  destruct (0 <? timeWindow rl - (now - oldest))%Z; [|discriminate].
  inversion Hfirst; subst w. clear Hfirst.
  rewrite Hkept, Hm, Hw in Hsecond.
  set (later := wake now (timeWindow rl - (now - oldest))%Z) in *.
  assert (Hgone : inWindow later (timeWindow rl) oldest = false).
  { unfold inWindow. apply Z.ltb_ge.
    pose proof (Hwake now (timeWindow rl - (now - oldest))%Z).
    fold later in H. lia. }
  cbn [filter] in Hsecond. rewrite Hgone in Hsecond.
  pose proof (filter_length_le (inWindow later (timeWindow rl)) others)
    as Hothers.
  cbn [List.length] in Hkeptlen.
  destruct (maxRequests rl <=? _)%Z eqn:Hfull in Hsecond;
    [|discriminate].
  apply Z.leb_le in Hfull. lia.
Qed.

End RateLimiterFacts.

(** ** Computations and their traces *)

Section TraceFacts.

Context {World : Type} {E : Environment World}.

Lemma bind_run {A B : Type} (m : M World A) (f : A -> M World B)
  (s : State World) :
  bind m f s
  = match m s with
    | (Ok a, s1, t1) =>
        (outcome (f a s1), final (f a s1), t1 ++ events (f a s1))
    | (Throw e, s1, t1) => (Throw e, s1, t1)
    end.
Proof.
  unfold bind. destruct (m s) as [[[a|e] s1] t1]; [|reflexivity].
  now destruct (f a s1) as [[r s2] t2].
Qed.

Lemma tryCatch_run {A : Type} (m : M World A) (h : JsError -> M World A)
  (s : State World) :
  tryCatch m h s
  = match m s with
    | (Ok a, s1, t1) => (Ok a, s1, t1)
    | (Throw e, s1, t1) =>
        (outcome (h e s1), final (h e s1), t1 ++ events (h e s1))
    end.
Proof.
  unfold tryCatch. destruct (m s) as [[[a|e] s1] t1]; [reflexivity|].
  now destruct (h e s1) as [[r s2] t2].
Qed.

Lemma bind_ok {A B : Type} (m : M World A) (f : A -> M World B)
  (s s1 : State World) (a : A) (t1 : list Event) :
  m s = (Ok a, s1, t1) -> bind m f s = after t1 (f a s1).
Proof.
  intros Hm. unfold bind, after, outcome, final, events. rewrite Hm.
  now destruct (f a s1) as [[r s2] t2].
Qed.

Lemma emitsOnly_ret {A : Type} (P : Event -> Prop) (a : A) :
  emitsOnly P (ret a : M World A).
Proof. intros s. constructor. Qed.

Lemma emitsOnly_throw {A : Type} (P : Event -> Prop) (e : JsError) :
  emitsOnly P (throw e : M World A).
Proof. intros s. constructor. Qed.

Lemma emitsOnly_emit (P : Event -> Prop) (ev : Event) :
  P ev -> emitsOnly P (emit ev : M World unit).
Proof. intros H s. cbn. auto. Qed.

Lemma emitsOnly_inWorld {A : Type} (P : Event -> Prop)
  (f : World -> A * World) :
  emitsOnly P (inWorld f).
Proof. intros s. unfold inWorld. destruct (f (world s)). constructor. Qed.

Lemma emitsOnly_bind {A B : Type} (P : Event -> Prop) (m : M World A)
  (f : A -> M World B) :
  emitsOnly P m -> (forall a, emitsOnly P (f a)) -> emitsOnly P (bind m f).
Proof.
  intros Hm Hf s. rewrite bind_run. specialize (Hm s).
  destruct (m s) as [[[a|e] s1] t1]; cbn in *; [|exact Hm].
  apply Forall_app. split; [exact Hm | apply Hf].
Qed.

Lemma emitsOnly_tryCatch {A : Type} (P : Event -> Prop) (m : M World A)
  (h : JsError -> M World A) :
  emitsOnly P m -> (forall e, emitsOnly P (h e)) ->
  emitsOnly P (tryCatch m h).
Proof.
  intros Hm Hh s. rewrite tryCatch_run. specialize (Hm s).
  destruct (m s) as [[[a|e] s1] t1]; cbn in *; [exact Hm|].
  apply Forall_app. split; [exact Hm | apply Hh].
Qed.

Lemma emitsOnly_ask {A : Type} (P : Event -> Prop)
  (f : World -> result A * World) :
  emitsOnly P (ask f).
Proof.
  apply emitsOnly_bind; [apply emitsOnly_inWorld|].
  intros [a|e]; [apply emitsOnly_ret | apply emitsOnly_throw].
Qed.

Lemma emitsOnly_forEach {A : Type} (P : Event -> Prop)
  (body : A -> M World unit) (xs : list A) :
  (forall x, emitsOnly P (body x)) -> emitsOnly P (forEach body xs).
Proof.
  intros Hbody. induction xs as [|x xs IH]; cbn [forEach].
  - apply emitsOnly_ret.
  - apply emitsOnly_bind; [apply Hbody | intros _; exact IH].
Qed.

Lemma emitsOnly_sleep (P : Event -> Prop) (ms : float) :
  P (EvSleep ms) -> emitsOnly P (sleep ms).
Proof.
  intros H. apply emitsOnly_bind; [now apply emitsOnly_emit|].
  intros _. apply emitsOnly_inWorld.
Qed.

Lemma emitsOnly_acquire (P : Event -> Prop) :
  P EvAcquire -> emitsOnly P acquire.
Proof.
  intros H. apply emitsOnly_bind; [apply emitsOnly_inWorld|].
  intros _. now apply emitsOnly_emit.
Qed.

Lemma emitsOnly_getConnection (P : Event -> Prop) :
  emitsOnly P getConnection.
Proof.
  apply emitsOnly_bind; [apply emitsOnly_inWorld|].
  intros r. apply emitsOnly_ret.
Qed.

Lemma emitsOnly_newPublicKey (P : Event -> Prop) (addr : string) :
  emitsOnly P (newPublicKey addr).
Proof.
  unfold newPublicKey.
  destruct (isPublicKey addr); [apply emitsOnly_ret | apply emitsOnly_throw].
Qed.

Lemma emitsOnly_retryLoop {A : Type} (P : Event -> Prop)
  (operation : M World A) (baseDelay : float) (remaining attempt : nat) :
  (forall ms, P (EvSleep ms)) ->
  emitsOnly P operation ->
  emitsOnly P (retryLoop operation baseDelay remaining attempt).
Proof.
  intros Hsleep Hop. revert attempt.
  induction remaining as [|n IH]; intros attempt; cbn [retryLoop];
    apply emitsOnly_tryCatch; try exact Hop; intros e.
  - apply emitsOnly_throw.
  - destruct (isRateLimitError e); [|apply emitsOnly_throw].
    apply emitsOnly_bind; [apply emitsOnly_inWorld|]. intros r.
    apply emitsOnly_bind; [apply emitsOnly_sleep, Hsleep|]. intros _.
    apply IH.
Qed.

End TraceFacts.

Create HintDb emits.

#[export] Hint Resolve emitsOnly_ret emitsOnly_throw emitsOnly_emit
  emitsOnly_inWorld emitsOnly_ask emitsOnly_sleep emitsOnly_acquire
  emitsOnly_getConnection emitsOnly_newPublicKey : emits.

(** ** The retry helper *)

Section RetryFacts.

Context {World : Type} {E : Environment World}.

Lemma upstreamCalls_app (t1 t2 : list Event) :
  upstreamCalls (t1 ++ t2) = upstreamCalls t1 + upstreamCalls t2.
Proof. unfold upstreamCalls. now rewrite filter_app, length_app. Qed.

Lemma sleeps_app (t1 t2 : list Event) :
  sleeps (t1 ++ t2) = sleeps t1 + sleeps t2.
Proof. unfold sleeps. now rewrite filter_app, length_app. Qed.

Lemma acquires_app (t1 t2 : list Event) :
  acquires (t1 ++ t2) = acquires t1 + acquires t2.
Proof. unfold acquires. now rewrite filter_app, length_app. Qed.

(** The back-off between two attempts: one random draw, one sleep. *)
Lemma backoff_run {A : Type} (delay : float -> float) (k : M World A)
  (s : State World) :
  exists r s',
    (x <- inWorld mathRandom ;; sleep (delay x) ;; k)%async s
    = after [EvSleep (delay r)] (k s').
Proof.
  destruct (mathRandom (world s)) as [r w] eqn:Hr.
  exists r,
    (mkState (setTimeout (delay r) w) (subscriptions s) (topHoldersCache s)
       (lastTopHolderFetch s)).
  unfold sleep, emit, inWorld, bind, after, outcome, final, events.
  rewrite Hr. cbn.
  destruct (k _) as [[res s2] t2]. reflexivity.
Qed.

Lemma retryLoop_success {A : Type} (operation : M World A)
  (baseDelay : float) (remaining attempt : nat) (s s1 : State World)
  (v : A) (t1 : list Event) :
  operation s = (Ok v, s1, t1) ->
  retryLoop operation baseDelay remaining attempt s = (Ok v, s1, t1).
Proof.
  intros Hop. destruct remaining; cbn [retryLoop];
    rewrite tryCatch_run, Hop; reflexivity.
Qed.

Lemma retryLoop_other_error {A : Type} (operation : M World A)
  (baseDelay : float) (remaining attempt : nat) (s s1 : State World)
  (e : JsError) (t1 : list Event) :
  operation s = (Throw e, s1, t1) ->
  isRateLimitError e = false ->
  retryLoop operation baseDelay remaining attempt s = (Throw e, s1, t1).
Proof.
  intros Hop Hother. destruct remaining; cbn [retryLoop];
    rewrite tryCatch_run, Hop; [|rewrite Hother]; cbn;
    now rewrite app_nil_r.
Qed.

Lemma retryLoop_last_attempt {A : Type} (operation : M World A)
  (baseDelay : float) (attempt : nat) (s : State World) :
  retryLoop operation baseDelay 0 attempt s = operation s.
Proof.
  cbn [retryLoop]. rewrite tryCatch_run.
  destruct (operation s) as [[[v|e] s1] t1]; [reflexivity|].
  cbn. now rewrite app_nil_r.
Qed.

Lemma retryLoop_rate_limited {A : Type} (operation : M World A)
  (baseDelay : float) (remaining attempt : nat) (s s1 : State World)
  (e : JsError) (t1 : list Event) :
  operation s = (Throw e, s1, t1) ->
  isRateLimitError e = true ->
  retryLoop operation baseDelay (S remaining) attempt s
  = after t1
      ((r <- inWorld mathRandom ;;
        sleep (baseDelay * Js.pow2 attempt + r * 1000)%float ;;
        retryLoop operation baseDelay remaining (S attempt))%async s1).
Proof.
  intros Hop Hlimit. cbn [retryLoop].
  rewrite tryCatch_run, Hop, Hlimit. reflexivity.
Qed.

Lemma retryLoop_calls {A : Type} (operation : M World A)
  (baseDelay : float) :
  singleCall operation ->
  forall remaining attempt s,
    let t := events (retryLoop operation baseDelay remaining attempt s) in
    1 <= upstreamCalls t <= S remaining
    /\ S (sleeps t) = upstreamCalls t.
Proof.
  intros Hsingle. induction remaining as [|n IH]; intros attempt s.
  - rewrite retryLoop_last_attempt. cbv zeta.
    destruct (Hsingle s) as [ev [Hev Hcall]]. rewrite Hev.
    unfold upstreamCalls, sleeps. cbn. rewrite Hcall.
    destruct ev; try discriminate; cbn; lia.
  - cbv zeta. destruct (Hsingle s) as [ev [Hev Hcall]].
    assert (Hone : upstreamCalls [ev] = 1 /\ sleeps [ev] = 0).
    { unfold upstreamCalls, sleeps. cbn. rewrite Hcall.
      destruct ev; try discriminate; cbn; auto. }
    destruct (operation s) as [[[v|e] s1] t1] eqn:Hop; cbn in Hev; subst t1.
    + rewrite (retryLoop_success _ _ _ _ _ _ _ _ Hop). cbn [events snd].
      lia.
    + destruct (isRateLimitError e) eqn:Hlimit.
      * rewrite (retryLoop_rate_limited _ _ _ _ _ _ _ _ Hop Hlimit).
        destruct (backoff_run
                    (fun r => (baseDelay * Js.pow2 attempt + r * 1000)%float)
                    (retryLoop operation baseDelay n (S attempt)) s1)
          as [r [s' Hrun]].
        rewrite Hrun. unfold after. cbn [events snd].
        specialize (IH (S attempt) s'). cbv zeta in IH.
        rewrite !upstreamCalls_app, !sleeps_app.
        change (upstreamCalls [EvSleep (baseDelay * Js.pow2 attempt
                                        + r * 1000)%float]) with 0.
        change (sleeps [EvSleep (baseDelay * Js.pow2 attempt
                                 + r * 1000)%float]) with 1.
        lia.
      * rewrite (retryLoop_other_error _ _ _ _ _ _ _ _ Hop Hlimit).
        cbn [events snd]. lia.
Qed.

(** An operation that is throttled every time is tried [remaining + 1]
    times, and its error is what the caller gets. *)
Lemma retryLoop_exhausted {A : Type} (operation : M World A)
  (baseDelay : float) (e : JsError) :
  singleCall operation ->
  isRateLimitError e = true ->
  (forall s, outcome (operation s) = Throw e) ->
  forall remaining attempt s,
    let r := retryLoop operation baseDelay remaining attempt s in
    outcome r = Throw e /\ upstreamCalls (events r) = S remaining.
Proof.
  intros Hsingle Hlimit Hthrows.
  induction remaining as [|n IH]; intros attempt s; cbv zeta.
  - rewrite retryLoop_last_attempt. split; [apply Hthrows|].
    destruct (Hsingle s) as [ev [Hev Hcall]]. rewrite Hev.
    unfold upstreamCalls. cbn. now rewrite Hcall.
  - destruct (Hsingle s) as [ev [Hev Hcall]].
    pose proof (Hthrows s) as Hout.
    destruct (operation s) as [[[v|e'] s1] t1] eqn:Hop; cbn in Hout, Hev;
      [discriminate|]. inversion Hout; subst e' t1.
    rewrite (retryLoop_rate_limited _ _ _ _ _ _ _ _ Hop Hlimit).
    destruct (backoff_run
                (fun r => (baseDelay * Js.pow2 attempt + r * 1000)%float)
                (retryLoop operation baseDelay n (S attempt)) s1)
      as [r [s' Hrun]].
    rewrite Hrun. unfold after. cbn [outcome events fst snd].
    destruct (IH (S attempt) s') as [Hthrow Hcount].
    split; [exact Hthrow|].
    rewrite !upstreamCalls_app, Hcount.
    unfold upstreamCalls at 1 2. cbn. now rewrite Hcall.
Qed.

(** Whatever [retryLoop] raises was thrown by the operation. *)
Lemma retryLoop_raises_operation_error {A : Type} (operation : M World A)
  (baseDelay : float) (e : JsError) :
  forall remaining attempt s,
    outcome (retryLoop operation baseDelay remaining attempt s) = Throw e ->
    exists s', outcome (operation s') = Throw e.
Proof.
  induction remaining as [|n IH]; intros attempt s.
  - rewrite retryLoop_last_attempt. eauto.
  - destruct (operation s) as [[[v|e'] s1] t1] eqn:Hop.
    + rewrite (retryLoop_success _ _ _ _ _ _ _ _ Hop). discriminate.
    + destruct (isRateLimitError e') eqn:Hlimit.
      * rewrite (retryLoop_rate_limited _ _ _ _ _ _ _ _ Hop Hlimit).
        destruct (backoff_run
                    (fun r => (baseDelay * Js.pow2 attempt + r * 1000)%float)
                    (retryLoop operation baseDelay n (S attempt)) s1)
          as [r [s' Hrun]].
        rewrite Hrun. unfold after. cbn [outcome fst]. apply IH.
      * rewrite (retryLoop_other_error _ _ _ _ _ _ _ _ Hop Hlimit).
        cbn. intros H. inversion H; subst. exists s. now rewrite Hop.
Qed.

End RetryFacts.

Section RetryContract.

Context {World : Type} {E : Environment World}.

Lemma fetchTransaction_singleCall (sig : string) :
  singleCall (fetchTransaction sig : M World _).
Proof.
  intros s. unfold fetchTransaction, getConnection, ask, inWorld, emit, bind,
    ret, throw, events.
  destruct (mathRandom (world s)) as [r w]. cbn.
  destruct (getParsedTransaction (pickConnection r) sig w) as [[v|e] w'];
    cbn; eexists; split; reflexivity.
Qed.


End RetryContract.

Example rate_limit_markers :
  isRateLimitError tooManyRequests = true
  /\ isRateLimitError (mkError (Some "HTTP 429")) = true
  /\ isRateLimitError connectionReset = false
  /\ isRateLimitError (mkError None) = false.
Proof. repeat split. Qed.


(** Throttled every time: four calls, three sleeps of 1, 2 and 4 seconds
    (the scripted jitter is 0), and the error is raised. *)
Example withRetry_gives_up_after_three_retries :
  outcome (withRetry (fetchTransaction "sig1") 3 1000
             (Script.start (throttled 4)))
  = Throw tooManyRequests
  /\ events (withRetry (fetchTransaction "sig1") 3 1000
               (Script.start (throttled 4)))
     = [ EvGetParsedTransaction (PoolConn 0) "sig1"; EvSleep 1000;
         EvGetParsedTransaction (PoolConn 0) "sig1"; EvSleep 2000;
         EvGetParsedTransaction (PoolConn 0) "sig1"; EvSleep 4000;
         EvGetParsedTransaction (PoolConn 0) "sig1" ].
Proof. split; reflexivity. Qed.

Example withRetry_recovers_after_two_retries :
  outcome (withRetry (fetchTransaction "sig1") 3 1000
             (Script.start (throttled 2)))
  = Ok None
  /\ upstreamCalls
       (events (withRetry (fetchTransaction "sig1") 3 1000
                  (Script.start (throttled 2))))
     = 3.
Proof. split; reflexivity. Qed.

(** ** Admission and retries *)

Section AdmissionFacts.

Context {World : Type} {E : Environment World}.

Variable tokenMint : string.

Lemma acquire_run (s : State World) :
  acquire s
  = (Ok tt,
     mkState (limiterWait (world s)) (subscriptions s) (topHoldersCache s)
       (lastTopHolderFetch s),
     [EvAcquire]).
Proof. reflexivity. Qed.

Lemma retryLoop_sequence {A : Type} (operation : M World A)
  (baseDelay : float) :
  singleCall operation ->
  forall remaining attempt s,
    retrySequence (events (retryLoop operation baseDelay remaining attempt s)).
Proof.
  intros Hsingle. induction remaining as [|n IH]; intros attempt s.
  - rewrite retryLoop_last_attempt.
    destruct (Hsingle s) as [ev [-> Hcall]]. now constructor.
  - destruct (Hsingle s) as [ev [Hev Hcall]].
    destruct (operation s) as [[[v|e] s1] t1] eqn:Hop; cbn in Hev; subst t1.
    + rewrite (retryLoop_success _ _ _ _ _ _ _ _ Hop). now constructor.
    + destruct (isRateLimitError e) eqn:Hlimit.
      * rewrite (retryLoop_rate_limited _ _ _ _ _ _ _ _ Hop Hlimit).
        destruct (backoff_run
                    (fun r => (baseDelay * Js.pow2 attempt + r * 1000)%float)
                    (retryLoop operation baseDelay n (S attempt)) s1)
          as [r [s' Hrun]].
        rewrite Hrun. unfold after. cbn [events snd app].
        constructor; [exact Hcall | apply IH].
      * rewrite (retryLoop_other_error _ _ _ _ _ _ _ _ Hop Hlimit).
        now constructor.
Qed.

Lemma gatedFrom_bystanders (permit : bool) (t : list Event) :
  Forall bystander t -> gatedFrom permit t = true.
Proof.
  induction 1 as [|ev t [Ha Hc] _ IH]; cbn [gatedFrom]; [reflexivity|].
  now rewrite Ha, Hc.
Qed.

Lemma upstreamCalls_bystanders (t : list Event) :
  Forall bystander t -> upstreamCalls t = 0.
Proof.
  unfold upstreamCalls.
  induction 1 as [|ev t [Ha Hc] _ IH]; cbn [filter]; [reflexivity|].
  now rewrite Hc.
Qed.

Lemma upstream_call_not_acquire (ev : Event) :
  isUpstreamCall ev = true -> isAcquire ev = false.
Proof. destruct ev; cbn; congruence. Qed.

Lemma retrySequence_calls (t : list Event) :
  retrySequence t -> 1 <= upstreamCalls t.
Proof.
  unfold upstreamCalls.
  induction 1 as [ev Hcall | ev ms rest Hcall _ IH]; cbn [filter];
    rewrite Hcall; cbn; lia.
Qed.

(** With the permit of one acquire, a retry sequence passes exactly when
    it holds a single call. *)
Lemma retrySequence_gated (calls rest : list Event) :
  retrySequence calls ->
  Forall bystander rest ->
  gatedFrom true (calls ++ rest) = true <-> upstreamCalls calls = 1.
Proof.
  intros Hseq Hrest. destruct Hseq as [ev Hcall | ev ms more Hcall Hmore].
  - cbn [app gatedFrom].
    rewrite (upstream_call_not_acquire _ Hcall), Hcall.
    rewrite (gatedFrom_bystanders _ _ Hrest).
    unfold upstreamCalls. cbn [filter]. rewrite Hcall. cbn. tauto.
  - cbn [app gatedFrom].
    rewrite (upstream_call_not_acquire _ Hcall), Hcall.
    change (isAcquire (EvSleep ms)) with false.
    change (isUpstreamCall (EvSleep ms)) with false. cbn match.
    pose proof (retrySequence_calls _ Hmore) as Hcount.
    assert (Hblocked : gatedFrom false (more ++ rest) = false).
    { destruct Hmore as [ev' Hcall' | ev' ms' more' Hcall' _];
        cbn [app gatedFrom];
        now rewrite (upstream_call_not_acquire _ Hcall'), Hcall'. }
    rewrite Hblocked.
    unfold upstreamCalls in *. cbn [filter]. rewrite Hcall.
    change (isUpstreamCall (EvSleep ms)) with false. cbn [List.length].
    split; [discriminate | lia].
Qed.

Lemma classifyAndStore_bystanders (addr : string)
  (transaction : option ParsedTransactionWithMeta) :
  emitsOnly bystander (classifyAndStore tokenMint addr transaction).
Proof.
  unfold classifyAndStore. destruct transaction as [tx|]; auto with emits.
  destruct (analyzeTransaction tokenMint tx addr) as [analysis|];
    auto with emits.
  unfold storeTransaction. apply emitsOnly_bind.
  - apply emitsOnly_emit. now split.
  - intros _. apply emitsOnly_ask.
Qed.

Lemma acquires_none (t : list Event) :
  Forall (fun ev => isAcquire ev = false) t -> acquires t = 0.
Proof.
  unfold acquires. induction 1 as [|ev t Hev _ IH]; cbn [filter];
    [reflexivity|]. now rewrite Hev.
Qed.

Lemma fetchTransaction_no_acquire (sig : string) :
  emitsOnly (fun ev => isAcquire ev = false)
    (fetchTransaction sig : M World _).
Proof.
  unfold fetchTransaction. apply emitsOnly_bind; auto with emits.
  intros c. apply emitsOnly_bind; auto with emits.
Qed.

Lemma fetchSignatures_no_acquire (addr : string) (limit : Z) :
  emitsOnly (fun ev => isAcquire ev = false)
    (fetchSignatures addr limit : M World _).
Proof.
  unfold fetchSignatures. apply emitsOnly_bind; auto with emits.
  intros c. apply emitsOnly_bind; auto with emits.
  intros _. apply emitsOnly_bind; auto with emits.
Qed.

(** C6, as the code has it. [processTransaction] acquires admission once,
    before the first upstream call; the calls that follow are those of one
    retry sequence, each re-issued call preceded by the back-off sleep and
    by no acquire; what comes after is neither an acquire nor an upstream
    call. So its upstream calls are gated one by one exactly when no retry
    takes place. The same holds for the two other users of the helper:
    [withRetry] around either upstream closure emits no acquire at all. *)
Theorem processTransaction_acquires_once
  (signatureInfo : ConfirmedSignatureInfo) (addr : string)
  (s : State World) :
  (exists calls rest,
      events (processTransaction tokenMint signatureInfo addr s)
      = EvAcquire :: calls ++ rest
      /\ retrySequence calls
      /\ Forall bystander rest
      /\ (gated (events (processTransaction tokenMint signatureInfo addr s))
          = true
          <-> upstreamCalls calls = 1))
  /\ (forall sig maxRetries baseDelay,
        acquires
          (events (withRetry (fetchTransaction sig) maxRetries baseDelay s))
        = 0)
  /\ (forall limit maxRetries baseDelay,
        acquires
          (events (withRetry (fetchSignatures addr limit) maxRetries
                     baseDelay s))
        = 0).
Proof.
  split; [|split; intros; apply acquires_none; unfold withRetry;
           apply emitsOnly_retryLoop;
           auto using fetchTransaction_no_acquire,
             fetchSignatures_no_acquire].
  assert (Hshape : exists calls rest,
             events (processTransaction tokenMint signatureInfo addr s)
             = EvAcquire :: calls ++ rest
             /\ retrySequence calls /\ Forall bystander rest).
  { unfold processTransaction. rewrite tryCatch_run, bind_run, acquire_run.
    set (s0 := mkState _ _ _ _). rewrite bind_run.
    pose proof (retryLoop_sequence
                  (fetchTransaction (infoSignature signatureInfo)) 1000
                  (fetchTransaction_singleCall _) 3 0 s0) as Hseq.
    unfold withRetry.
    destruct (retryLoop _ _ _ _ s0) as [[[tx|e] s1] calls]; cbn in Hseq.
    - pose proof (classifyAndStore_bystanders addr tx s1) as Hrest.
      destruct (classifyAndStore tokenMint addr tx s1) as [[[u|e] s2] rest];
        cbn in Hrest |- *.
      + exists calls, rest. auto.
      + exists calls, (rest ++ [EvConsoleError]). rewrite <- app_assoc.
        repeat split; auto.
        apply Forall_app. split; [exact Hrest|]. repeat constructor.
    - cbn. exists calls, [EvConsoleError]. repeat split; auto.
      repeat constructor. }
  destruct Hshape as [calls [rest [Hev [Hseq Hrest]]]].
  exists calls, rest. repeat split; try assumption.
  - rewrite Hev. unfold gated. cbn. intros Hg.
    now apply (retrySequence_gated calls rest Hseq Hrest).
  - rewrite Hev. unfold gated. cbn. intros Hone.
    now apply (retrySequence_gated calls rest Hseq Hrest).
Qed.

End AdmissionFacts.

(** The retry after one throttled fetch goes out with no acquire of its
    own: the statement of C6 fails on this run. *)
Lemma retry_goes_out_without_acquire :
  events (processTransaction TOKEN_MINT (mkSignatureInfo "sig1") walletW
            (Script.start (throttled 1)))
  = [ EvAcquire; EvGetParsedTransaction (PoolConn 0) "sig1"; EvSleep 1000;
      EvGetParsedTransaction (PoolConn 0) "sig1" ]
  /\ gated (events (processTransaction TOKEN_MINT (mkSignatureInfo "sig1")
                      walletW (Script.start (throttled 1))))
     = false.
Proof. split; reflexivity. Qed.

(** ** Zero deltas *)

Section ZeroDelta.

Context {World : Type} {E : Environment World}.

Variable tokenMint : string.

Lemma stored_none (t : list Event) :
  Forall (fun ev => isInsertTransaction ev = false) t -> stored t = [].
Proof.
  induction 1 as [|ev t Hev _ IH]; [reflexivity|].
  destruct ev; cbn in *; congruence.
Qed.

Lemma fetchTransaction_stores_nothing (sig : string) :
  emitsOnly (fun ev => isInsertTransaction ev = false)
    (fetchTransaction sig : M World _).
Proof.
  unfold fetchTransaction. apply emitsOnly_bind; auto with emits.
  intros c. apply emitsOnly_bind; auto with emits.
Qed.

(** C2. When the computed balance delta is exactly zero,
    [analyzeTransaction] returns [null]; the part of [processTransaction]
    that follows the fetch then leaves the state as it found it and emits
    no event; and a run of [processTransaction] whose fetch brings such a
    transaction hands nothing to storage. A side with no entry for the
    wallet and the mint counts as a balance of zero. *)
Theorem zero_delta_emits_nothing (tx : ParsedTransactionWithMeta)
  (addr : string) (m : ParsedTransactionMeta) (s : State World) :
  meta tx = Some m ->
  (calculateTokenBalanceChange tokenMint (orEmpty (preTokenBalances m))
     (orEmpty (postTokenBalances m)) addr =? 0)%float = true ->
  analyzeTransaction tokenMint tx addr = None
  /\ classifyAndStore tokenMint addr (Some tx) s = (Ok tt, s, [])
  /\ (forall signatureInfo,
        outcome
          (withRetry (fetchTransaction (infoSignature signatureInfo)) 3 1000
             (final (acquire s)))
        = Ok (Some tx) ->
        stored (events (processTransaction tokenMint signatureInfo addr s))
        = [])
  /\ (forall balances,
        Js.find (matchesWallet tokenMint addr) balances = None ->
        findBalance tokenMint balances addr = Some 0%float).
Proof.
  intros Hmeta Hzero.
  assert (Hnull : analyzeTransaction tokenMint tx addr = None).
  { unfold analyzeTransaction. rewrite Hmeta. cbv zeta. now rewrite Hzero. }
  assert (Hquiet : forall s', classifyAndStore tokenMint addr (Some tx) s'
                              = (Ok tt, s', [])).
  { intros s'. unfold classifyAndStore. now rewrite Hnull. }
  split; [exact Hnull|]. split; [apply Hquiet|]. split.
  - intros signatureInfo Hfetched. unfold processTransaction.
    rewrite tryCatch_run. erewrite bind_ok by apply acquire_run.
    rewrite acquire_run in Hfetched. cbn [final fst snd] in Hfetched.
    pose proof (emitsOnly_retryLoop
                  (fun ev => isInsertTransaction ev = false)
                  (fetchTransaction (infoSignature signatureInfo)) 1000 3 0
                  (fun _ => eq_refl)
                  (fetchTransaction_stores_nothing _)) as Hcalls.
    unfold withRetry in *.
    set (s0 := mkState _ _ _ _) in *. specialize (Hcalls s0).
    destruct (retryLoop _ _ _ _ s0) as [[r s1] t1] eqn:Hrun.
    cbn in Hfetched, Hcalls. subst r.
    erewrite bind_ok by exact Hrun. rewrite Hquiet.
    unfold after. cbn. rewrite app_nil_r. now apply stored_none.
  - intros balances. apply findBalance_missing.
Qed.

End ZeroDelta.

(** The scenario of the specification: 140 before, 140 after. *)
Lemma unchanged_balance_emits_nothing :
  analyzeTransaction TOKEN_MINT (transfer 140 140) walletW = None
  /\ classifyAndStore TOKEN_MINT walletW (Some (transfer 140 140))
       (Script.start Script.quiet)
     = (Ok tt, Script.start Script.quiet, []).
Proof.
  destruct (zero_delta_emits_nothing TOKEN_MINT (transfer 140 140) walletW _
              (Script.start Script.quiet) eq_refl eq_refl)
    as [Hnull [Hstore _]].
  split; [exact Hnull | exact Hstore].
Defined.

(** A notification that finds five signatures, two of which moved the
    balance: two records reach storage. *)
Example two_of_five_are_stored :
  map (fun r => (type r, amount r))
    (stored (events (handleAccountChange TOKEN_MINT walletW
                       (Script.start fiveSignatures))))
  = [(Buy, 40%float); (Sell, 15%float)].
Proof. reflexivity. Qed.

(** ** Transaction history *)

Section HistoryFacts.

Context {World : Type} {E : Environment World}.

Variable tokenMint : string.

Lemma bind_assoc {A B C : Type} (m : M World A) (f : A -> M World B)
  (g : B -> M World C) (s : State World) :
  bind (bind m f) g s = bind m (fun a => bind (f a) g) s.
Proof.
  unfold bind. destruct (m s) as [[[a|e] s1] t1]; [|reflexivity].
  destruct (f a s1) as [[[b|e] s2] t2]; [|reflexivity].
  destruct (g b s2) as [[r s3] t3]. now rewrite app_assoc.
Qed.

Lemma bind_ext {A B : Type} (m : M World A) (f g : A -> M World B)
  (s : State World) :
  (forall a s', f a s' = g a s') -> bind m f s = bind m g s.
Proof.
  intros Hfg. unfold bind. destruct (m s) as [[[a|e] s1] t1];
    [|reflexivity]. now rewrite Hfg.
Qed.

Lemma bind_ret {A B : Type} (a : A) (f : A -> M World B) (s : State World) :
  bind (ret a) f s = f a s.
Proof. unfold bind, ret. now destruct (f a s) as [[r s1] t1]. Qed.

(** The loop of the history is: fetch everything, then classify. *)
Lemma historyLoop_fetch_then_classify (addr : string)
  (signatures : list ConfirmedSignatureInfo) :
  forall transactions s,
    historyLoop tokenMint addr signatures transactions s
    = (fetched <- fetchAll signatures ;;
       ret (transactions ++ classified tokenMint addr fetched))%async s.
Proof.
  induction signatures as [|signatureInfo rest IH]; intros transactions s.
  - cbn [historyLoop fetchAll]. rewrite bind_ret. cbn.
    now rewrite app_nil_r.
  - cbn [historyLoop fetchAll]. rewrite bind_assoc.
    apply bind_ext. intros _ s1. rewrite bind_assoc.
    apply bind_ext. intros transaction s2. rewrite bind_assoc, IH.
    apply bind_ext. intros others s3. rewrite bind_ret.
    cbn [classified flat_map]. fold (classified tokenMint addr others).
    destruct transaction as [tx|]; [|reflexivity].
    destruct (analyzeTransaction tokenMint tx addr);
      [now rewrite <- app_assoc | reflexivity].
Qed.

(** C10. [getWalletTransactionHistory] always resolves: with the empty
    list when anything inside its [try] block throws, and otherwise with
    what the block returns, which is the classification of the fetched
    transactions, absent and unclassified ones left out. *)
Theorem getWalletTransactionHistory_never_throws (addr : string)
  (limit : Z) (s : State World) :
  (exists transactions,
      outcome (getWalletTransactionHistory tokenMint addr limit s)
      = Ok transactions)
  /\ (forall e,
        outcome (historyBody tokenMint addr limit s) = Throw e ->
        outcome (getWalletTransactionHistory tokenMint addr limit s)
        = Ok [])
  /\ (forall transactions,
        outcome (historyBody tokenMint addr limit s) = Ok transactions ->
        outcome (getWalletTransactionHistory tokenMint addr limit s)
        = Ok transactions)
  /\ historyBody tokenMint addr limit s
     = (acquire ;;
        signatures <- withRetry (fetchSignatures addr limit) 3 1000 ;;
        fetched <- fetchAll signatures ;;
        ret (classified tokenMint addr fetched))%async s.
Proof.
  unfold getWalletTransactionHistory. rewrite tryCatch_run.
  destruct (historyBody tokenMint addr limit s) as [[[txs|e] s1] t1] eqn:Hbody.
  - split; [now exists txs|]. split; [discriminate|]. split; [auto|].
    rewrite <- Hbody. unfold historyBody.
    apply bind_ext. intros _ s2. apply bind_ext. intros signatures s3.
    apply historyLoop_fetch_then_classify.
  - split; [now exists []|]. split; [reflexivity|]. split; [discriminate|].
    rewrite <- Hbody. unfold historyBody.
    apply bind_ext. intros _ s2. apply bind_ext. intros signatures s3.
    apply historyLoop_fetch_then_classify.
Qed.

End HistoryFacts.

Example history_keeps_the_classified :
  option_map (map (fun r => (type r, amount r)))
    match outcome (getWalletTransactionHistory TOKEN_MINT walletW 50
                     (Script.start threeSignatures)) with
    | Ok transactions => Some transactions
    | Throw _ => None
    end
  = Some [(Buy, 40%float)].
Proof. reflexivity. Qed.

Example history_is_empty_after_a_failure :
  outcome (getWalletTransactionHistory TOKEN_MINT walletW 50
             (Script.start threeSignaturesBroken))
  = Ok [].
Proof. reflexivity. Qed.

(** ** The top-holder cache *)

Section HolderFacts.

Context {World : Type} {E : Environment World}.

Lemma slice0_length {A : Type} (xs : list A) (limit : Z) :
  (0 <= limit)%Z ->
  (Z.of_nat (List.length (Js.slice0 xs limit)) <= limit)%Z.
Proof.
  intros Hlimit. unfold Js.slice0.
  destruct (limit <? 0)%Z eqn:Hneg; [apply Z.ltb_lt in Hneg; lia|].
  rewrite length_firstn. lia.
Qed.

(** A call that finds the cache non-empty and younger than 30 seconds
    answers from it: no event, and only the clock has been read. *)
Lemma getTopTokenHolders_fresh (limit : Z) (s : State World) :
  topHoldersCache s <> [] ->
  (fst (dateNow (world s)) - lastTopHolderFetch s < 30000)%Z ->
  getTopTokenHolders limit s
  = (Ok (Js.slice0 (topHoldersCache s) limit),
     mkState (snd (dateNow (world s))) (subscriptions s) (topHoldersCache s)
       (lastTopHolderFetch s),
     []).
Proof.
  intros Hcache Hfresh. unfold getTopTokenHolders.
  rewrite bind_run. unfold inWorld.
  destruct (dateNow (world s)) as [now w] eqn:Hnow. cbn in Hfresh |- *.
  destruct (topHoldersCache s) as [|w0 cache]; [congruence|]. cbn.
  apply Z.ltb_lt in Hfresh. now rewrite Hfresh.
Qed.

(** A call that finds the cache empty asks upstream, whatever the time. *)
Lemma getTopTokenHolders_empty_cache (limit : Z) (s : State World) :
  topHoldersCache s = [] ->
  exists t, events (getTopTokenHolders limit s) = EvFetchHolders :: t.
Proof.
  intros Hcache. unfold getTopTokenHolders.
  rewrite bind_run. unfold inWorld.
  destruct (dateNow (world s)) as [now w]. cbn [outcome final events fst snd].
  cbn [topHoldersCache]. rewrite Hcache. cbn [List.length Nat.eqb negb andb].
  rewrite bind_run. cbn. eexists. reflexivity.
Qed.

(** C7, as the code has it. While the cache is non-empty and every
    reading of the clock stays below the last refresh time plus 30000,
    any number of calls, one after the other, is answered from the cache:
    no event at all is emitted, so no upstream query, and each answer is
    the requested slice of the cache. A call that finds the cache empty
    queries upstream, however recent the last refresh. *)
Theorem fresh_cache_needs_no_refresh (limits : list Z) (s : State World) :
  topHoldersCache s <> [] ->
  readsBefore (lastTopHolderFetch s + 30000) (List.length limits) (world s) ->
  events (holderCalls limits s) = []
  /\ outcome (holderCalls limits s)
     = Ok (map (Js.slice0 (topHoldersCache s)) limits)
  /\ topHoldersCache (final (holderCalls limits s)) = topHoldersCache s
  /\ lastTopHolderFetch (final (holderCalls limits s))
     = lastTopHolderFetch s
  /\ (forall limit s',
        topHoldersCache s' = [] ->
        1 <= holderFetches (events (getTopTokenHolders limit s'))).
Proof.
  intros Hcache Hreads.
  assert (Hrefetch : forall limit s',
             topHoldersCache s' = [] ->
             1 <= holderFetches (events (getTopTokenHolders limit s'))).
  { intros limit s' Hempty.
    destruct (getTopTokenHolders_empty_cache limit s' Hempty) as [t ->].
    unfold holderFetches. cbn. lia. }
  revert s Hcache Hreads.
  induction limits as [|limit rest IH]; intros s Hcache Hreads.
  - cbn. auto.
  - destruct Hreads as [Hnow Hlater]. cbn [holderCalls].
    rewrite bind_run, getTopTokenHolders_fresh by (assumption || lia).
    set (s1 := mkState _ _ _ _). rewrite bind_run.
    destruct (IH s1 Hcache Hlater) as [Hev [Hout [Hc [Hl _]]]].
    destruct (holderCalls rest s1) as [[[answers|e] s2] t2];
      cbn in Hev, Hout, Hc, Hl |- *; [|discriminate].
    inversion Hout; subst. auto.
Qed.

End HolderFacts.

(** After the refresh at 1000, the calls at 5000 and at 29000 are served
    from the cache. *)
Lemma second_and_third_call_hit_the_cache :
  events
    (holderCalls [60; 1]%Z
       (final (getTopTokenHolders 60 (Script.start twoHolders))))
  = []
  /\ holderFetches
       (events (getTopTokenHolders 60 (Script.start twoHolders)))
     = 1.
Proof.
  split; [|reflexivity].
  apply (fresh_cache_needs_no_refresh [60; 1]%Z
           (final (getTopTokenHolders 60 (Script.start twoHolders)))).
  - discriminate.
  - cbn. lia.
Defined.

(** Two calls one second apart, an upstream that returns no holder: both
    query upstream. The statement of C7 fails on this run. *)
Lemma empty_answer_is_fetched_again :
  map fst [Script.tick noHolders; Script.tick (snd (Script.tick noHolders))]
  = [1000; 2000]%Z
  /\ holderFetches (events (holderCalls [60; 60]%Z (Script.start noHolders)))
     = 2.
Proof. split; reflexivity. Qed.

Section RefreshFacts.

Context {World : Type} {E : Environment World}.

Lemma toWallet_run (entry : BalanceUpdateEntry) (s : State World) :
  exists wallet w,
    toWallet entry s
    = (Ok wallet,
       mkState w (subscriptions s) (topHoldersCache s)
         (lastTopHolderFetch s),
       [])
    /\ address wallet = accountAddress entry.
Proof.
  unfold toWallet, bind, inWorld, ret.
  destruct (dateNow (world s)) as [t1 w1]. cbn.
  destruct (dateNow w1) as [t2 w2]. cbn.
  eexists _, _. split; reflexivity.
Qed.

Lemma toWallets_run (data : list BalanceUpdateEntry) :
  forall s, exists wallets w,
    toWallets data s
    = (Ok wallets,
       mkState w (subscriptions s) (topHoldersCache s)
         (lastTopHolderFetch s),
       [])
    /\ map address wallets = map accountAddress data.
Proof.
  induction data as [|entry rest IH]; intros s.
  - exists [], (world s). destruct s. split; reflexivity.
  - cbn [toWallets]. rewrite bind_run.
    destruct (toWallet_run entry s) as [wallet [w1 [Hone Haddr1]]].
    rewrite Hone. cbn [outcome final events fst snd].
    destruct (IH (mkState w1 (subscriptions s) (topHoldersCache s)
                    (lastTopHolderFetch s)))
      as [wallets [w [Hrun Haddr]]].
    cbn [subscriptions topHoldersCache lastTopHolderFetch] in Hrun.
    rewrite bind_run, Hrun. cbn.
    exists (wallet :: wallets), w. split; [reflexivity|].
    cbn. now rewrite Haddr1, Haddr.
Qed.

Lemma insertWallets_run (wallets : list Wallet) (s : State World) :
  forEach (fun w => emit (EvInsertWallet w)) wallets s
  = (Ok tt, s, map EvInsertWallet wallets).
Proof.
  induction wallets as [|w rest IH]; [reflexivity|].
  cbn [forEach]. rewrite bind_run. cbn. now rewrite IH.
Qed.

(** The refresh path: the cache is replaced by the converted answer and
    stamped with the time read at the start of the call, each wallet is
    handed to storage, and the answer is the first 60 wallets, whatever
    [limit] is. *)
Lemma getTopTokenHolders_refresh (limit : Z) (s : State World)
  (data : list BalanceUpdateEntry) (w1 : World) :
  topHoldersCache s = []
  \/ (30000 <= fst (dateNow (world s)) - lastTopHolderFetch s)%Z ->
  fetchBalanceUpdates (snd (dateNow (world s))) = (Ok data, w1) ->
  exists wallets w2,
    map address wallets = map accountAddress data
    /\ getTopTokenHolders limit s
       = (Ok (Js.slice0 wallets 60),
          mkState w2 (subscriptions s) wallets (fst (dateNow (world s))),
          EvFetchHolders :: map EvInsertWallet wallets).
Proof.
  intros Hstale Hfetch.
  destruct (dateNow (world s)) as [now w0] eqn:Hnow.
  cbn [fst snd] in Hstale, Hfetch.
  assert (Hcond : negb (Nat.eqb (List.length (topHoldersCache s)) 0)
                  && (now - lastTopHolderFetch s <? 30000)%Z = false).
  { destruct Hstale as [-> | Hold]; [reflexivity|].
    apply Z.ltb_ge in Hold. rewrite Hold. apply andb_false_r. }
  destruct (toWallets_run data
              (mkState w1 (subscriptions s) (topHoldersCache s)
                 (lastTopHolderFetch s)))
    as [wallets [w2 [Hrun Haddr]]].
  cbn [subscriptions topHoldersCache lastTopHolderFetch] in Hrun.
  exists wallets, w2. split; [exact Haddr|].
  unfold getTopTokenHolders.
  erewrite bind_ok by (unfold inWorld; rewrite Hnow; reflexivity).
  cbn beta. cbn [topHoldersCache lastTopHolderFetch]. rewrite Hcond.
  erewrite bind_ok by reflexivity.
  erewrite bind_ok
    by (unfold ask, inWorld, bind, ret; cbn [world]; rewrite Hfetch;
        reflexivity).
  erewrite bind_ok by exact Hrun.
  erewrite bind_ok by apply insertWallets_run.
  erewrite bind_ok by reflexivity.
  unfold after, ret. cbn. now rewrite app_nil_r.
Qed.

End RefreshFacts.

(** C8 at a failing input: a first call with [limit = 1] while the
    endpoint knows two holders refreshes the cache and answers with both
    wallets. *)
Lemma refresh_answers_beyond_the_limit :
  match outcome (getTopTokenHolders 1 (Script.start twoHolders)) with
  | Ok wallets => map address wallets
  | Throw _ => []
  end
  = ["holderA"; "holderB"].
Proof. reflexivity. Qed.

(** The same request served from the cache is cut to one wallet. *)
Example cache_answers_within_the_limit :
  match
    outcome
      (getTopTokenHolders 1
         (final (getTopTokenHolders 60 (Script.start twoHolders))))
  with
  | Ok wallets => map address wallets
  | Throw _ => []
  end
  = ["holderA"].
Proof. reflexivity. Qed.

(** ** Subscriptions *)

Section Steps.

Context {World : Type} {E : Environment World}.

Variable R : State World -> State World -> list Event -> Prop.

Hypothesis R_refl : forall s, R s s [].

Hypothesis R_trans :
  forall s1 s2 s3 t1 t2, R s1 s2 t1 -> R s2 s3 t2 -> R s1 s3 (t1 ++ t2).

Hypothesis R_world :
  forall s w,
    R s
      (mkState w (subscriptions s) (topHoldersCache s) (lastTopHolderFetch s))
      [].

Lemma respects_ret {A : Type} (a : A) : respects R (ret a).
Proof. intros s. apply R_refl. Qed.

Lemma respects_throw {A : Type} (e : JsError) : respects R (throw e : M World A).
Proof. intros s. apply R_refl. Qed.

Lemma respects_bind {A B : Type} (m : M World A) (f : A -> M World B) :
  respects R m -> (forall a, respects R (f a)) -> respects R (bind m f).
Proof.
  intros Hm Hf s. rewrite bind_run. specialize (Hm s).
  destruct (m s) as [[[a|e] s1] t1]; cbn in *; [|exact Hm].
  eapply R_trans; [exact Hm | apply Hf].
Qed.

Lemma respects_tryCatch {A : Type} (m : M World A)
  (h : JsError -> M World A) :
  respects R m -> (forall e, respects R (h e)) -> respects R (tryCatch m h).
Proof.
  intros Hm Hh s. rewrite tryCatch_run. specialize (Hm s).
  destruct (m s) as [[[a|e] s1] t1]; cbn in *; [exact Hm|].
  eapply R_trans; [exact Hm | apply Hh].
Qed.

Lemma respects_forEach {A : Type} (body : A -> M World unit) (xs : list A) :
  (forall x, respects R (body x)) -> respects R (forEach body xs).
Proof.
  intros Hbody. induction xs as [|x xs IH]; cbn [forEach].
  - apply respects_ret.
  - apply respects_bind; [apply Hbody | intros _; exact IH].
Qed.

Lemma respects_inWorld {A : Type} (f : World -> A * World) :
  respects R (inWorld f).
Proof.
  intros s. unfold inWorld. destruct (f (world s)) as [a w]. apply R_world.
Qed.

Lemma respects_ask {A : Type} (f : World -> result A * World) :
  respects R (ask f).
Proof.
  apply respects_bind; [apply respects_inWorld|].
  intros [a|e]; [apply respects_ret | apply respects_throw].
Qed.

Lemma respects_emit (ev : Event) :
  (forall s, R s s [ev]) -> respects R (emit ev).
Proof. intros Hev s. apply Hev. Qed.

Lemma respects_newPublicKey (addr : string) : respects R (newPublicKey addr).
Proof.
  unfold newPublicKey.
  destruct (isPublicKey addr); [apply respects_ret | apply respects_throw].
Qed.

Lemma respects_getConnection : respects R getConnection.
Proof.
  apply respects_bind; [apply respects_inWorld|].
  intros r. apply respects_ret.
Qed.

End Steps.

Section SubscriptionFacts.

Context {World : Type} {E : Environment World}.

Lemma lastOpenedFrom_app (addr : string) (t1 t2 : list Event) :
  forall before,
    lastOpenedFrom addr (t1 ++ t2) before
    = lastOpenedFrom addr t2 (lastOpenedFrom addr t1 before).
Proof.
  induction t1 as [|ev t1 IH]; intros before; [reflexivity|].
  destruct ev; cbn; apply IH.
Qed.

Lemma mapGet_mapSet {V : Type} (k a : string) (v : V)
  (m : list (string * V)) :
  mapGet a (mapSet k v m) = if String.eqb k a then Some v else mapGet a m.
Proof.
  induction m as [|[k' v'] m IH]; cbn.
  - reflexivity.
  - destruct (String.eqb k' k) eqn:Hk; cbn.
    + apply String.eqb_eq in Hk. subst k'.
      now destruct (String.eqb k a).
    + destruct (String.eqb k' a) eqn:Ha; [|exact IH].
      apply String.eqb_eq in Ha. subst k'.
      rewrite String.eqb_sym in Hk. now rewrite Hk.
Qed.

Lemma mapSet_keys {V : Type} (k x : string) (v : V) (m : list (string * V)) :
  In x (map fst (mapSet k v m)) <-> x = k \/ In x (map fst m).
Proof.
  induction m as [|[k' v'] m IH]; cbn.
  - intuition congruence.
  - destruct (String.eqb k' k) eqn:Hk; cbn.
    + apply String.eqb_eq in Hk. subst k'. intuition congruence.
    + rewrite IH. intuition congruence.
Qed.

Lemma mapSet_NoDup {V : Type} (k : string) (v : V) (m : list (string * V)) :
  NoDup (map fst m) -> NoDup (map fst (mapSet k v m)).
Proof.
  induction m as [|[k' v'] m IH]; cbn; intros Hnd.
  - repeat constructor. intros [].
  - inversion Hnd as [|? ? Hnotin Hrest]; subst.
    destruct (String.eqb k' k) eqn:Hk; cbn.
    + apply String.eqb_eq in Hk. subst k'. now constructor.
    + constructor; [|now apply IH].
      rewrite mapSet_keys. intros [-> | Hin]; [|contradiction].
      now rewrite String.eqb_refl in Hk.
Qed.

Lemma follows_refl (s : State World) : follows s s [].
Proof. repeat split; auto. Qed.

Lemma follows_trans (s1 s2 s3 : State World) (t1 t2 : list Event) :
  follows s1 s2 t1 -> follows s2 s3 t2 -> follows s1 s3 (t1 ++ t2).
Proof.
  intros [Hn1 [Hg1 Hr1]] [Hn2 [Hg2 Hr2]]. repeat split.
  - auto.
  - intros addr. now rewrite lastOpenedFrom_app, <- Hg1, <- Hg2.
  - apply Forall_app. now split.
Qed.

Lemma follows_world (s : State World) (w : World) :
  follows s
    (mkState w (subscriptions s) (topHoldersCache s) (lastTopHolderFetch s))
    [].
Proof. repeat split; auto. Qed.

Lemma follows_bystander (s : State World) (ev : Event) :
  isRemoveListener ev = false ->
  (forall c a id, ev <> EvOnAccountChange c a id) ->
  follows s s [ev].
Proof.
  intros Hrem Hopen. repeat split; auto.
  intros addr. destruct ev; try reflexivity. now destruct (Hopen c addr0 id).
Qed.

Abbreviation tracking := (respects (@follows World)).

Lemma tracking_open (addr : string) (id : Z) (c : Connection) :
  tracking (emit (EvOnAccountChange c addr id) ;;
            setSubscription addr id c)%async.
Proof.
  intros s. cbn. repeat split.
  - cbn [subscriptions]. apply mapSet_NoDup.
  - intros a. cbn [subscriptions lastOpenedFrom].
    now rewrite mapGet_mapSet.
  - repeat constructor.
Qed.

Lemma tracking_acquire : tracking acquire.
Proof.
  apply respects_bind; [apply follows_trans | |].
  - apply respects_inWorld, follows_world.
  - intros _ s. now apply follows_bystander.
Qed.

Lemma tracking_sleep (ms : float) : tracking (sleep ms).
Proof.
  apply respects_bind; [apply follows_trans | |].
  - intros s. now apply follows_bystander.
  - intros _. apply respects_inWorld, follows_world.
Qed.

Lemma tracking_subscribeOne (addr : string) : tracking (subscribeOne addr).
Proof.
  unfold subscribeOne.
  apply respects_tryCatch; [apply follows_trans | |].
  - apply respects_bind; [apply follows_trans | apply tracking_acquire |].
    intros _.
    apply respects_bind;
      [apply follows_trans | apply respects_newPublicKey, follows_refl |].
    intros _.
    apply respects_bind; [apply follows_trans | |].
    { apply respects_getConnection;
        [apply follows_refl | apply follows_trans | apply follows_world]. }
    intros c.
    apply respects_bind; [apply follows_trans | |].
    { apply respects_ask;
        [apply follows_refl | apply follows_trans | apply follows_world]. }
    intros id. apply tracking_open.
  - intros _ s. now apply follows_bystander.
Qed.

Lemma tracking_batchLoop (walletAddresses : list string) :
  forall fuel i, tracking (batchLoop fuel i walletAddresses).
Proof.
  induction fuel as [|fuel IH]; intros i; cbn [batchLoop].
  - apply respects_ret, follows_refl.
  - destruct (i <? List.length walletAddresses)%nat;
      [|apply respects_ret, follows_refl].
    apply respects_bind; [apply follows_trans | |].
    { apply respects_forEach;
        [apply follows_refl | apply follows_trans |].
      apply tracking_subscribeOne. }
    intros _. apply respects_bind; [apply follows_trans | |].
    { destruct (i + batchSize <? List.length walletAddresses)%nat;
        [apply tracking_sleep | apply respects_ret, follows_refl]. }
    intros _. apply IH.
Qed.

Lemma blind_ret {A : Type} (a : A) : blind (ret a : M World A).
Proof. intros s s' Hw. now repeat split. Qed.

Lemma blind_throw {A : Type} (e : JsError) : blind (throw e : M World A).
Proof. intros s s' Hw. now repeat split. Qed.

Lemma blind_emit (ev : Event) : blind (emit ev : M World unit).
Proof. intros s s' Hw. now repeat split. Qed.

Lemma blind_inWorld {A : Type} (f : World -> A * World) :
  blind (inWorld f).
Proof.
  intros s s' Hw. unfold inWorld. rewrite Hw.
  destruct (f (world s')) as [a w]. now repeat split.
Qed.

Lemma blind_bind {A B : Type} (m : M World A) (f : A -> M World B) :
  blind m -> (forall a, blind (f a)) -> blind (bind m f).
Proof.
  intros Hm Hf s s' Hw. unfold bind.
  destruct (Hm s s' Hw) as [Ho [He Hwd]].
  destruct (m s) as [[r1 s1] t1], (m s') as [[r1' s1'] t1'].
  cbn [outcome events final fst snd] in Ho, He, Hwd. subst r1' t1'.
  destruct r1 as [a|e]; [|now repeat split].
  destruct (Hf a s1 s1' Hwd) as [Ho2 [He2 Hw2]].
  destruct (f a s1) as [[r2 s2] t2], (f a s1') as [[r2' s2'] t2'].
  cbn [outcome events final fst snd] in *. subst r2' t2'. now repeat split.
Qed.

Lemma blind_tryCatch {A : Type} (m : M World A) (h : JsError -> M World A) :
  blind m -> (forall e, blind (h e)) -> blind (tryCatch m h).
Proof.
  intros Hm Hh s s' Hw. unfold tryCatch.
  destruct (Hm s s' Hw) as [Ho [He Hwd]].
  destruct (m s) as [[r1 s1] t1], (m s') as [[r1' s1'] t1'].
  cbn [outcome events final fst snd] in Ho, He, Hwd. subst r1' t1'.
  destruct r1 as [a|e]; [now repeat split|].
  destruct (Hh e s1 s1' Hwd) as [Ho2 [He2 Hw2]].
  destruct (h e s1) as [[r2 s2] t2], (h e s1') as [[r2' s2'] t2'].
  cbn [outcome events final fst snd] in *. subst r2' t2'. now repeat split.
Qed.

Lemma blind_ask {A : Type} (f : World -> result A * World) : blind (ask f).
Proof.
  apply blind_bind; [apply blind_inWorld|].
  intros [a|e]; [apply blind_ret | apply blind_throw].
Qed.

Lemma blind_forEach {A : Type} (body : A -> M World unit) (xs : list A) :
  (forall x, blind (body x)) -> blind (forEach body xs).
Proof.
  intros Hbody. induction xs as [|x xs IH]; cbn [forEach].
  - apply blind_ret.
  - apply blind_bind; [apply Hbody | intros _; exact IH].
Qed.

(** [subscribeOne] sets the entry of the table and reads nothing of it. *)
Lemma blind_subscribeOne (addr : string) : blind (subscribeOne addr).
Proof.
  unfold subscribeOne, acquire, newPublicKey, getConnection.
  apply blind_tryCatch; [|intros _; apply blind_emit].
  apply blind_bind.
  { apply blind_bind; [apply blind_inWorld | intros _; apply blind_emit]. }
  intros _. apply blind_bind.
  { destruct (isPublicKey addr); [apply blind_ret | apply blind_throw]. }
  intros _. apply blind_bind.
  { apply blind_bind; [apply blind_inWorld | intros r; apply blind_ret]. }
  intros c. apply blind_bind; [apply blind_ask|].
  intros id. apply blind_bind; [apply blind_emit|].
  intros _ s s' Hw. now repeat split.
Qed.

Lemma blind_batchLoop (walletAddresses : list string) :
  forall fuel i, blind (batchLoop fuel i walletAddresses).
Proof.
  induction fuel as [|fuel IH]; intros i; cbn [batchLoop].
  - apply blind_ret.
  - destruct (i <? List.length walletAddresses)%nat; [|apply blind_ret].
    apply blind_bind.
    { apply blind_forEach. apply blind_subscribeOne. }
    intros _. apply blind_bind; [|intros _; apply IH].
    destruct (i + batchSize <? List.length walletAddresses)%nat;
      [|apply blind_ret].
    unfold sleep.
    apply blind_bind; [apply blind_emit | intros _; apply blind_inWorld].
Qed.

Lemma opened_app (t1 t2 : list Event) :
  opened (t1 ++ t2) = opened t1 ++ opened t2.
Proof.
  induction t1 as [|ev t1 IH]; [reflexivity|].
  destruct ev; cbn; now rewrite IH.
Qed.

(** An address opened in a trace maps, at the end of it, to a handle the
    trace opened for it. *)
Lemma lastOpenedFrom_opened (addr : string) (t : list Event) :
  forall before,
    In addr (opened t) ->
    exists id c,
      lastOpenedFrom addr t before = Some (id, c)
      /\ In (EvOnAccountChange c addr id) t.
Proof.
  induction t as [|ev t IH]; intros before Hin; [destruct Hin|].
  destruct ev; cbn [opened lastOpenedFrom] in *;
    try (destruct (IH before Hin) as [id' [c' [Hlast Hev]]];
         exists id', c'; split; [exact Hlast | now right]).
  destruct (in_dec string_dec addr (opened t)) as [Hlater | Hnot].
  - destruct (IH (if String.eqb addr0 addr then Some (id, c) else before)
                Hlater) as [id' [c' [Hlast Hev]]].
    exists id', c'. split; [exact Hlast | now right].
  - destruct Hin as [Heq | Hin]; [|contradiction]. subst addr0.
    exists id, c. split; [|now left].
    rewrite String.eqb_refl.
    clear IH. revert Hnot. generalize (Some (id, c)).
    induction t as [|ev t IHt]; intros o Hnot; [reflexivity|].
    destruct ev; cbn [opened lastOpenedFrom] in *; try now apply IHt.
    destruct (String.eqb addr0 addr) eqn:Heq.
    + apply String.eqb_eq in Heq. subst addr0. exfalso. apply Hnot. now left.
    + apply IHt. intros Hin. apply Hnot. now right.
Qed.

(** A well-formed address the node accepts: admission, then a new
    subscription, whatever the table holds. *)
Lemma subscribeOne_opens (addr : string) (s : State World) :
  isPublicKey addr = true ->
  (forall c a w, exists id, fst (onAccountChange c a w) = Ok id) ->
  outcome (subscribeOne addr s) = Ok tt
  /\ opened (events (subscribeOne addr s)) = [addr].
Proof.
  intros Hkey Hnode.
  cbv beta iota zeta delta
    [subscribeOne tryCatch bind acquire newPublicKey getConnection ask
       inWorld emit ret throw setSubscription outcome events].
  rewrite Hkey.
  cbn [fst snd world subscriptions topHoldersCache lastTopHolderFetch app].
  destruct (mathRandom (limiterWait (world s))) as [r w1].
  cbn [fst snd world subscriptions topHoldersCache lastTopHolderFetch app].
  destruct (Hnode (pickConnection r) addr w1) as [id Hid].
  destruct (onAccountChange (pickConnection r) addr w1) as [res w2].
  cbn [fst] in Hid. subst res.
  cbn [fst snd world subscriptions topHoldersCache lastTopHolderFetch app].
  split; reflexivity.
Qed.

Lemma subscribeBatch_opens (batch : list string) :
  (forall a, In a batch -> isPublicKey a = true) ->
  (forall c a w, exists id, fst (onAccountChange c a w) = Ok id) ->
  forall s,
    outcome (forEach subscribeOne batch s) = Ok tt
    /\ opened (events (forEach subscribeOne batch s)) = batch.
Proof.
  intros Hkeys Hnode.
  induction batch as [|addr batch IH]; intros s; [split; reflexivity|].
  cbn [forEach].
  destruct (subscribeOne_opens addr s (Hkeys addr (or_introl eq_refl)) Hnode)
    as [Hok Hopen].
  destruct (subscribeOne addr s) as [[[u|e] s1] t1] eqn:Hone;
    cbn [outcome events fst snd] in Hok, Hopen; [|discriminate].
  erewrite bind_ok by exact Hone.
  destruct (IH (fun a Ha => Hkeys a (or_intror Ha)) s1) as [Hok' Hopen'].
  destruct (forEach subscribeOne batch s1) as [[r2 s2] t2].
  cbn [outcome events fst snd] in Hok', Hopen'.
  unfold after. cbn [outcome events fst snd].
  split; [exact Hok'|]. now rewrite opened_app, Hopen, Hopen'.
Qed.

Lemma batchLoop_opens (walletAddresses : list string) :
  (forall a, In a walletAddresses -> isPublicKey a = true) ->
  (forall c a w, exists id, fst (onAccountChange c a w) = Ok id) ->
  forall fuel i s,
    List.length walletAddresses - i <= fuel ->
    opened (events (batchLoop fuel i walletAddresses s))
    = skipn i walletAddresses.
Proof.
  intros Hkeys Hnode.
  induction fuel as [|fuel IH]; intros i s Hfuel.
  - cbn. symmetry. apply skipn_all2. lia.
  - cbn [batchLoop].
    destruct (i <? List.length walletAddresses)%nat eqn:Hi.
    + set (batch := firstn batchSize (skipn i walletAddresses)).
      assert (Hbatch : forall a, In a batch -> isPublicKey a = true).
      { intros a Ha. apply Hkeys.
        rewrite <- (firstn_skipn i walletAddresses).
        apply in_or_app. right.
        rewrite <- (firstn_skipn batchSize (skipn i walletAddresses)).
        apply in_or_app. now left. }
      destruct (subscribeBatch_opens batch Hbatch Hnode s) as [Hok1 Hopen1].
      destruct (forEach subscribeOne batch s) as [[[u1|e1] s1] t1] eqn:Hrun1;
        cbn [outcome events fst snd] in Hok1, Hopen1; [|discriminate].
      erewrite bind_ok by exact Hrun1.
      assert (Hpause :
                exists s2 t2,
                  (if (i + batchSize <? List.length walletAddresses)%nat
                   then sleep 200 else ret tt) s1 = (Ok tt, s2, t2)
                  /\ opened t2 = []).
      { destruct (i + batchSize <? List.length walletAddresses)%nat;
          eexists; eexists; split; reflexivity. }
      destruct Hpause as [s2 [t2 [Hrun2 Hopen2]]].
      erewrite bind_ok by exact Hrun2.
      specialize (IH (i + batchSize) s2).
      destruct (batchLoop fuel (i + batchSize) walletAddresses s2)
        as [[r3 s3] t3].
      cbn [events snd] in IH. unfold after. cbn [events snd].
      rewrite !opened_app, Hopen1, Hopen2, IH by (unfold batchSize; lia).
      cbn [app]. unfold batch.
      rewrite Nat.add_comm, <- skipn_skipn. apply firstn_skipn.
    + apply Nat.ltb_ge in Hi. cbn. symmetry. apply skipn_all2. lia.
Qed.


End SubscriptionFacts.



(** Twenty addresses in batches of five, one of them malformed: nineteen
    subscriptions are tracked, with three pauses between the four batches,
    and [unsubscribeAll] asks for the removal of them all. *)
Example nineteen_of_twenty_subscribed :
  List.length
    (subscriptions
       (final (subscribeToWalletTransactions twentyAddresses
                 (Script.start Script.quiet))))
  = 19
  /\ sleeps
       (events (subscribeToWalletTransactions twentyAddresses
                  (Script.start Script.quiet)))
     = 3
  /\ subscriptions
       (final
          ((subscribeToWalletTransactions twentyAddresses ;;
            unsubscribeAll)%async (Script.start Script.quiet)))
     = []
  /\ unreleased
       (events
          ((subscribeToWalletTransactions twentyAddresses ;;
            unsubscribeAll)%async (Script.start Script.quiet)))
       []
     = [].
Proof. repeat split; vm_compute; reflexivity. Qed.

(** * Further properties *)

(** ** The rate limiter, continued *)

Module RateLimiterMore.

Import RateLimiter RateLimiterFacts.

Lemma filter_length_mono {A : Type} (p q : A -> bool) (l : list A) :
  (forall x, In x l -> p x = true -> q x = true) ->
  (List.length (filter p l) <= List.length (filter q l))%nat.
Proof.
  induction l as [|x l IH]; intros Hpq; [reflexivity|]. cbn.
  assert (IH' : (List.length (filter p l) <= List.length (filter q l))%nat).
  { apply IH. intros y Hy. apply Hpq. now right. }
  destruct (p x) eqn:Hp.
  - rewrite (Hpq x (or_introl eq_refl) Hp). cbn. lia.
  - destruct (q x); cbn; lia.
Qed.

Lemma granted_step_bound (now last : Z) (rl rl' : t) (log : list Z) :
  consistent rl log last ->
  (last <= now)%Z ->
  (1 <= maxRequests rl)%Z ->
  attempt now rl = (Granted, rl') ->
  (Z.of_nat (grantedWithin now (timeWindow rl) (log ++ [now]))
   <= maxRequests rl)%Z.
Proof.
  intros [_ Hsame] Hle Hroom Hgrant.
  pose proof (attempt_granted_room now rl rl' Hroom Hgrant) as Hbelow.
  rewrite (Hsame now Hle) in Hbelow.
  pose proof (filter_length_snoc (inWindow now (timeWindow rl)) log now).
  unfold grantedWithin. lia.
Qed.

Lemma grantedIn_snoc_later (t now window : Z) (log : list Z) :
  (t < now)%Z -> grantedIn t window (log ++ [now]) = grantedIn t window log.
Proof.
  intros Hlt. unfold grantedIn. rewrite filter_app, length_app. cbn.
  assert (Hout : (now <=? t)%Z = false) by (apply Z.leb_gt; lia).
  rewrite Hout, andb_false_r. cbn. lia.
Qed.

Lemma grantedIn_le_within (t now window : Z) (log : list Z) :
  (now <= t)%Z ->
  (grantedIn t window log <= grantedWithin now window log)%nat.
Proof.
  intros Hle. unfold grantedIn, grantedWithin.
  apply filter_length_mono. intros ts _ Hts.
  apply andb_true_iff in Hts. destruct Hts as [Hin _].
  unfold inWindow in *. apply Z.ltb_lt in Hin. apply Z.ltb_lt. lia.
Qed.

Lemma run_any_window (schedule : list Z) :
  forall from rl log,
    nondecreasing from schedule ->
    consistent rl log from ->
    (1 <= maxRequests rl)%Z ->
    (forall t,
        (Z.of_nat (grantedIn t (timeWindow rl) log) <= maxRequests rl)%Z) ->
    forall t,
      (Z.of_nat (grantedIn t (timeWindow rl) (snd (run rl log schedule)))
       <= maxRequests rl)%Z.
Proof.
  induction schedule as [|now rest IH]; intros from rl log Hmono Hcons Hroom
    Hlog t.
  - apply Hlog.
  - destruct Hmono as [Hle Hrest]. cbn [run].
    destruct (attempt now rl) as [o rl'] eqn:Hatt.
    destruct (attempt_fields _ _ _ _ Hatt) as [Hm Hw].
    pose proof (attempt_consistent _ _ _ _ _ _ Hle Hcons Hatt) as Hstep.
    destruct o as [|w].
    + rewrite <- Hm, <- Hw.
      apply (IH now rl' (log ++ [now])); try assumption; [lia|].
      intros u. rewrite Hm, Hw.
      destruct (Z.lt_ge_cases u now) as [Hbefore | Hafter].
      * rewrite grantedIn_snoc_later by exact Hbefore. apply Hlog.
      * pose proof (grantedIn_le_within u now (timeWindow rl)
                      (log ++ [now]) Hafter).
        pose proof (granted_step_bound _ _ _ _ _ Hcons Hle Hroom Hatt).
        lia.
    + rewrite <- Hm, <- Hw.
      apply (IH now rl' log); try assumption; [lia|].
      intros u. rewrite Hm, Hw. apply Hlog.
Qed.

(** X1. Whatever the schedule of turns, as long as time does not run
    backwards and the limiter has room for one request at least: every
    window of [timeWindow] milliseconds, wherever it ends, holds at most
    [maxRequests] admissions. *)
Theorem any_window_bound (R W from t : Z) (schedule : list Z) :
  (1 <= R)%Z ->
  nondecreasing from schedule ->
  (Z.of_nat (grantedIn t W (snd (run (create R W) [] schedule))) <= R)%Z.
Proof.
  intros Hroom Hmono.
  apply (run_any_window schedule from (create R W) [] Hmono
           (create_consistent R W from) Hroom).
  intros u. cbn. lia.
Qed.

(** Two per 100 ms, callers at 0, 10, 20, 110, 115 and 120: the window
    that ends at 119 holds two admissions. *)
Lemma any_window_bound_2_per_100 :
  (Z.of_nat
     (grantedIn 119 100
        (snd (run (create 2 100) [] [0; 10; 20; 110; 115; 120])))
   <= 2)%Z.
Proof.
  apply (any_window_bound 2 100 0 119 [0; 10; 20; 110; 115; 120])%Z.
  - lia.
  - cbn. lia.
Defined.

(** X2. A suspended call waits a positive time, at most [timeWindow] when
    no recorded request lies in the future; it is not recorded, and the
    list it leaves is at capacity. *)
Theorem suspension_is_bounded (now w : Z) (rl rl' : t) :
  Forall (fun ts => (ts <= now)%Z) (requests rl) ->
  attempt now rl = (Suspended w, rl') ->
  (0 < w <= timeWindow rl)%Z
  /\ requests rl' = filter (inWindow now (timeWindow rl)) (requests rl)
  /\ (maxRequests rl <= Z.of_nat (List.length (requests rl')))%Z
  /\ Forall (fun ts => (now - ts < timeWindow rl)%Z) (requests rl').
Proof.
  intros Hpast Hatt.
  pose proof (attempt_suspended _ _ _ _ Hatt) as Hkept.
  assert (Hin : Forall (fun ts => (now - ts < timeWindow rl)%Z)
                  (requests rl')).
  { rewrite Hkept. apply Forall_forall. intros ts Hts.
    apply filter_In in Hts. destruct Hts as [_ Hts].
    unfold inWindow in Hts. now apply Z.ltb_lt in Hts. }
  unfold attempt in Hatt. rewrite <- Hkept in Hatt.
  destruct (maxRequests rl <=? Z.of_nat (List.length (requests rl')))%Z
    eqn:Hfull; [|discriminate].
  apply Z.leb_le in Hfull.
  destruct (requests rl') as [|oldest others] eqn:Hreq; [discriminate|].
  destruct (0 <? timeWindow rl - (now - oldest))%Z eqn:Hwait;
    [|discriminate].
  inversion Hatt; subst w. apply Z.ltb_lt in Hwait.
  assert (Hold : (oldest <= now)%Z).
  { assert (Hmem : In oldest (requests rl)).
    { assert (Hmem' : In oldest
                        (filter (inWindow now (timeWindow rl))
                           (requests rl)))
        by (rewrite <- Hkept; now left).
      now apply filter_In in Hmem'. }
    rewrite Forall_forall in Hpast. now apply Hpast. }
  repeat split; try assumption; lia.
Qed.

Lemma suspension_is_bounded_at_capacity :
  (0 < 1000 <= 1000)%Z
  /\ requests
       (snd (attempt 0
               (fst (run (create 8 1000) [] [0; 0; 0; 0; 0; 0; 0; 0]))))%Z
     = filter (inWindow 0 1000) [0; 0; 0; 0; 0; 0; 0; 0]%Z
  /\ (8 <= Z.of_nat
             (List.length
                (requests
                   (snd (attempt 0
                           (fst (run (create 8 1000) []
                                   [0; 0; 0; 0; 0; 0; 0; 0])))))))%Z
  /\ Forall (fun ts => (0 - ts < 1000)%Z)
       (requests
          (snd (attempt 0
                  (fst (run (create 8 1000) [] [0; 0; 0; 0; 0; 0; 0; 0])))))%Z.
Proof.
  apply (suspension_is_bounded 0 1000
           (fst (run (create 8 1000) [] [0; 0; 0; 0; 0; 0; 0; 0]))
           (snd (attempt 0
                   (fst (run (create 8 1000) []
                           [0; 0; 0; 0; 0; 0; 0; 0])))))%Z.
  - cbn. repeat constructor; lia.
  - reflexivity.
Defined.

(** X3. A call that finds fewer than [maxRequests] recorded requests is
    admitted at once, whatever the time, and recorded behind the requests
    still in the window. *)
Theorem below_capacity_is_admitted (now : Z) (rl : t) :
  (Z.of_nat (List.length (requests rl)) < maxRequests rl)%Z ->
  attempt now rl
  = (Granted,
     push now rl (filter (inWindow now (timeWindow rl)) (requests rl))).
Proof.
  intros Hroom. unfold attempt.
  pose proof (filter_length_le (inWindow now (timeWindow rl)) (requests rl)).
  destruct (maxRequests rl <=? _)%Z eqn:Hfull; [|reflexivity].
  apply Z.leb_le in Hfull. lia.
Qed.

Lemma below_capacity_is_admitted_first_call :
  attempt 5 (create 8 1000)
  = (Granted,
     push 5 (create 8 1000)
       (filter (inWindow 5 (timeWindow (create 8 1000)))
          (requests (create 8 1000)))).
Proof.
  apply (below_capacity_is_admitted 5 (create 8 1000)). cbn. lia.
Defined.

Lemma suspended_positive (now w : Z) (rl rl' : t) :
  attempt now rl = (Suspended w, rl') -> (0 < w)%Z.
Proof.
  unfold attempt. intros H.
  destruct (maxRequests rl <=? _)%Z; [|discriminate].
  destruct (filter _ _) as [|oldest others]; [discriminate|].
  destruct (0 <? timeWindow rl - (now - oldest))%Z eqn:Hwait;
    [|discriminate].
  inversion H; subst. now apply Z.ltb_lt.
Qed.

(** X4. One caller alone, a limiter that holds no more than [maxRequests]
    requests, a timer that never fires early: [waitForAvailability]
    returns after one suspension at most, not before the time of the
    call, and the admission is the newest recorded request. *)
Theorem lone_caller_waits_once (wake : Z -> Z -> Z) (now : Z) (rl : t) :
  (Z.of_nat (List.length (requests rl)) <= maxRequests rl)%Z ->
  (forall t w, (t + w <= wake t w)%Z) ->
  exists grantedAt rl' kept,
    waitForAvailability wake 1 now rl = Some (grantedAt, rl')
    /\ (now <= grantedAt)%Z
    /\ requests rl' = kept ++ [grantedAt].
Proof.
  intros Hlen Hwake.
  destruct (waitForAvailability_alone wake now rl Hlen Hwake)
    as [grantedAt [rl' Hrun]].
  cbn [waitForAvailability] in Hrun |- *.
  destruct (attempt now rl) as [[|w] rl1] eqn:Hfirst.
  - inversion Hrun; subst. eexists _, _, _.
    split; [reflexivity|]. split; [lia|].
    apply (attempt_granted _ _ _ Hfirst).
  - destruct (attempt (wake now w) rl1) as [[|w2] rl2] eqn:Hsecond;
      [|discriminate].
    inversion Hrun; subst. eexists _, _, _.
    split; [reflexivity|]. split.
    + pose proof (suspended_positive _ _ _ _ Hfirst).
      pose proof (Hwake now w). lia.
    + apply (attempt_granted _ _ _ Hsecond).
Qed.

(** A full limiter at time 0 and a timer that fires exactly when due. *)
Lemma lone_caller_waits_once_at_capacity :
  exists grantedAt rl' kept,
    waitForAvailability (fun now waitTime => now + waitTime)%Z 1 0
      (fst (run (create 8 1000) [] [0; 0; 0; 0; 0; 0; 0; 0]))%Z
    = Some (grantedAt, rl')
    /\ (0 <= grantedAt)%Z
    /\ requests rl' = kept ++ [grantedAt].
Proof.
  apply (lone_caller_waits_once (fun now waitTime => now + waitTime)%Z 0
           (fst (run (create 8 1000) [] [0; 0; 0; 0; 0; 0; 0; 0])))%Z.
  - cbn. lia.
  - intros. lia.
Defined.

End RateLimiterMore.

(** ** The retry helper, continued *)

Section BackoffFacts.

Context {World : Type} {E : Environment World}.

Lemma sleepDurations_app (t1 t2 : list Event) :
  sleepDurations (t1 ++ t2) = sleepDurations t1 ++ sleepDurations t2.
Proof.
  induction t1 as [|ev t1 IH]; [reflexivity|].
  destruct ev; cbn; now rewrite IH.
Qed.

Lemma sleepDurations_call (ev : Event) :
  isUpstreamCall ev = true -> sleepDurations [ev] = [].
Proof. destruct ev; cbn; congruence. Qed.

(** The back-off step again, with the random draw named. *)
Lemma backoff_run_drawn {A : Type} (delay : float -> float) (k : M World A)
  (s : State World) :
  (x <- inWorld mathRandom ;; sleep (delay x) ;; k)%async s
  = after [EvSleep (delay (fst (mathRandom (world s))))]
      (k (mkState
            (setTimeout (delay (fst (mathRandom (world s))))
               (snd (mathRandom (world s))))
            (subscriptions s) (topHoldersCache s) (lastTopHolderFetch s))).
Proof.
  unfold sleep, emit, inWorld, bind, after, outcome, final, events.
  destruct (mathRandom (world s)) as [r w]. cbn.
  destruct (k _) as [[res s2] t2]. reflexivity.
Qed.

Lemma retryLoop_backoff {A : Type} (operation : M World A)
  (baseDelay : float) :
  singleCall operation ->
  forall remaining attempt s,
    let ds :=
      sleepDurations
        (events (retryLoop operation baseDelay remaining attempt s)) in
    backoffFrom (World := World) baseDelay attempt ds
    /\ List.length ds <= remaining.
Proof.
  intros Hsingle. induction remaining as [|n IH]; intros attempt s; cbv zeta.
  - rewrite retryLoop_last_attempt.
    destruct (Hsingle s) as [ev [-> Hcall]].
    rewrite (sleepDurations_call _ Hcall). cbn. auto.
  - destruct (Hsingle s) as [ev [Hev Hcall]].
    destruct (operation s) as [[[v|e] s1] t1] eqn:Hop; cbn in Hev; subst t1.
    + rewrite (retryLoop_success _ _ _ _ _ _ _ _ Hop). cbn [events snd].
      rewrite (sleepDurations_call _ Hcall). cbn. split; [exact I | lia].
    + destruct (isRateLimitError e) eqn:Hlimit.
      * rewrite (retryLoop_rate_limited _ _ _ _ _ _ _ _ Hop Hlimit).
        rewrite (backoff_run_drawn
                   (fun r => (baseDelay * Js.pow2 attempt + r * 1000)%float)).
        set (s' := mkState _ _ _ _).
        destruct (IH (S attempt) s') as [Hrest Hlen].
        unfold after. cbn [events snd].
        rewrite sleepDurations_app, (sleepDurations_call _ Hcall).
        cbn [app sleepDurations].
        split; [|cbn [List.length]; lia].
        cbn [backoffFrom]. split; [|exact Hrest].
        exists (world s1). reflexivity.
      * rewrite (retryLoop_other_error _ _ _ _ _ _ _ _ Hop Hlimit).
        cbn [events snd]. rewrite (sleepDurations_call _ Hcall). cbn.
        split; [exact I | lia].
Qed.

(** X5. For an operation that issues one upstream call per invocation,
    the sleeps of [withRetry] are, in order, [baseDelay * 2^0],
    [baseDelay * 2^1], ... each plus a jitter of 1000 times a fresh
    [Math.random()], and there are at most [maxRetries] of them. *)
Theorem withRetry_backs_off_exponentially {A : Type}
  (operation : M World A) (maxRetries : nat) (baseDelay : float)
  (s : State World) :
  singleCall operation ->
  backoffFrom (World := World) baseDelay 0
    (sleepDurations (events (withRetry operation maxRetries baseDelay s)))
  /\ List.length
       (sleepDurations (events (withRetry operation maxRetries baseDelay s)))
     <= maxRetries.
Proof.
  intros Hsingle.
  exact (retryLoop_backoff operation baseDelay Hsingle maxRetries 0 s).
Qed.

End BackoffFacts.

(** A node that throttles four fetches in a row. *)
Lemma withRetry_backs_off_when_throttled :
  backoffFrom (World := Script.World) 1000 0
    (sleepDurations
       (events (withRetry (fetchTransaction "sig1") 3 1000
                  (Script.start (throttled 4)))))
  /\ List.length
       (sleepDurations
          (events (withRetry (fetchTransaction "sig1") 3 1000
                     (Script.start (throttled 4)))))
     <= 3.
Proof.
  apply (withRetry_backs_off_exponentially (fetchTransaction "sig1") 3 1000
           (Script.start (throttled 4))).
  apply fetchTransaction_singleCall.
Defined.

(** ** The notification pipeline *)

Section PipelineFacts.

Context {World : Type} {E : Environment World}.

Variable tokenMint : string.

Lemma stored_app (t1 t2 : list Event) :
  stored (t1 ++ t2) = stored t1 ++ stored t2.
Proof.
  induction t1 as [|ev t1 IH]; [reflexivity|].
  destruct ev; cbn; now rewrite IH.
Qed.

Lemma analyzeTransaction_wallet (tx : ParsedTransactionWithMeta)
  (addr : string) (a : Transaction) :
  analyzeTransaction tokenMint tx addr = Some a ->
  fromAnalysis tokenMint addr a.
Proof.
  intros Ha. split; [|now exists tx].
  unfold analyzeTransaction in Ha.
  destruct (meta tx); [|discriminate]. cbv zeta in Ha.
  destruct (_ =? 0)%float; [discriminate|]. now inversion Ha.
Qed.

Lemma storeTransaction_events (a : Transaction) (s : State World) :
  events (storeTransaction a s) = [EvInsertTransaction a].
Proof.
  unfold storeTransaction, ask, bind, inWorld, emit, ret, throw, events.
  cbn. now destruct (insertTransaction a (world s)) as [[u|e] w].
Qed.

(** What follows the fetch stores one analysis or nothing. *)
Lemma classifyAndStore_stores (addr : string)
  (transaction : option ParsedTransactionWithMeta) (s : State World) :
  acquires (events (classifyAndStore tokenMint addr transaction s)) = 0
  /\ List.length
       (stored (events (classifyAndStore tokenMint addr transaction s)))
     <= 1
  /\ Forall (fromAnalysis tokenMint addr)
       (stored (events (classifyAndStore tokenMint addr transaction s))).
Proof.
  unfold classifyAndStore. destruct transaction as [tx|]; [|cbn; auto].
  destruct (analyzeTransaction tokenMint tx addr) as [a|] eqn:Ha;
    [|cbn; auto].
  rewrite storeTransaction_events. cbn. repeat split; auto.
  repeat constructor; now apply (analyzeTransaction_wallet tx).
Qed.

Lemma fetchSignatures_stores_nothing (addr : string) (limit : Z) :
  emitsOnly (fun ev => isInsertTransaction ev = false)
    (fetchSignatures addr limit : M World _).
Proof.
  unfold fetchSignatures. apply emitsOnly_bind; auto with emits.
  intros c. apply emitsOnly_bind; auto with emits.
  intros _. apply emitsOnly_bind; auto with emits.
Qed.

(** One run of [processTransaction]: resolved, one acquire, one record
    stored at most. *)
Lemma processTransaction_summary (signatureInfo : ConfirmedSignatureInfo)
  (addr : string) (s : State World) :
  outcome (processTransaction tokenMint signatureInfo addr s) = Ok tt
  /\ acquires (events (processTransaction tokenMint signatureInfo addr s))
     = 1
  /\ List.length
       (stored (events (processTransaction tokenMint signatureInfo addr s)))
     <= 1
  /\ Forall (fromAnalysis tokenMint addr)
       (stored (events (processTransaction tokenMint signatureInfo addr s))).
Proof.
  unfold processTransaction. rewrite tryCatch_run.
  erewrite bind_ok by apply acquire_run. set (s0 := mkState _ _ _ _).
  rewrite bind_run. unfold withRetry.
  pose proof (emitsOnly_retryLoop (fun ev => isAcquire ev = false)
                (fetchTransaction (infoSignature signatureInfo)) 1000 3 0
                (fun _ => eq_refl) (fetchTransaction_no_acquire _) s0)
    as Hquiet.
  pose proof (emitsOnly_retryLoop (fun ev => isInsertTransaction ev = false)
                (fetchTransaction (infoSignature signatureInfo)) 1000 3 0
                (fun _ => eq_refl) (fetchTransaction_stores_nothing _) s0)
    as Hnone.
  destruct (retryLoop _ _ _ _ s0) as [[[tx|e] s1] calls].
  - cbn [events snd] in Hquiet, Hnone.
    apply acquires_none in Hquiet. apply stored_none in Hnone.
    destruct (classifyAndStore_stores addr tx s1) as [Hacq [Hlen Hfrom]].
    destruct (classifyAndStore tokenMint addr tx s1) as [[[u|e] s2] rest];
      cbn [events snd outcome final fst after] in *.
    + destruct u. unfold after. cbn [outcome final events fst snd].
      rewrite !acquires_app, !stored_app, Hquiet, Hnone, Hacq. cbn.
      repeat split; auto.
    + unfold after. cbn [outcome final events fst snd emit].
      rewrite !acquires_app, !stored_app, Hquiet, Hnone, Hacq. cbn.
      rewrite app_nil_r. repeat split; auto.
  - cbn [events snd] in Hquiet, Hnone.
    apply acquires_none in Hquiet. apply stored_none in Hnone.
    unfold after. cbn [outcome final events fst snd emit].
    rewrite !acquires_app, !stored_app, Hquiet, Hnone. cbn.
    repeat split; auto.
Qed.

Lemma forEach_always_resolved {A : Type} (body : A -> M World unit)
  (xs : list A) :
  (forall x s, outcome (body x s) = Ok tt) ->
  forall s,
    outcome (forEach body xs s) = Ok tt
    /\ exists runs,
         List.length runs = List.length xs
         /\ events (forEach body xs s) = List.concat runs
         /\ Forall (fun t => exists x s', t = events (body x s')) runs.
Proof.
  intros Hok. induction xs as [|x xs IH]; intros s.
  - split; [reflexivity|]. exists []. repeat split. constructor.
  - cbn [forEach]. rewrite bind_run. specialize (Hok x s) as Hx.
    destruct (body x s) as [[[u|e] s1] t1] eqn:Hrun; cbn in Hx;
      [|discriminate].
    destruct (IH s1) as [Hrest [runs [Hlen [Hev Hall]]]].
    cbn [outcome final events fst snd]. split; [exact Hrest|].
    exists (t1 :: runs). cbn. rewrite Hlen, Hev. repeat split.
    constructor; [|exact Hall]. exists x, s. now rewrite Hrun.
Qed.

Lemma concat_acquires (runs : list (list Event)) :
  Forall (fun t => acquires t = 1) runs ->
  acquires (List.concat runs) = List.length runs.
Proof.
  induction 1 as [|t runs Ht _ IH]; [reflexivity|].
  cbn [List.concat List.length]. now rewrite acquires_app, Ht, IH.
Qed.

Lemma concat_stored_length (runs : list (list Event)) :
  Forall (fun t => List.length (stored t) <= 1) runs ->
  List.length (stored (List.concat runs)) <= List.length runs.
Proof.
  induction 1 as [|t runs Ht _ IH]; [cbn; lia|].
  cbn [List.concat List.length]. rewrite stored_app, length_app. lia.
Qed.

Lemma concat_stored_Forall (Q : Transaction -> Prop)
  (runs : list (list Event)) :
  Forall (fun t => Forall Q (stored t)) runs ->
  Forall Q (stored (List.concat runs)).
Proof.
  induction 1 as [|t runs Ht _ IH]; [constructor|].
  cbn [List.concat]. rewrite stored_app. apply Forall_app. now split.
Qed.

(** The loop of [handleAccountChange] over the signatures it fetched. *)
Lemma processAll_summary (addr : string)
  (signatures : list ConfirmedSignatureInfo) (s : State World) :
  let r :=
    forEach (fun signatureInfo =>
               processTransaction tokenMint signatureInfo addr)
      signatures s in
  outcome r = Ok tt
  /\ acquires (events r) = List.length signatures
  /\ List.length (stored (events r)) <= List.length signatures
  /\ Forall (fromAnalysis tokenMint addr) (stored (events r)).
Proof.
  cbv zeta.
  destruct (forEach_always_resolved
              (fun signatureInfo =>
                 processTransaction tokenMint signatureInfo addr)
              signatures
              (fun x s' => proj1 (processTransaction_summary x addr s')) s)
    as [Hok [runs [Hlen [Hev Hall]]]].
  rewrite Hev, <- Hlen. split; [exact Hok|].
  split; [|split].
  - apply concat_acquires. eapply Forall_impl; [|exact Hall].
    intros t [x [s' ->]]. apply processTransaction_summary.
  - apply concat_stored_length. eapply Forall_impl; [|exact Hall].
    intros t [x [s' ->]]. apply processTransaction_summary.
  - apply concat_stored_Forall. eapply Forall_impl; [|exact Hall].
    intros t [x [s' ->]]. apply processTransaction_summary.
Qed.

(** X6. When the signatures of the wallet could be fetched,
    [handleAccountChange] processes every one of them, whatever happens to
    the others: it resolves, acquires admission once for the signature
    fetch and once per signature, and stores one record per signature at
    most. *)
Theorem handleAccountChange_processes_every_signature (addr : string)
  (signatures : list ConfirmedSignatureInfo) (s : State World) :
  outcome (withRetry (fetchSignatures addr 5) 3 1000 (final (acquire s)))
  = Ok signatures ->
  outcome (handleAccountChange tokenMint addr s) = Ok tt
  /\ acquires (events (handleAccountChange tokenMint addr s))
     = 1 + List.length signatures
  /\ List.length (stored (events (handleAccountChange tokenMint addr s)))
     <= List.length signatures.
Proof.
  intros Hfetched. unfold handleAccountChange.
  rewrite tryCatch_run. erewrite bind_ok by apply acquire_run.
  rewrite acquire_run in Hfetched. cbn [final fst snd] in Hfetched.
  set (s0 := mkState _ _ _ _) in *. unfold withRetry in *.
  pose proof (emitsOnly_retryLoop (fun ev => isAcquire ev = false)
                (fetchSignatures addr 5) 1000 3 0
                (fun _ => eq_refl) (fetchSignatures_no_acquire _ _) s0)
    as Hquiet.
  pose proof (emitsOnly_retryLoop (fun ev => isInsertTransaction ev = false)
                (fetchSignatures addr 5) 1000 3 0
                (fun _ => eq_refl) (fetchSignatures_stores_nothing _ _) s0)
    as Hnone.
  destruct (retryLoop _ _ _ _ s0) as [[r s1] t1] eqn:Hrun.
  cbn [outcome events fst snd] in Hfetched, Hquiet, Hnone. subst r.
  apply acquires_none in Hquiet. apply stored_none in Hnone.
  erewrite bind_ok by exact Hrun.
  destruct (processAll_summary addr signatures s1)
    as [Hok [Hacq [Hlen _]]].
  destruct (forEach _ signatures s1) as [[[u|e] s2] t2];
    cbn [outcome events fst snd] in Hok, Hacq, Hlen; [|discriminate].
  unfold after. cbn [outcome final events fst snd].
  rewrite !acquires_app, !stored_app, Hquiet, Hnone, Hacq. cbn.
  repeat split; auto.
Qed.

End PipelineFacts.

(** Five signatures, the second transaction of which cannot be fetched:
    the notification still acquires six times and stores the other two
    records. *)
Lemma handleAccountChange_survives_a_broken_fetch :
  outcome (handleAccountChange TOKEN_MINT walletW
             (Script.start fiveSignaturesOneBroken))
  = Ok tt
  /\ acquires (events (handleAccountChange TOKEN_MINT walletW
                         (Script.start fiveSignaturesOneBroken)))
     = 1 + 5
  /\ List.length
       (stored (events (handleAccountChange TOKEN_MINT walletW
                          (Script.start fiveSignaturesOneBroken))))
     <= 5.
Proof.
  apply (handleAccountChange_processes_every_signature TOKEN_MINT walletW
           [mkSignatureInfo "a"; mkSignatureInfo "b"; mkSignatureInfo "c";
            mkSignatureInfo "d"; mkSignatureInfo "e"]
           (Script.start fiveSignaturesOneBroken)).
  reflexivity.
Defined.

Example broken_fetch_skips_one_record :
  map (fun r => (type r, amount r))
    (stored (events (handleAccountChange TOKEN_MINT walletW
                       (Script.start fiveSignaturesOneBroken))))
  = [(Buy, 40%float); (Sell, 15%float)].
Proof. reflexivity. Qed.

Section PipelineFailures.

Context {World : Type} {E : Environment World}.

Variable tokenMint : string.

Lemma fetchSignatures_fetches_no_transaction (addr : string) (limit : Z) :
  emitsOnly
    (fun ev => isGetParsedTransaction ev = false
               /\ isInsertTransaction ev = false)
    (fetchSignatures addr limit : M World _).
Proof.
  unfold fetchSignatures. apply emitsOnly_bind; auto with emits.
  intros c. apply emitsOnly_bind; auto with emits.
  intros _. apply emitsOnly_bind; auto with emits.
Qed.

(** X7. When the signatures of the wallet cannot be fetched,
    [handleAccountChange] resolves all the same: after the acquire and
    the attempts of the signature fetch it logs the error, fetches no
    transaction and stores nothing. *)
Theorem handleAccountChange_gives_up_without_signatures (addr : string)
  (e : JsError) (s : State World) :
  outcome (withRetry (fetchSignatures addr 5) 3 1000 (final (acquire s)))
  = Throw e ->
  outcome (handleAccountChange tokenMint addr s) = Ok tt
  /\ events (handleAccountChange tokenMint addr s)
     = EvAcquire
       :: events (withRetry (fetchSignatures addr 5) 3 1000
                    (final (acquire s)))
       ++ [EvConsoleError]
  /\ stored (events (handleAccountChange tokenMint addr s)) = []
  /\ Forall (fun ev => isGetParsedTransaction ev = false)
       (events (handleAccountChange tokenMint addr s)).
Proof.
  intros Hfailed.
  pose proof (emitsOnly_retryLoop
                (fun ev => isGetParsedTransaction ev = false
                           /\ isInsertTransaction ev = false)
                (fetchSignatures addr 5) 1000 3 0
                (fun _ => conj eq_refl eq_refl)
                (fetchSignatures_fetches_no_transaction _ _)
                (final (acquire s)))
    as Hquiet.
  assert (Hev : handleAccountChange tokenMint addr s
                = (Ok tt,
                   final (withRetry (fetchSignatures addr 5) 3 1000
                            (final (acquire s))),
                   EvAcquire
                   :: events (withRetry (fetchSignatures addr 5) 3 1000
                                (final (acquire s)))
                   ++ [EvConsoleError])).
  { unfold handleAccountChange. rewrite tryCatch_run.
    erewrite bind_ok by apply acquire_run.
    rewrite acquire_run in Hfailed |- *. cbn [final fst snd] in *.
    rewrite bind_run.
    destruct (withRetry _ _ _ _) as [[r s1] t1].
    cbn [outcome fst] in Hfailed. subst r. reflexivity. }
  rewrite Hev. cbn [outcome events fst snd].
  fold (withRetry (fetchSignatures addr 5) 3 1000 (final (acquire s)))
    in Hquiet.
  split; [reflexivity|]. split; [reflexivity|]. split.
  - apply stored_none. constructor; [reflexivity|].
    apply Forall_app. split; [|repeat constructor].
    eapply Forall_impl; [|exact Hquiet]. now intros ev [_ H].
  - constructor; [reflexivity|].
    apply Forall_app. split; [|repeat constructor].
    eapply Forall_impl; [|exact Hquiet]. now intros ev [H _].
Qed.

(** X8. [handleAccountChange] never rejects, and every record it hands to
    storage carries the address of the wallet it was called for and is
    what [analyzeTransaction] made of some transaction. *)
Theorem handleAccountChange_stores_analyses (addr : string)
  (s : State World) :
  outcome (handleAccountChange tokenMint addr s) = Ok tt
  /\ Forall (fromAnalysis tokenMint addr)
       (stored (events (handleAccountChange tokenMint addr s))).
Proof.
  unfold handleAccountChange. rewrite tryCatch_run.
  erewrite bind_ok by apply acquire_run. set (s0 := mkState _ _ _ _).
  rewrite bind_run. unfold withRetry.
  pose proof (emitsOnly_retryLoop (fun ev => isInsertTransaction ev = false)
                (fetchSignatures addr 5) 1000 3 0
                (fun _ => eq_refl) (fetchSignatures_stores_nothing _ _) s0)
    as Hnone.
  destruct (retryLoop _ _ _ _ s0) as [[[signatures|e] s1] t1];
    cbn [events snd] in Hnone; apply stored_none in Hnone.
  - destruct (processAll_summary tokenMint addr signatures s1)
      as [Hok [_ [_ Hfrom]]].
    destruct (forEach _ signatures s1) as [[[u|e] s2] t2];
      cbn [outcome events fst snd] in Hok, Hfrom; [|discriminate].
    unfold after. cbn [outcome final events fst snd].
    rewrite !stored_app, Hnone. cbn [app stored].
    split; [exact Hok | exact Hfrom].
  - unfold after. cbn [outcome final events fst snd emit].
    rewrite !stored_app, Hnone. cbn. split; [reflexivity | constructor].
Qed.

End PipelineFailures.

(** A node that refuses to list signatures: one acquire, one call, one
    logged error. *)
Lemma handleAccountChange_without_signatures :
  outcome (handleAccountChange TOKEN_MINT walletW (Script.start noSignatures))
  = Ok tt
  /\ events (handleAccountChange TOKEN_MINT walletW
               (Script.start noSignatures))
     = EvAcquire
       :: events (withRetry (fetchSignatures walletW 5) 3 1000
                    (final (acquire (Script.start noSignatures))))
       ++ [EvConsoleError]
  /\ stored (events (handleAccountChange TOKEN_MINT walletW
                       (Script.start noSignatures)))
     = []
  /\ Forall (fun ev => isGetParsedTransaction ev = false)
       (events (handleAccountChange TOKEN_MINT walletW
                  (Script.start noSignatures))).
Proof.
  apply (handleAccountChange_gives_up_without_signatures TOKEN_MINT walletW
           connectionReset (Script.start noSignatures)).
  reflexivity.
Defined.

(** ** Transaction history, continued *)

Section HistoryMore.

Context {World : Type} {E : Environment World}.

Variable tokenMint : string.

Lemma historyLoop_stores_nothing (addr : string)
  (signatures : list ConfirmedSignatureInfo) :
  forall transactions,
    emitsOnly (fun ev => isInsertTransaction ev = false)
      (historyLoop tokenMint addr signatures transactions : M World _).
Proof.
  induction signatures as [|signatureInfo rest IH]; intros transactions;
    cbn [historyLoop]; auto with emits.
  apply emitsOnly_bind; auto with emits. intros _.
  apply emitsOnly_bind; [|intros transaction; apply IH].
  unfold withRetry. apply emitsOnly_retryLoop; [reflexivity|].
  apply fetchTransaction_stores_nothing.
Qed.

Lemma historyLoop_result (addr : string)
  (signatures : list ConfirmedSignatureInfo) :
  forall transactions s result,
    outcome (historyLoop tokenMint addr signatures transactions s)
    = Ok result ->
    Forall (fromAnalysis tokenMint addr) transactions ->
    Forall (fromAnalysis tokenMint addr) result
    /\ List.length result
       <= List.length transactions + List.length signatures.
Proof.
  induction signatures as [|signatureInfo rest IH];
    intros transactions s result Hrun Hacc.
  - cbn in Hrun. inversion Hrun; subst. split; [exact Hacc | lia].
  - cbn [historyLoop] in Hrun.
    erewrite bind_ok in Hrun by apply acquire_run.
    rewrite bind_run in Hrun.
    destruct (withRetry _ _ _ _) as [[[transaction|e] s1] t1];
      [|discriminate].
    cbn [after outcome final events fst snd] in Hrun.
    unfold after in Hrun. cbn [outcome fst] in Hrun.
    apply IH in Hrun.
    + destruct Hrun as [Hfrom Hlen]. split; [exact Hfrom|].
      cbn [List.length].
      destruct transaction as [tx|]; [|lia].
      destruct (analyzeTransaction tokenMint tx addr);
        [rewrite length_app in Hlen; cbn in Hlen|]; lia.
    + destruct transaction as [tx|]; [|exact Hacc].
      destruct (analyzeTransaction tokenMint tx addr) as [a|] eqn:Ha;
        [|exact Hacc].
      apply Forall_app. split; [exact Hacc|].
      constructor; [|constructor].
      now apply (analyzeTransaction_wallet tokenMint tx).
Qed.

(** X9. [getWalletTransactionHistory] only reads: it hands nothing to
    storage. What it resolves with are analyses made for the wallet it
    was called for, and no more of them than signatures were fetched. *)
Theorem getWalletTransactionHistory_only_reads (addr : string) (limit : Z)
  (s : State World) :
  stored (events (getWalletTransactionHistory tokenMint addr limit s)) = []
  /\ exists transactions,
       outcome (getWalletTransactionHistory tokenMint addr limit s)
       = Ok transactions
       /\ Forall (fromAnalysis tokenMint addr) transactions
       /\ (forall signatures,
             outcome (withRetry (fetchSignatures addr limit) 3 1000
                        (final (acquire s)))
             = Ok signatures ->
             List.length transactions <= List.length signatures).
Proof.
  split.
  - apply stored_none. revert s.
    change (emitsOnly (fun ev => isInsertTransaction ev = false)
              (getWalletTransactionHistory tokenMint addr limit
               : M World _)).
    unfold getWalletTransactionHistory, historyBody.
    apply emitsOnly_tryCatch.
    + apply emitsOnly_bind; auto with emits. intros _.
      apply emitsOnly_bind; [|intros signatures;
                               apply historyLoop_stores_nothing].
      unfold withRetry. apply emitsOnly_retryLoop; [reflexivity|].
      apply fetchSignatures_stores_nothing.
    + intros _. apply emitsOnly_bind; auto with emits.
  - unfold getWalletTransactionHistory, historyBody.
    rewrite tryCatch_run. erewrite bind_ok by apply acquire_run.
    rewrite acquire_run. cbn [final fst snd].
    set (s0 := mkState _ _ _ _). rewrite bind_run.
    destruct (withRetry (fetchSignatures addr limit) 3 1000 s0)
      as [[[signatures|e] s1] t1].
    + destruct (historyLoop tokenMint addr signatures [] s1)
        as [[[result|e] s2] t2] eqn:Hloop.
      * exists result. unfold after. cbn [outcome fst].
        split; [reflexivity|].
        destruct (historyLoop_result addr signatures [] s1 result)
          as [Hfrom Hlen]; [now rewrite Hloop | constructor |].
        split; [exact Hfrom|].
        intros signatures' Heq. cbn in Heq. inversion Heq; subst. exact Hlen.
      * exists []. unfold after. cbn. split; [reflexivity|].
        split; [constructor|]. intros. lia.
    + exists []. unfold after. cbn. split; [reflexivity|].
      split; [constructor|]. intros. lia.
Qed.

End HistoryMore.

(** ** Classification, continued *)

Lemma touches_same_keys (keys keys' ids : list string) :
  (forall k, In k keys <-> In k keys') ->
  touches keys ids = touches keys' ids.
Proof.
  intros Hsame.
  assert (Hiff : intersects keys ids <-> intersects keys' ids).
  { unfold intersects. split; intros [k [Hk Hid]]; exists k;
      (split; [now apply Hsame | exact Hid]). }
  destruct (touches keys ids) eqn:H1; destruct (touches keys' ids) eqn:H2;
    try reflexivity.
  - apply touches_intersects in H1. apply touches_disjoint in H2. tauto.
  - apply touches_intersects in H2. apply touches_disjoint in H1. tauto.
Qed.

(** X10. The protocol tag depends on which account keys a transaction
    names, not on their order or on how often each is named. *)
Theorem detectProtocol_depends_on_key_set (keys keys' : list string) :
  (forall k, In k keys <-> In k keys') ->
  detectProtocol keys = detectProtocol keys'.
Proof.
  intros Hsame. unfold detectProtocol.
  induction protocols as [|[p ids] table IH]; [reflexivity|].
  cbn [detectIn]. now rewrite (touches_same_keys keys keys' ids Hsame), IH.
Qed.

Lemma detectProtocol_reordered_keys :
  detectProtocol [ "675kPX9MHTjS2zt1qfr1NYHuzeLXfQM9H24wFSUt1Mp8"; "W";
                   "9W959DqEETiGZocYWCQPaJ6sBmUzgfxXfqGeTEdp3aQP" ]
  = detectProtocol [ "9W959DqEETiGZocYWCQPaJ6sBmUzgfxXfqGeTEdp3aQP";
                     "675kPX9MHTjS2zt1qfr1NYHuzeLXfQM9H24wFSUt1Mp8"; "W";
                     "W" ].
Proof.
  apply detectProtocol_depends_on_key_set.
  intros k. cbn. tauto.
Defined.

Section BalanceFacts.

Variable tokenMint : string.

Lemma find_filter {A : Type} (p : A -> bool) (l : list A) :
  Js.find p (filter p l) = Js.find p l.
Proof.
  unfold Js.find. induction l as [|x l IH]; [reflexivity|]. cbn.
  destruct (p x) eqn:Hp; cbn; [now rewrite Hp | exact IH].
Qed.

(** X11. The balance delta reads, on each side, the first entry owned by
    the wallet for the monitored mint and nothing else: entries of other
    owners or mints can be dropped without changing it, and further
    entries of the wallet behind the first are not added up. *)
Theorem balance_change_reads_first_match
  (preBalances postBalances : list TokenBalance) (addr : string) :
  calculateTokenBalanceChange tokenMint preBalances postBalances addr
  = calculateTokenBalanceChange tokenMint
      (filter (matchesWallet tokenMint addr) preBalances)
      (filter (matchesWallet tokenMint addr) postBalances) addr
  /\ (forall b others,
        matchesWallet tokenMint addr b = true ->
        findBalance tokenMint (b :: others) addr = uiAmount b)
  /\ (forall b others,
        matchesWallet tokenMint addr b = false ->
        findBalance tokenMint (b :: others) addr
        = findBalance tokenMint others addr).
Proof.
  split; [|split].
  - unfold calculateTokenBalanceChange, findBalance.
    now rewrite !find_filter.
  - intros b others Hb. unfold findBalance, Js.find. cbn. now rewrite Hb.
  - intros b others Hb. unfold findBalance, Js.find. cbn. now rewrite Hb.
Qed.

End BalanceFacts.

(** A wallet with two token accounts of the mint, the second of which
    receives 50: the delta is read off the first account and no record is
    made. *)
Example second_token_account_is_not_read :
  analyzeTransaction TOKEN_MINT twoAccounts walletW = None.
Proof. reflexivity. Qed.

(** The date of a record is the block time in milliseconds; without a
    block time the record is made all the same, with an invalid date. *)
Example record_without_block_time :
  option_map timestamp
    (analyzeTransaction TOKEN_MINT (transfer 100 140) walletW)
  = Some 1700000000000%float
  /\ option_map (fun r => (type r, amount r, is_nan (timestamp r)))
       (analyzeTransaction TOKEN_MINT undatedPurchase walletW)
     = Some (Buy, 40%float, true).
Proof. split; reflexivity. Qed.

(** ** The top-holder cache, continued *)

Section HolderMore.

Context {World : Type} {E : Environment World}.

Lemma bind_throw {A B : Type} (m : M World A) (f : A -> M World B)
  (s s1 : State World) (e : JsError) (t1 : list Event) :
  m s = (Throw e, s1, t1) -> bind m f s = (Throw e, s1, t1).
Proof. intros Hm. unfold bind. now rewrite Hm. Qed.

Lemma toWallet_converted (entry : BalanceUpdateEntry) (s : State World) :
  exists wallet w,
    toWallet entry s
    = (Ok wallet,
       mkState w (subscriptions s) (topHoldersCache s)
         (lastTopHolderFetch s),
       [])
    /\ converted (World := World) entry wallet.
Proof.
  unfold toWallet, bind, inWorld, ret.
  destruct (dateNow (world s)) as [t1 w1]. cbn.
  destruct (dateNow w1) as [t2 w2]. cbn.
  eexists _, _. split; [reflexivity|]. repeat split.
Qed.

Lemma toWallets_converted (data : list BalanceUpdateEntry) :
  forall s, exists wallets w,
    toWallets data s
    = (Ok wallets,
       mkState w (subscriptions s) (topHoldersCache s)
         (lastTopHolderFetch s),
       [])
    /\ Forall2 (converted (World := World)) data wallets.
Proof.
  induction data as [|entry rest IH]; intros s.
  - exists [], (world s). destruct s. split; [reflexivity | constructor].
  - cbn [toWallets]. rewrite bind_run.
    destruct (toWallet_converted entry s) as [wallet [w1 [Hone Hconv]]].
    rewrite Hone. cbn [outcome final events fst snd].
    destruct (IH (mkState w1 (subscriptions s) (topHoldersCache s)
                    (lastTopHolderFetch s)))
      as [wallets [w [Hrun Hall]]].
    cbn [subscriptions topHoldersCache lastTopHolderFetch] in Hrun.
    rewrite bind_run, Hrun. cbn.
    exists (wallet :: wallets), w. split; [reflexivity|].
    now constructor.
Qed.

(** X12. A call that finds the cache empty, or 30 seconds old or older,
    and whose upstream query succeeds: one upstream query; one wallet per
    entry of the answer, in order, with the entry's address and parsed
    holding and with zeroed counters; each wallet handed to storage in
    that order; the cache replaced by these wallets and stamped with the
    time read at the start of the call; the subscriptions untouched. *)
Theorem refresh_replaces_cache (limit : Z) (s : State World)
  (data : list BalanceUpdateEntry) (w1 : World) :
  topHoldersCache s = []
  \/ (30000 <= fst (dateNow (world s)) - lastTopHolderFetch s)%Z ->
  fetchBalanceUpdates (snd (dateNow (world s))) = (Ok data, w1) ->
  exists wallets w2,
    Forall2 (converted (World := World)) data wallets
    /\ getTopTokenHolders limit s
       = (Ok (Js.slice0 wallets 60),
          mkState w2 (subscriptions s) wallets (fst (dateNow (world s))),
          EvFetchHolders :: map EvInsertWallet wallets).
Proof.
  intros Hstale Hfetch.
  destruct (dateNow (world s)) as [now w0] eqn:Hnow.
  cbn [fst snd] in Hstale, Hfetch.
  assert (Hcond : negb (Nat.eqb (List.length (topHoldersCache s)) 0)
                  && (now - lastTopHolderFetch s <? 30000)%Z = false).
  { destruct Hstale as [-> | Hold]; [reflexivity|].
    apply Z.ltb_ge in Hold. rewrite Hold. apply andb_false_r. }
  destruct (toWallets_converted data
              (mkState w1 (subscriptions s) (topHoldersCache s)
                 (lastTopHolderFetch s)))
    as [wallets [w2 [Hrun Hall]]].
  cbn [subscriptions topHoldersCache lastTopHolderFetch] in Hrun.
  exists wallets, w2. split; [exact Hall|].
  unfold getTopTokenHolders.
  erewrite bind_ok by (unfold inWorld; rewrite Hnow; reflexivity).
  cbn beta. cbn [topHoldersCache lastTopHolderFetch]. rewrite Hcond.
  erewrite bind_ok by reflexivity.
  erewrite bind_ok
    by (unfold ask, inWorld, bind, ret; cbn [world]; rewrite Hfetch;
        reflexivity).
  erewrite bind_ok by exact Hrun.
  erewrite bind_ok by apply insertWallets_run.
  erewrite bind_ok by reflexivity.
  unfold after, ret. cbn. now rewrite app_nil_r.
Qed.

(** X13. When the upstream query fails, the call rejects with that error
    after the one query: nothing is stored, and the cache and its time
    stamp stay as they were. *)
Theorem failed_refresh_keeps_cache (limit : Z) (s : State World)
  (e : JsError) (w1 : World) :
  topHoldersCache s = []
  \/ (30000 <= fst (dateNow (world s)) - lastTopHolderFetch s)%Z ->
  fetchBalanceUpdates (snd (dateNow (world s))) = (Throw e, w1) ->
  getTopTokenHolders limit s
  = (Throw e,
     mkState w1 (subscriptions s) (topHoldersCache s) (lastTopHolderFetch s),
     [EvFetchHolders]).
Proof.
  intros Hstale Hfetch.
  destruct (dateNow (world s)) as [now w0] eqn:Hnow.
  cbn [fst snd] in Hstale, Hfetch.
  assert (Hcond : negb (Nat.eqb (List.length (topHoldersCache s)) 0)
                  && (now - lastTopHolderFetch s <? 30000)%Z = false).
  { destruct Hstale as [-> | Hold]; [reflexivity|].
    apply Z.ltb_ge in Hold. rewrite Hold. apply andb_false_r. }
  unfold getTopTokenHolders.
  erewrite bind_ok by (unfold inWorld; rewrite Hnow; reflexivity).
  cbn beta. cbn [topHoldersCache lastTopHolderFetch]. rewrite Hcond.
  erewrite bind_ok by reflexivity.
  erewrite bind_throw
    by (unfold ask, inWorld, bind, ret, throw; cbn [world]; rewrite Hfetch;
        reflexivity).
  reflexivity.
Qed.

Lemma slice0_prefix {A : Type} (xs : list A) (limit : Z) :
  (0 <= limit)%Z -> Js.slice0 xs limit = firstn (Z.to_nat limit) xs.
Proof.
  intros Hlimit. unfold Js.slice0.
  destruct (limit <? 0)%Z eqn:Hneg; [apply Z.ltb_lt in Hneg; lia|].
  destruct (Z.le_ge_cases limit (Z.of_nat (List.length xs))) as [Hle | Hge].
  - now rewrite Z.min_l by exact Hle.
  - rewrite Z.min_r by exact Hge. rewrite Nat2Z.id.
    rewrite firstn_all. symmetry. apply firstn_all2. lia.
Qed.

Lemma slice0_negative {A : Type} (xs : list A) (limit : Z) :
  (limit < 0)%Z ->
  Js.slice0 xs limit = firstn (List.length xs - Z.to_nat (- limit)) xs.
Proof.
  intros Hneg. unfold Js.slice0.
  apply Z.ltb_lt in Hneg. rewrite Hneg. apply Z.ltb_lt in Hneg.
  f_equal. lia.
Qed.

(** X14. A call answered from the cache resolves with a prefix of the
    cache and changes neither the cache nor its time stamp: the first
    [limit] wallets for a [limit] of zero or more, and all but the last
    [-limit] wallets for a negative [limit]. *)
Theorem cached_answer_is_a_prefix (limit : Z) (s : State World) :
  topHoldersCache s <> [] ->
  (fst (dateNow (world s)) - lastTopHolderFetch s < 30000)%Z ->
  topHoldersCache (final (getTopTokenHolders limit s)) = topHoldersCache s
  /\ lastTopHolderFetch (final (getTopTokenHolders limit s))
     = lastTopHolderFetch s
  /\ ((0 <= limit)%Z ->
      outcome (getTopTokenHolders limit s)
      = Ok (firstn (Z.to_nat limit) (topHoldersCache s)))
  /\ ((limit < 0)%Z ->
      outcome (getTopTokenHolders limit s)
      = Ok (firstn (List.length (topHoldersCache s) - Z.to_nat (- limit))
              (topHoldersCache s))).
Proof.
  intros Hcache Hfresh.
  rewrite (getTopTokenHolders_fresh limit s Hcache Hfresh).
  cbn [outcome final fst snd topHoldersCache lastTopHolderFetch].
  repeat split.
  - intros Hlimit. now rewrite slice0_prefix.
  - intros Hlimit. now rewrite slice0_negative.
Qed.

End HolderMore.

(** The first call against an endpoint that knows two holders. *)
Lemma refresh_replaces_cache_with_two_holders :
  exists wallets w2,
    Forall2 (converted (World := Script.World)) [holderA; holderB] wallets
    /\ getTopTokenHolders 1 (Script.start twoHolders)
       = (Ok (Js.slice0 wallets 60),
          mkState w2 [] wallets 1000%Z,
          EvFetchHolders :: map EvInsertWallet wallets).
Proof.
  exact (refresh_replaces_cache 1 (Script.start twoHolders)
           [holderA; holderB]
           (snd (Script.answerHolders (snd (Script.tick twoHolders))))
           (or_introl eq_refl) eq_refl).
Defined.

(** The first call against an endpoint that cannot be reached. *)
Lemma failed_refresh_keeps_empty_cache :
  getTopTokenHolders 60 (Script.start holdersUnreachable)
  = (Throw connectionReset,
     mkState
       (snd (Script.answerHolders (snd (Script.tick holdersUnreachable))))
       [] [] 0%Z,
     [EvFetchHolders]).
Proof.
  exact (failed_refresh_keeps_cache 60 (Script.start holdersUnreachable)
           connectionReset
           (snd (Script.answerHolders
                   (snd (Script.tick holdersUnreachable))))
           (or_introl eq_refl) eq_refl).
Defined.

(** After the refresh at 1000, a call at 5000 with [limit = -1] gets the
    cache without its last wallet. *)
Lemma cached_answer_for_a_negative_limit :
  topHoldersCache
    (final (getTopTokenHolders (-1)
              (final (getTopTokenHolders 60 (Script.start twoHolders)))))
  = topHoldersCache (final (getTopTokenHolders 60 (Script.start twoHolders)))
  /\ map address
       match
         outcome
           (getTopTokenHolders (-1)
              (final (getTopTokenHolders 60 (Script.start twoHolders))))
       with
       | Ok wallets => wallets
       | Throw _ => []
       end
     = ["holderA"].
Proof.
  destruct (cached_answer_is_a_prefix (-1)
              (final (getTopTokenHolders 60 (Script.start twoHolders))))
    as [Hcache [_ [_ Hneg]]].
  - discriminate.
  - cbn. lia.
  - split; [exact Hcache|]. rewrite Hneg by lia. reflexivity.
Defined.

(** The balances of the two holders are the numbers their holdings
    spell. *)
Example balances_of_the_two_holders :
  match outcome (getTopTokenHolders 60 (Script.start twoHolders)) with
  | Ok wallets => map (fun w => (address w, tokenBalance w)) wallets
  | Throw _ => []
  end
  = [("holderA", 12.5%float); ("holderB", 7%float)].
Proof. reflexivity. Qed.

(** ** Subscriptions, continued *)

Section SubscriptionMore.

Context {World : Type} {E : Environment World}.

Lemma sleeps_none (t : list Event) :
  Forall (fun ev => isSleep ev = false) t -> sleeps t = 0.
Proof.
  unfold sleeps. induction 1 as [|ev t Hev _ IH]; cbn [filter];
    [reflexivity|]. now rewrite Hev.
Qed.

Lemma emitsOnly_setSubscription (P : Event -> Prop) (addr : string)
  (id : Z) (c : Connection) :
  emitsOnly P (setSubscription addr id c : M World unit).
Proof. intros s. constructor. Qed.

(** One address: resolved, one acquire, no sleep. *)
Lemma subscribeOne_summary (addr : string) (s : State World) :
  outcome (subscribeOne addr s) = Ok tt
  /\ acquires (events (subscribeOne addr s)) = 1
  /\ sleeps (events (subscribeOne addr s)) = 0.
Proof.
  unfold subscribeOne. rewrite tryCatch_run.
  erewrite bind_ok by apply acquire_run. set (s0 := mkState _ _ _ _).
  assert (Hrest :
            emitsOnly (fun ev => isAcquire ev = false /\ isSleep ev = false)
              (newPublicKey addr ;;
               connection <- getConnection ;;
               subscriptionId <- ask (onAccountChange connection addr) ;;
               emit (EvOnAccountChange connection addr subscriptionId) ;;
               setSubscription addr subscriptionId connection
               : M World unit)%async).
  { apply emitsOnly_bind; auto with emits. intros _.
    apply emitsOnly_bind; auto with emits. intros c.
    apply emitsOnly_bind; auto with emits. intros id.
    apply emitsOnly_bind; auto with emits. intros _.
    apply emitsOnly_setSubscription. }
  specialize (Hrest s0).
  assert (Hacq : acquires (events ((newPublicKey addr ;;
               connection <- getConnection ;;
               subscriptionId <- ask (onAccountChange connection addr) ;;
               emit (EvOnAccountChange connection addr subscriptionId) ;;
               setSubscription addr subscriptionId connection)%async s0))
                 = 0).
  { apply acquires_none. eapply Forall_impl; [|exact Hrest]. now intros ev []. }
  assert (Hsl : sleeps (events ((newPublicKey addr ;;
               connection <- getConnection ;;
               subscriptionId <- ask (onAccountChange connection addr) ;;
               emit (EvOnAccountChange connection addr subscriptionId) ;;
               setSubscription addr subscriptionId connection)%async s0))
                = 0).
  { apply sleeps_none. eapply Forall_impl; [|exact Hrest]. now intros ev []. }
  destruct ((newPublicKey addr ;; _)%async s0) as [[[u|e] s1] t1];
    cbn [events snd] in Hacq, Hsl; unfold after;
    cbn [outcome final events fst snd emit];
    rewrite !acquires_app, !sleeps_app, Hacq, Hsl.
  - destruct u. repeat split.
  - repeat split.
Qed.

Lemma concat_sleeps (runs : list (list Event)) :
  Forall (fun t => sleeps t = 0) runs -> sleeps (List.concat runs) = 0.
Proof.
  induction 1 as [|t runs Ht _ IH]; [reflexivity|].
  cbn [List.concat]. now rewrite sleeps_app, Ht, IH.
Qed.

Lemma subscribeBatch_summary (batch : list string) (s : State World) :
  outcome (forEach subscribeOne batch s) = Ok tt
  /\ acquires (events (forEach subscribeOne batch s)) = List.length batch
  /\ sleeps (events (forEach subscribeOne batch s)) = 0.
Proof.
  destruct (forEach_always_resolved subscribeOne batch
              (fun x s' => proj1 (subscribeOne_summary x s')) s)
    as [Hok [runs [Hlen [Hev Hall]]]].
  rewrite Hev, <- Hlen. split; [exact Hok|]. split.
  - apply concat_acquires. eapply Forall_impl; [|exact Hall].
    intros t [x [s' ->]]. apply subscribeOne_summary.
  - apply concat_sleeps. eapply Forall_impl; [|exact Hall].
    intros t [x [s' ->]]. apply subscribeOne_summary.
Qed.

Lemma pause_summary (pause : bool) (s : State World) :
  outcome ((if pause then sleep 200 else ret tt) s) = Ok tt
  /\ acquires (events ((if pause then sleep 200 else ret tt) s)) = 0
  /\ sleeps (events ((if pause then sleep 200 else ret tt) s))
     = if pause then 1 else 0.
Proof. destruct pause; repeat split. Qed.

Lemma batchLoop_summary (walletAddresses : list string) :
  forall fuel i s,
    List.length walletAddresses - i <= fuel ->
    let r := batchLoop fuel i walletAddresses s in
    outcome r = Ok tt
    /\ acquires (events r) = List.length walletAddresses - i
    /\ (List.length walletAddresses - i = 0 -> events r = [])
    /\ (0 < List.length walletAddresses - i ->
        sleeps (events r) * 5 < List.length walletAddresses - i
        /\ List.length walletAddresses - i <= (sleeps (events r) + 1) * 5).
Proof.
  induction fuel as [|fuel IH]; intros i s Hfuel; cbv zeta.
  - cbn. repeat split; lia.
  - cbn [batchLoop].
    destruct (i <? List.length walletAddresses)%nat eqn:Hi.
    + apply Nat.ltb_lt in Hi.
      set (batch := firstn batchSize (skipn i walletAddresses)).
      assert (Hbatch : List.length batch
                       = Nat.min 5 (List.length walletAddresses - i)).
      { unfold batch, batchSize. now rewrite length_firstn, length_skipn. }
      destruct (subscribeBatch_summary batch s) as [Hok1 [Hacq1 Hsl1]].
      destruct (forEach subscribeOne batch s) as [[[u1|e1] s1] t1] eqn:Hrun1;
        cbn [outcome events fst snd] in Hok1, Hacq1, Hsl1; [|discriminate].
      erewrite bind_ok by exact Hrun1.
      destruct (pause_summary
                  (i + batchSize <? List.length walletAddresses)%nat s1)
        as [Hok2 [Hacq2 Hsl2]].
      destruct ((if (i + batchSize <? List.length walletAddresses)%nat
                 then sleep 200 else ret tt) s1)
        as [[[u2|e2] s2] t2] eqn:Hrun2;
        cbn [outcome events fst snd] in Hok2, Hacq2, Hsl2; [|discriminate].
      erewrite bind_ok by exact Hrun2.
      destruct (IH (i + batchSize) s2) as [Hok3 [Hacq3 [Hnone Hsome]]];
        [unfold batchSize; lia|].
      destruct (batchLoop fuel (i + batchSize) walletAddresses s2)
        as [[r3 s3] t3].
      cbn [outcome events fst snd] in Hok3, Hacq3, Hnone, Hsome.
      unfold after. cbn [outcome final events fst snd].
      rewrite !acquires_app, !sleeps_app, Hacq1, Hsl1, Hacq2, Hsl2, Hacq3.
      unfold batchSize in *.
      split; [exact Hok3|]. split; [lia|]. split; [lia|]. intros _.
      destruct (i + 5 <? List.length walletAddresses)%nat eqn:Hmore.
      * apply Nat.ltb_lt in Hmore.
        destruct Hsome as [Hlo Hhi]; [lia|]. lia.
      * apply Nat.ltb_ge in Hmore.
        rewrite Hnone by lia. change (sleeps []) with 0. lia.
    + apply Nat.ltb_ge in Hi. cbn. repeat split; lia.
Qed.

(** X15. [subscribeToWalletTransactions] never rejects and tries every
    address of the list exactly once, whatever fails on the way: one
    acquire per address. It pauses once between consecutive batches of
    five, that is [(n - 1) / 5] times for [n] addresses, and does nothing
    at all for an empty list. *)
Theorem subscribe_tries_every_address (walletAddresses : list string)
  (s : State World) :
  outcome (subscribeToWalletTransactions walletAddresses s) = Ok tt
  /\ acquires (events (subscribeToWalletTransactions walletAddresses s))
     = List.length walletAddresses
  /\ sleeps (events (subscribeToWalletTransactions walletAddresses s))
     = (List.length walletAddresses - 1) / 5
  /\ (walletAddresses = [] ->
      events (subscribeToWalletTransactions walletAddresses s) = []).
Proof.
  unfold subscribeToWalletTransactions.
  destruct (batchLoop_summary walletAddresses
              (List.length walletAddresses) 0 s)
    as [Hok [Hacq [Hnone Hsome]]]; [lia|].
  rewrite Nat.sub_0_r in *.
  split; [exact Hok|]. split; [exact Hacq|]. split.
  - destruct (Nat.eq_dec (List.length walletAddresses) 0) as [Hzero | Hpos].
    + rewrite (Hnone Hzero), Hzero. reflexivity.
    + destruct Hsome as [Hlo Hhi]; [lia|].
      apply (Nat.div_unique (List.length walletAddresses - 1) 5 _
               (List.length walletAddresses - 1
                - 5 * sleeps
                        (events
                           (batchLoop (List.length walletAddresses) 0
                              walletAddresses s)))); lia.
  - intros ->. reflexivity.
Qed.

End SubscriptionMore.

Section UnsubscribeFacts.

Context {World : Type} {E : Environment World}.

(** X16. An address that is not a public key costs one admission and one
    logged error: no handle is opened, the table stays as it was, and the
    call resolves. *)
Theorem malformed_address_is_skipped (addr : string) (s : State World) :
  isPublicKey addr = false ->
  subscribeOne addr s
  = (Ok tt,
     mkState (limiterWait (world s)) (subscriptions s) (topHoldersCache s)
       (lastTopHolderFetch s),
     [EvAcquire; EvConsoleError]).
Proof.
  intros Hbad. unfold subscribeOne. rewrite tryCatch_run.
  erewrite bind_ok by apply acquire_run.
  erewrite bind_throw by (unfold newPublicKey; rewrite Hbad; reflexivity).
  reflexivity.
Qed.

Lemma unsubscribeOne_run (entry : string * (Z * Connection))
  (s : State World) :
  exists w,
    unsubscribeOne entry s
    = (Ok tt,
       mkState w (subscriptions s) (topHoldersCache s)
         (lastTopHolderFetch s),
       [closing entry]).
Proof.
  destruct entry as [a [id c]].
  cbv beta iota zeta delta
    [unsubscribeOne tryCatch bind ask inWorld emit ret throw closing].
  cbn [fst snd world].
  destruct (removeAccountChangeListener c id (world s)) as [[u|e] w];
    cbn [subscriptions topHoldersCache lastTopHolderFetch app].
  - destruct u. now exists w.
  - now exists w.
Qed.

Lemma unsubscribeEach_run (entries : list (string * (Z * Connection))) :
  forall s, exists w,
    forEach unsubscribeOne entries s
    = (Ok tt,
       mkState w (subscriptions s) (topHoldersCache s)
         (lastTopHolderFetch s),
       map closing entries).
Proof.
  induction entries as [|entry rest IH]; intros s.
  - exists (world s). now destruct s.
  - cbn [forEach]. destruct (unsubscribeOne_run entry s) as [w1 Hone].
    erewrite bind_ok by exact Hone.
    destruct (IH (mkState w1 (subscriptions s) (topHoldersCache s)
                    (lastTopHolderFetch s)))
      as [w Hrest].
    cbn [subscriptions topHoldersCache lastTopHolderFetch] in Hrest.
    rewrite Hrest. now exists w.
Qed.

(** X17. [unsubscribeAll] always resolves and leaves the table empty,
    whether or not the node accepts the removals. It asks for the removal
    of each tracked handle once, in the order of the table, and touches
    neither the holder cache nor its time stamp. *)
Theorem unsubscribeAll_clears_the_table (s : State World) :
  exists w,
    unsubscribeAll s
    = (Ok tt,
       mkState w [] (topHoldersCache s) (lastTopHolderFetch s),
       map closing (subscriptions s)).
Proof.
  unfold unsubscribeAll.
  destruct (unsubscribeEach_run (subscriptions s) s) as [w Hrun].
  erewrite bind_ok by exact Hrun.
  exists w. unfold after, clearSubscriptions. cbn. now rewrite app_nil_r.
Qed.

Lemma filter_filter {A : Type} (p q : A -> bool) (l : list A) :
  filter p (filter q l) = filter (fun x => q x && p x) l.
Proof.
  induction l as [|x l IH]; [reflexivity|]. cbn.
  destruct (q x); cbn; [destruct (p x)|]; now rewrite IH.
Qed.

Lemma unreleased_closing (entries : list (string * (Z * Connection))) :
  forall held,
    unreleased (map closing entries) held
    = filter (fun h => negb (existsb (sameHandle h) entries)) held.
Proof.
  induction entries as [|entry rest IH]; intros held.
  - cbn. induction held as [|h held IHl]; [reflexivity|].
    cbn. now rewrite <- IHl.
  - cbn [map closing unreleased]. rewrite IH, filter_filter.
    apply filter_ext. intros h. cbn [existsb]. unfold sameHandle.
    now rewrite negb_orb.
Qed.

(** One entry: the node is asked once, and its answer is dropped. *)
Lemma unsubscribeOne_asks (entry : string * (Z * Connection))
  (s : State World) :
  unsubscribeOne entry s
  = (Ok tt,
     mkState (afterRemovals [entry] (world s)) (subscriptions s)
       (topHoldersCache s) (lastTopHolderFetch s),
     [closing entry]).
Proof.
  destruct entry as [a [id c]].
  cbv beta iota zeta delta
    [unsubscribeOne tryCatch bind ask inWorld emit ret throw closing
       afterRemovals fold_left].
  cbn [fst snd world].
  destruct (removeAccountChangeListener c id (world s)) as [[u|e] w];
    cbn [fst snd subscriptions topHoldersCache lastTopHolderFetch app];
    [destruct u|]; reflexivity.
Qed.

Lemma unsubscribeEach_asks (entries : list (string * (Z * Connection))) :
  forall s,
    forEach unsubscribeOne entries s
    = (Ok tt,
       mkState (afterRemovals entries (world s)) (subscriptions s)
         (topHoldersCache s) (lastTopHolderFetch s),
       map closing entries).
Proof.
  induction entries as [|entry rest IH]; intros s.
  - now destruct s.
  - cbn [forEach]. erewrite bind_ok by apply unsubscribeOne_asks.
    rewrite IH. reflexivity.
Qed.

(** X18. [unsubscribeAll] asks for the removal of the handles the table
    tracks and of no others, and it does so whether or not the node
    accepts: the world it leaves is the world after one request per
    entry, each made where the one before it left off. Of any handles
    held before the call, those are left without a removal request whose
    id and connection the table does not hold, so a handle that a later
    subscription replaced in the table is not released. *)
Theorem unsubscribeAll_releases_only_the_tracked (s : State World)
  (held : list (string * (Z * Connection))) :
  world (final (unsubscribeAll s)) = afterRemovals (subscriptions s) (world s)
  /\ unreleased (events (unsubscribeAll s)) held
     = filter (fun h => negb (existsb (sameHandle h) (subscriptions s))) held.
Proof.
  unfold unsubscribeAll.
  erewrite bind_ok by apply unsubscribeEach_asks.
  unfold after, clearSubscriptions. cbn [final events fst snd world].
  split; [reflexivity|].
  rewrite app_nil_r. apply unreleased_closing.
Qed.

End UnsubscribeFacts.

Lemma empty_address_is_skipped :
  subscribeOne "" (Script.start Script.quiet)
  = (Ok tt,
     mkState (limiterWait (world (Script.start Script.quiet))) [] [] 0%Z,
     [EvAcquire; EvConsoleError]).
Proof.
  exact (malformed_address_is_skipped "" (Script.start Script.quiet)
           eq_refl).
Defined.

(** ** The recent-transactions feed *)

Module HeliusFacts.

Import Helius.

Section FeedFacts.

Variable toLowerCase : string -> string.

Lemma numberOr_settled (a : option float) (b : float) :
  settled b -> settled (numberOr a b).
Proof.
  intros Hb. unfold numberOr. destruct a as [x|]; [|exact Hb].
  destruct (truthy x) eqn:Hx; [now left | exact Hb].
Qed.

Lemma stringOr_nonempty (a : option string) (b : string) :
  b <> "" -> stringOr a b <> "".
Proof.
  intros Hb. unfold stringOr. destruct a as [x|]; [|exact Hb].
  destruct (String.eqb x "") eqn:Hx; [exact Hb|].
  now apply String.eqb_neq in Hx.
Qed.

Lemma toRow_direction (tokenAddress : string) (tx : Entry) :
  rowType (toRow toLowerCase tokenAddress tx) = Sell
  <-> sentByToken tokenAddress tx.
Proof.
  unfold sentByToken, toRow. cbn [rowType].
  destruct (firstOf fromUserAccount (tokenTransfers tx)) as [from|].
  - destruct (String.eqb from tokenAddress) eqn:Heq.
    + apply String.eqb_eq in Heq. subst. tauto.
    + apply String.eqb_neq in Heq. split; [discriminate|].
      intros H. inversion H. contradiction.
  - split; discriminate.
Qed.

(** X19. When the indexer answers with a page of entries,
    [fetchRecentTransactions] resolves with one row per entry, in order,
    under the entry's signature; a row is a sale exactly when the first
    token transfer of its entry was sent by the token address, so an entry
    without token transfers is a purchase. A response that is not [ok]
    gives the empty list without its body being read. *)
Theorem recent_transactions_follow_the_page (tokenAddress : string)
  (res : Response) :
  (ok res = false ->
   fetchRecentTransactions toLowerCase tokenAddress (Ok res) = Ok [])
  /\ (forall data,
        ok res = true ->
        json res = Ok data ->
        exists rows,
          fetchRecentTransactions toLowerCase tokenAddress (Ok res) = Ok rows
          /\ map rowSignature rows = map signature data
          /\ Forall2
               (fun tx row =>
                  (rowType row = Sell <-> sentByToken tokenAddress tx)
                  /\ (tokenTransfers tx = None -> rowType row = Buy))
               data rows).
Proof.
  split.
  - intros Hbad. unfold fetchRecentTransactions. now rewrite Hbad.
  - intros data Hok Hjson. unfold fetchRecentTransactions.
    rewrite Hok, Hjson. cbn [negb].
    exists (map (toRow toLowerCase tokenAddress) data).
    split; [reflexivity|]. split.
    + rewrite map_map. reflexivity.
    + clear Hjson. induction data as [|tx data IH]; [constructor|].
      cbn [map]. constructor; [|exact IH]. split.
      * apply toRow_direction.
      * intros Hnone. unfold toRow. cbn [rowType]. now rewrite Hnone.
Qed.

(** X20. Whatever the indexer sends, the rows carry a wallet address and
    a protocol that are not empty, and an amount and a fee that are
    numbers: a missing, zero or [NaN] field is replaced by the next
    candidate, in the end by ["unknown"] or [0]. *)
Theorem recent_transactions_are_filled_in (tokenAddress : string)
  (fetched : result Response) (rows : list Row) :
  fetchRecentTransactions toLowerCase tokenAddress fetched = Ok rows ->
  Forall
    (fun row =>
       rowWalletAddress row <> ""
       /\ rowProtocol row <> ""
       /\ settled (rowAmount row)
       /\ settled (rowFee row)
       /\ rowPriceImpact row = 0%float)
    rows.
Proof.
  unfold fetchRecentTransactions. intros Hrun.
  destruct fetched as [res|e]; [|discriminate].
  destruct (ok res); cbn [negb] in Hrun;
    [|inversion Hrun; constructor].
  destruct (json res) as [data|e]; [|discriminate].
  inversion Hrun; subst rows. clear Hrun.
  apply Forall_forall. intros row Hrow.
  apply in_map_iff in Hrow. destruct Hrow as [tx [<- _]].
  unfold toRow. cbn [rowWalletAddress rowProtocol rowAmount rowFee
                      rowPriceImpact].
  repeat split.
  - apply stringOr_nonempty, stringOr_nonempty. discriminate.
  - apply stringOr_nonempty. discriminate.
  - apply numberOr_settled, numberOr_settled. now right.
  - apply numberOr_settled. now right.
Qed.

End FeedFacts.

End HeliusFacts.

(** The page of the scenario, lower-casing left to the identity: the
    first row is a sale, the second a purchase of the 3 lamports that the
    zero token amount gives way to. *)
Lemma recent_transactions_of_the_page :
  Forall
    (fun row =>
       Helius.rowWalletAddress row <> ""
       /\ Helius.rowProtocol row <> ""
       /\ settled (Helius.rowAmount row)
       /\ settled (Helius.rowFee row)
       /\ Helius.rowPriceImpact row = 0%float)
    (map (Helius.toRow (fun s => s) TOKEN_MINT) heliusPage).
Proof.
  apply (HeliusFacts.recent_transactions_are_filled_in (fun s => s)
           TOKEN_MINT (Ok (Helius.mkResponse true (Ok heliusPage)))).
  reflexivity.
Defined.

Example recent_transactions_rows :
  map (fun row =>
         (Helius.rowType row, Helius.rowAmount row,
          Helius.rowWalletAddress row, Helius.rowProtocol row))
    (map (Helius.toRow (fun s => s) TOKEN_MINT) heliusPage)
  = [ (Sell, 12%float, TOKEN_MINT, "RAYDIUM");
      (Buy, 3%float, "payer", "unknown") ].
Proof. reflexivity. Qed.

(** ** The status probe *)

Section StatusFacts.

Context {World : Type} {E : Environment World} {P : Probe World}.

(** X21. [getConnectionStatus] never rejects and leaves the table and
    the cache alone. It acquires admission once, draws its connection and
    asks it for the slot, and reports the size of the table either way.
    When the node answers with a slot the report says connected exactly
    when the slot is greater than 0, and carries the limiter's occupancy
    after the call together with the configured maximum of 8. When the
    request fails the report says disconnected, with an occupancy and a
    maximum of 0. *)
Theorem getConnectionStatus_never_rejects (s : State World) :
  exists status,
    getConnectionStatus s
    = (Ok status,
       mkState
         (snd (getSlot
                 (pickConnection (fst (mathRandom (limiterWait (world s)))))
                 (snd (mathRandom (limiterWait (world s))))))
         (subscriptions s) (topHoldersCache s) (lastTopHolderFetch s),
       [EvAcquire])
    /\ activeSubscriptions status = List.length (subscriptions s)
    /\ (forall slot,
          fst (getSlot
                 (pickConnection (fst (mathRandom (limiterWait (world s)))))
                 (snd (mathRandom (limiterWait (world s)))))
          = Ok slot ->
          rpcConnected status = (0 <? slot)%float
          /\ requestsInWindow status
             = limiterRequests (world (final (getConnectionStatus s)))
          /\ reportedMaxRequests status = 8%Z)
    /\ (forall e,
          fst (getSlot
                 (pickConnection (fst (mathRandom (limiterWait (world s)))))
                 (snd (mathRandom (limiterWait (world s)))))
          = Throw e ->
          rpcConnected status = false
          /\ requestsInWindow status = 0%Z
          /\ reportedMaxRequests status = 0%Z).
Proof.
  cbv beta iota zeta delta
    [getConnectionStatus tryCatch bind acquire getConnection ask inWorld
       emit ret throw outcome final events].
  cbn [fst snd world subscriptions topHoldersCache lastTopHolderFetch app].
  destruct (mathRandom (limiterWait (world s))) as [r w1].
  cbn [fst snd world subscriptions topHoldersCache lastTopHolderFetch app].
  destruct (getSlot (pickConnection r) w1) as [[slot|e] w2];
    cbn [fst snd world subscriptions topHoldersCache lastTopHolderFetch app];
    eexists; (split; [reflexivity|]); (split; [reflexivity|]); split.
  - intros slot' Heq. inversion Heq. subst slot'. repeat split.
  - intros e' Heq. discriminate.
  - intros slot' Heq. discriminate.
  - intros e' Heq. repeat split.
Qed.

End StatusFacts.

(** Three probes in a row against a node that answers, fails and answers
    with slot 0: each probe takes a place in the limiter's window, the
    failed one included, and the last reports the node as disconnected
    next to the maximum of 8. *)
Example status_of_a_flaky_node :
  outcome (statusCalls 3 (Live.start flakyNode))
  = Ok [ mkStatus true 0 1 8; mkStatus false 0 0 0; mkStatus false 0 3 8 ].
Proof. reflexivity. Qed.

(** The ninth probe within the second waits for the window to pass and
    then finds the limiter's list purged. *)
Example ninth_probe_waits :
  match outcome (statusCalls 9 (Live.start steadyNode)) with
  | Ok statuses => map requestsInWindow statuses
  | Throw _ => []
  end
  = [1; 2; 3; 4; 5; 6; 7; 8; 1]%Z
  /\ Live.now (world (final (statusCalls 9 (Live.start steadyNode))))
     = 6000%Z.
Proof. split; reflexivity. Qed.

(** ** The rate-limit marker *)

Lemma substring_prefix (needle s : string) :
  substring 0 (String.length needle) s = needle <->
  exists behind, s = (needle ++ behind)%string.
Proof.
  revert s. induction needle as [|c needle IH]; intros s; cbn.
  - split; [intros _; now exists s|]. intros _. now destruct s.
  - destruct s as [|c' s]; cbn.
    + split; [discriminate | intros [behind H]; discriminate].
    + split.
      * intros H. inversion H as [[Hc Hrest]]. subst c'.
        rewrite Hrest. apply IH in Hrest. destruct Hrest as [behind ->].
        now exists behind.
      * intros [behind H]. inversion H; subst.
        f_equal. apply IH. now exists behind.
Qed.

Lemma substring_occurs (needle : string) :
  forall m s,
    needle <> "" ->
    substring m (String.length needle) s = needle ->
    occursIn needle s.
Proof.
  induction m as [|m IH]; intros s Hne Hsub.
  - apply substring_prefix in Hsub. destruct Hsub as [behind ->].
    now exists "", behind.
  - destruct s as [|c s]; cbn in Hsub.
    + destruct needle; [contradiction | discriminate].
    + destruct (IH s Hne Hsub) as [before [behind ->]].
      now exists (String c before), behind.
Qed.

Lemma occurs_substring (needle before behind : string) :
  substring (String.length before) (String.length needle)
    (before ++ needle ++ behind)%string
  = needle.
Proof.
  induction before as [|c before IH]; cbn; [|exact IH].
  apply substring_prefix. now exists behind.
Qed.

Lemma includes_occurs (msg needle : string) :
  needle <> "" ->
  Js.includes msg needle = true <-> occursIn needle msg.
Proof.
  intros Hne. unfold Js.includes.
  destruct (String.index 0 needle msg) as [m|] eqn:Hidx.
  - split; [intros _|reflexivity].
    apply index_correct1 in Hidx. now apply (substring_occurs needle m).
  - split; [discriminate|]. intros [before [behind ->]]. exfalso.
    apply (index_correct3 0 (String.length before) _ _ Hidx Hne);
      [lia | apply occurs_substring].
Qed.


(** The marker is looked for anywhere in the message, digits of a slot
    number included, and in one spelling. *)
Example marker_inside_a_number :
  isRateLimitError (mkError (Some "Slot 254290113 was skipped")) = true
  /\ isRateLimitError (mkError (Some "too many requests")) = false.
Proof. split; reflexivity. Qed.
